(** * sekr8s: the line buffer and the secret pipeline, verified

    A shallow embedding of [better_prompt.js], [commands.js] and the
    dispatch of [cli.js].

    Conventions of the embedding.
    - A JavaScript string is a [string]: the sequence of bytes of its
      UTF-8 encoding.  [Buffer.from(s, 'utf-8')] is then the list of
      those bytes, and every index used by the program ([indexOf],
      [substring]) is taken at an ASCII delimiter, where byte and
      code-unit positions agree.
    - Mutable objects are threaded explicitly: every method takes the
      object and gives back the updated object.
    - A promise is described by the way it is settled. *)

From Stdlib Require Import String Ascii List Bool Arith NArith ZArith Lia.
From Stdlib Require Import Strings.Byte.
Import ListNotations.
Local Open Scope string_scope.
Local Open Scope list_scope.

Set Implicit Arguments.

(* ================================================================= *)
(** ** The part of Node's [readline] that the program uses *)

Module Readline.

(** [createInterface({input, output})].  [output] says whether an
    output stream was given: the program gives none when the input is
    not a terminal.

    [displayed] lists the prompts that the interface was asked to
    display, one for each [prompt] call made with an output stream,
    in the order of the calls.  It is not the text that reaches the
    stream: a stream that is not a terminal receives the prompt as it
    is, but on a terminal the interface redraws the input line, with
    cursor control around the prompt and what has been typed so far
    after it, redraws it again while the line is edited, and echoes
    the input.  None of this is recorded.

    [closed] is set by [close].  The interface also closes itself,
    when its input ends. *)
Record Interface : Type := mkInterface {
  output : bool;
  thePrompt : string;
  displayed : list string;
  closed : bool
}.

Definition createInterface (hasOutput : bool) : Interface :=
  mkInterface hasOutput "> " [] false.

Definition setPrompt (p : string) (rl : Interface) : Interface :=
  mkInterface (output rl) p (displayed rl) (closed rl).

(** [rl.prompt(preserveCursor)] puts the current prompt on display,
    when there is an output stream to display it on.  It does so on
    a closed interface too, as in Node v10, which the script was
    written for. *)
Definition prompt (rl : Interface) : Interface :=
  if output rl
  then mkInterface (output rl) (thePrompt rl) (displayed rl ++ [thePrompt rl]) (closed rl)
  else rl.

Definition close (rl : Interface) : Interface :=
  mkInterface (output rl) (thePrompt rl) (displayed rl) true.

End Readline.

(* ================================================================= *)
(** ** [better_prompt.js]: class [BetterPrompt] *)

Module BetterPrompt.

(** How the promise returned by [getNextLine] is settled by its
    executor: rejected, fulfilled with a line, or resolved with the
    inner promise whose resolver [w] has just been registered. *)
Inductive Settlement (W : Type) : Type :=
| Rejected (message : string)
| Fulfilled (line : string)
| Pending (w : W).
Arguments Rejected {W} message.
Arguments Fulfilled {W} line.
Arguments Pending {W} w.

Section Class.

(** [W] names the resolver functions of the inner promises. *)
Variable W : Type.

(** The fields of an instance.  [listenerResolve] is the property that
    [getNextLine] reads; no statement of the class assigns it, so it
    is [undefined] in every instance the constructor builds. *)
Record t : Type := mk {
  readlineInterface : Readline.Interface;
  linesQueue : list string;
  resolve : option W;
  listenerResolve : option W
}.

Definition constructor (instream_isTTY : bool) : t :=
  let readlineOutput := instream_isTTY in
  mk (Readline.createInterface readlineOutput) [] None None.

(** [handleLine(line)]: the first component is the resolver that was
    called, with its argument. *)
Definition handleLine (line : string) (this : t) : option (W * string) * t :=
  match resolve this with
  | Some toResolve =>
      (Some (toResolve, line),
       mk (readlineInterface this) (linesQueue this) None (listenerResolve this))
  | None =>
      (None,
       mk (readlineInterface this) (linesQueue this ++ [line])
          (resolve this) (listenerResolve this))
  end.

Definition rejection : string :=
  "getNextLine called without waiting for result from previous call".

(** [getNextLine(prompt)]; [fresh] is the resolver of the inner
    promise, should the executor create one. *)
Definition getNextLine (prompt : string) (fresh : W) (this : t) : Settlement W * t :=
  match listenerResolve this with
  | Some _ => (Rejected rejection, this)
  | None =>
      let rl := Readline.prompt (Readline.setPrompt prompt (readlineInterface this)) in
      match linesQueue this with
      | line :: rest =>
          (Fulfilled line, mk rl rest (resolve this) (listenerResolve this))
      | [] =>
          (Pending fresh, mk rl [] (Some fresh) (listenerResolve this))
      end
  end.

Definition close (this : t) : t :=
  mk (Readline.close (readlineInterface this)) (linesQueue this)
     (resolve this) (listenerResolve this).

(** *** Sequences of calls *)

Inductive call : Type :=
| HandleLine (line : string)
| GetNextLine (prompt : string) (fresh : W).

(** What a call makes visible: a resolver fired by [handleLine], or the
    settlement of the promise [getNextLine] returned. *)
Inductive observation : Type :=
| Fired (w : W) (line : string)
| Queued
| Returned (s : Settlement W).

Definition perform (c : call) (this : t) : observation * t :=
  match c with
  | HandleLine line =>
      match handleLine line this with
      | (Some (w, l), this') => (Fired w l, this')
      | (None, this') => (Queued, this')
      end
  | GetNextLine p fresh =>
      let '(s, this') := getNextLine p fresh this in (Returned s, this')
  end.

Fixpoint performAll (cs : list call) (this : t) : list observation * t :=
  match cs with
  | [] => ([], this)
  | c :: cs' =>
      let '(o, this') := perform c this in
      let '(os, this'') := performAll cs' this' in
      (o :: os, this'')
  end.

(** The lines arrive first: one [handleLine] per line. *)
Definition deliver (lines : list string) : list call := map HandleLine lines.

(** Then the requests: one [getNextLine] per prompt. *)
Definition requests (reqs : list (string * W)) : list call :=
  map (fun r => GetNextLine (fst r) (snd r)) reqs.

(** The queue holds lines only while no resolver is registered. *)
Definition queue_excludes_waiter (this : t) : Prop :=
  linesQueue this = [] \/ resolve this = None.

End Class.

Arguments constructor {W} instream_isTTY.
Arguments HandleLine {W} line.
Arguments Queued {W}.

End BetterPrompt.

(* ================================================================= *)
(** ** The JavaScript built-ins that [commands.js] calls *)

Module JS.

(** [s.split(sep)] for a one-character separator: [n] occurrences of
    the separator give [n + 1] pieces. *)
Fixpoint split (sep : ascii) (s : string) : list string :=
  match s with
  | EmptyString => [EmptyString]
  | String c s' =>
      if Ascii.eqb c sep then EmptyString :: split sep s'
      else match split sep s' with
           | piece :: pieces => String c piece :: pieces
           | [] => [String c EmptyString]
           end
  end.

(** Relative indices of [Array.prototype.slice]. *)
Definition relative (len k : Z) : Z :=
  if (k <? 0)%Z then Z.max (len + k) 0 else Z.min k len.

(** [a.slice(start, end)]. *)
Definition slice {A : Type} (start stop : Z) (a : list A) : list A :=
  let len := Z.of_nat (length a) in
  let from := relative len start in
  let to := relative len stop in
  firstn (Z.to_nat (to - from)) (skipn (Z.to_nat from) a).

(** [s.indexOf(c)] for a one-character needle; [-1] when absent. *)
Fixpoint indexOf (c : ascii) (s : string) : Z :=
  match s with
  | EmptyString => (-1)%Z
  | String d s' =>
      if Ascii.eqb d c then 0%Z
      else let i := indexOf c s' in
           if (i <? 0)%Z then (-1)%Z else (i + 1)%Z
  end.

(** [s.substring(start, end)]: both indices are clamped to
    [0 .. length] and swapped when out of order. *)
Definition clamp (len k : Z) : Z := Z.min (Z.max k 0) len.

Definition substring (start stop : Z) (s : string) : string :=
  let len := Z.of_nat (String.length s) in
  let a := clamp len start in
  let b := clamp len stop in
  let lo := Z.min a b in
  let hi := Z.max a b in
  String.substring (Z.to_nat lo) (Z.to_nat (hi - lo)) s.

(** [s.substring(start)]. *)
Definition substringFrom (start : Z) (s : string) : string :=
  substring start (Z.of_nat (String.length s)) s.

(** *** [Map]: keys in insertion order; setting a key that is present
    replaces its value where it stands. *)
Definition Map (V : Type) : Type := list (string * V).

Fixpoint Map_set {V : Type} (k : string) (v : V) (m : Map V) : Map V :=
  match m with
  | [] => [(k, v)]
  | (k', v') :: m' =>
      if String.eqb k' k then (k', v) :: m' else (k', v') :: Map_set k v m'
  end.

Fixpoint Map_get {V : Type} (k : string) (m : Map V) : option V :=
  match m with
  | [] => None
  | (k', v') :: m' => if String.eqb k' k then Some v' else Map_get k m'
  end.

(** [new Map(entries)]. *)
Definition Map_new {V : Type} (entries : list (string * V)) : Map V :=
  fold_left (fun m kv => Map_set (fst kv) (snd kv) m) entries [].

End JS.

(* ================================================================= *)
(** ** Node's [Buffer]: the UTF-8 and base64 conversions *)

Module Buffer.

Local Open Scope N_scope.

Definition Buffer : Type := list byte.

(** [Buffer.from(s, 'utf-8')]. *)
Definition from_utf8 (s : string) : Buffer := list_byte_of_string s.

(** The chunk a stream receives when a buffer is written to it. *)
Definition toString_utf8 (b : Buffer) : string := string_of_list_byte b.

Definition alphabet : string :=
  "ABCDEFGHIJKLMNOPQRSTUVWXYZabcdefghijklmnopqrstuvwxyz0123456789+/".

(** The character of a sextet. *)
Definition digit (n : N) : ascii :=
  match String.get (N.to_nat n) alphabet with
  | Some c => c
  | None => "="%char
  end.

(** The sextet of a character.  The decoder reads the standard and
    the URL-safe alphabet alike. *)
Definition unbase64 (c : ascii) : option N :=
  let n := N_of_ascii c in
  if (65 <=? n) && (n <=? 90) then Some (n - 65)
  else if (97 <=? n) && (n <=? 122) then Some (n - 71)
  else if (48 <=? n) && (n <=? 57) then Some (n + 4)
  else if (n =? 43) || (n =? 45) then Some 62
  else if (n =? 47) || (n =? 95) then Some 63
  else None.

Definition octet (n : N) : byte :=
  match Byte.of_N (n mod 256) with
  | Some b => b
  | None => x00
  end.

(** [buf.toString('base64')]: three bytes give four characters; a
    last group of one or two bytes is padded with [=]. *)
Fixpoint toString_base64 (b : Buffer) : string :=
  match b with
  | [] => EmptyString
  | [x] =>
      let x := Byte.to_N x in
      String (digit (x / 4)) (String (digit ((x mod 4) * 16)) "==")
  | [x; y] =>
      let x := Byte.to_N x in
      let y := Byte.to_N y in
      String (digit (x / 4))
        (String (digit ((x mod 4) * 16 + y / 16))
           (String (digit ((y mod 16) * 4)) "="))
  | x :: y :: z :: rest =>
      let x := Byte.to_N x in
      let y := Byte.to_N y in
      let z := Byte.to_N z in
      String (digit (x / 4))
        (String (digit ((x mod 4) * 16 + y / 16))
           (String (digit ((y mod 16) * 4 + z / 64))
              (String (digit (z mod 64)) (toString_base64 rest))))
  end.

(** The decoder reads a string by UTF-16 code units.  [codeUnits]
    gives those of a string, from its UTF-8 bytes: a character below
    U+10000 is one unit, any other a pair of surrogates.  A byte that
    starts no well-formed sequence stands for no character; it gives
    U+FFFD, as a UTF-8 decoder would, and reading goes on after it. *)
Definition between (lo hi n : N) : bool := (lo <=? n) && (n <=? hi).

Definition continuation (n : N) : bool := between 128 191 n.

(** The second byte a leading byte admits (Unicode, table 3-7). *)
Definition second (b0 b1 : N) : bool :=
  if between 194 223 b0 then continuation b1
  else if b0 =? 224 then between 160 191 b1
  else if between 225 236 b0 then continuation b1
  else if b0 =? 237 then between 128 159 b1
  else if between 238 239 b0 then continuation b1
  else if b0 =? 240 then between 144 191 b1
  else if between 241 243 b0 then continuation b1
  else if b0 =? 244 then between 128 143 b1
  else false.

Definition replacement : N := 65533.

Fixpoint codeUnits (s : string) : list N :=
  match s with
  | EmptyString => []
  | String c0 s1 =>
      let b0 := N_of_ascii c0 in
      if b0 <? 128 then b0 :: codeUnits s1
      else
        match s1 with
        | String c1 s2 =>
            let b1 := N_of_ascii c1 in
            if negb (second b0 b1) then replacement :: codeUnits s1
            else if b0 <? 224 then ((b0 - 192) * 64 + (b1 - 128)) :: codeUnits s2
            else
              match s2 with
              | String c2 s3 =>
                  let b2 := N_of_ascii c2 in
                  if negb (continuation b2) then replacement :: codeUnits s1
                  else if b0 <? 240 then
                    ((b0 - 224) * 4096 + (b1 - 128) * 64 + (b2 - 128)) :: codeUnits s3
                  else
                    match s3 with
                    | String c3 s4 =>
                        let b3 := N_of_ascii c3 in
                        if negb (continuation b3) then replacement :: codeUnits s1
                        else
                          let point :=
                            (b0 - 240) * 262144 + (b1 - 128) * 4096
                            + (b2 - 128) * 64 + (b3 - 128) in
                          (55296 + (point - 65536) / 1024)
                            :: (56320 + (point - 65536) mod 1024) :: codeUnits s4
                    | EmptyString => replacement :: codeUnits s1
                    end
              | EmptyString => replacement :: codeUnits s1
              end
        | EmptyString => [replacement]
        end
  end.

(** The decoder narrows every code unit to its low byte before it
    looks it up. *)
Definition narrow (units : list N) : string :=
  string_of_list_ascii (map (fun u => ascii_of_N (u mod 256)) units).

(** The decoder is lenient: a character outside both alphabets is
    skipped, and the first [=] ends the input. *)
Fixpoint sextets (s : string) : list N :=
  match s with
  | EmptyString => []
  | String c s' =>
      if Ascii.eqb c "=" then []
      else match unbase64 c with
           | Some n => n :: sextets s'
           | None => sextets s'
           end
  end.

(** Four sextets give three bytes; of a last group, the bits that do
    not fill a byte are dropped. *)
Fixpoint octets (l : list N) : Buffer :=
  match l with
  | a :: b :: c :: d :: rest =>
      octet (a * 4 + b / 16) :: octet ((b mod 16) * 16 + c / 4)
        :: octet ((c mod 4) * 64 + d) :: octets rest
  | [a; b; c] => [octet (a * 4 + b / 16); octet ((b mod 16) * 16 + c / 4)]
  | [a; b] => [octet (a * 4 + b / 16)]
  | _ => []
  end.

(** [Buffer.from(s, 'base64')]. *)
Definition from_base64 (s : string) : Buffer := octets (sextets (narrow (codeUnits s))).

(** A character of the standard alphabet. *)
Definition standard (c : ascii) : bool :=
  match unbase64 c with
  | Some n => Ascii.eqb (digit n) c
  | None => false
  end.

Definition sextet (c : ascii) : N :=
  match unbase64 c with
  | Some n => n
  | None => 0
  end.

(** Valid base64 (RFC 4648, section 4): groups of four characters of
    the standard alphabet, the last group possibly ending in one or
    two [=], the bits under the padding being zero. *)
Fixpoint valid_base64 (s : string) : bool :=
  match s with
  | EmptyString => true
  | String c1 (String c2 (String c3 (String c4 rest))) =>
      if Ascii.eqb c4 "=" then
        match rest with
        | EmptyString =>
            if Ascii.eqb c3 "=" then
              standard c1 && standard c2 && (sextet c2 mod 16 =? 0)
            else
              standard c1 && standard c2 && standard c3 && (sextet c3 mod 4 =? 0)
        | _ => false
        end
      else
        standard c1 && standard c2 && standard c3 && standard c4
        && valid_base64 rest
  | _ => false
  end.

End Buffer.

(* ================================================================= *)
(** ** Plain objects with string values, and [JSON.stringify] *)

Module JSON.

Local Open Scope string_scope.
Local Open Scope N_scope.

(** The double quote character. *)
Definition dq : ascii := ascii_of_N 34.

(** [lit s] is [s] between double quotes. *)
Definition lit (s : string) : string := String dq (s ++ String dq EmptyString).

(** The own properties of an object, in creation order. *)
Definition Object : Type := list (string * string).

(** [o[key] = value] for a string [value].  Assigning a string to
    [__proto__] runs the inherited setter, which ignores it; any other
    key becomes, or updates, an own property. *)
Definition assign (key value : string) (o : Object) : Object :=
  if String.eqb key "__proto__" then o else JS.Map_set key value o.

Fixpoint decimal (acc : N) (s : string) : option N :=
  match s with
  | EmptyString => Some acc
  | String c s' =>
      let n := N_of_ascii c in
      if (48 <=? n) && (n <=? 57) then decimal (acc * 10 + (n - 48)) s' else None
  end.

(** A key that is an array index: a canonical decimal numeral below
    [2^32 - 1]. *)
Definition arrayIndex (key : string) : option N :=
  match key with
  | EmptyString => None
  | String c rest =>
      if Ascii.eqb c "0" && negb (String.eqb rest EmptyString) then None
      else match decimal 0 key with
           | Some n => if n <? 4294967295 then Some n else None
           | None => None
           end
  end.

Fixpoint insertIndexed (n : N) (p : string * string) (l : list (N * (string * string)))
  : list (N * (string * string)) :=
  match l with
  | [] => [(n, p)]
  | (m, q) :: l' => if n <? m then (n, p) :: l else (m, q) :: insertIndexed n p l'
  end.

Fixpoint indexed (o : Object) : list (N * (string * string)) :=
  match o with
  | [] => []
  | (k, v) :: o' =>
      match arrayIndex k with
      | Some n => insertIndexed n (k, v) (indexed o')
      | None => indexed o'
      end
  end.

Definition named (o : Object) : list (string * string) :=
  filter (fun p => match arrayIndex (fst p) with Some _ => false | None => true end) o.

(** The order in which the own properties are enumerated: array
    indices ascending, then the other keys in creation order. *)
Definition ownEntries (o : Object) : list (string * string) :=
  (map snd (indexed o) ++ named o)%list.

Definition hex (n : N) : ascii :=
  match String.get (N.to_nat n) "0123456789abcdef" with
  | Some c => c
  | None => "0"%char
  end.

Definition backslash : ascii := ascii_of_N 92.

(** One character of a quoted JSON string. *)
Definition escape (c : ascii) : string :=
  let n := N_of_ascii c in
  if n =? 34 then String backslash (String dq EmptyString)
  else if n =? 92 then String backslash (String backslash EmptyString)
  else if n =? 8 then String backslash "b"
  else if n =? 12 then String backslash "f"
  else if n =? 10 then String backslash "n"
  else if n =? 13 then String backslash "r"
  else if n =? 9 then String backslash "t"
  else if n <? 32 then
    String backslash ("u00" ++ String (hex (n / 16)) (String (hex (n mod 16)) EmptyString))
  else String c EmptyString.

Fixpoint escapeAll (s : string) : string :=
  match s with
  | EmptyString => EmptyString
  | String c s' => escape c ++ escapeAll s'
  end.

Definition quote (s : string) : string := lit (escapeAll s).

Fixpoint join (sep : string) (l : list string) : string :=
  match l with
  | [] => EmptyString
  | [x] => x
  | x :: l' => x ++ sep ++ join sep l'
  end.

(** [JSON.stringify(o)] for an object whose values are strings. *)
Definition stringifyObject (o : Object) : string :=
  "{" ++ join "," (map (fun p => quote (fst p) ++ ":" ++ snd p) o) ++ "}".

(** [JSON.stringify({ data: data })]. *)
Definition stringify (data : Object) : string :=
  "{" ++ quote "data" ++ ":"
      ++ stringifyObject (map (fun p => (fst p, quote (snd p))) (ownEntries data))
      ++ "}".

End JSON.

(* ================================================================= *)
(** ** [commands.js] *)

Module Commands.

Import JS.
Local Open Scope string_scope.

Definition newline : ascii := ascii_of_N 10.
Definition nl : string := String newline EmptyString.

(** What [child_process.spawnSync] returns. *)
Inductive SpawnError : Type :=
| ENOENT
| OtherError (description : string).

Record SpawnResult : Type := mkSpawnResult {
  error : option SpawnError;
  status : option Z;
  stdout : string;
  stderr : string
}.

Inductive Exception : Type :=
| ExitError (exitCode : Z)
| TypeError (message : string)
| Error (message : string).

(** The observable effects of a run: the argument lists [kubectl] was
    spawned with, and the chunks written to the two output streams. *)
Record World : Type := mkWorld {
  invocations : list (list string);
  out : list string;
  err : list string
}.

Definition initially : World := mkWorld [] [] [].

Inductive Result (A : Type) : Type :=
| Ok (a : A)
| Throw (e : Exception).
Arguments Ok {A} a.
Arguments Throw {A} e.

(** Synchronous code: it changes the world, and returns or throws. *)
Definition M (A : Type) : Type := World -> Result A * World.

Definition ret {A : Type} (a : A) : M A := fun w => (Ok a, w).

Definition throw {A : Type} (e : Exception) : M A := fun w => (Throw e, w).

Definition bind {A B : Type} (m : M A) (f : A -> M B) : M B :=
  fun w =>
    match m w with
    | (Ok a, w') => f a w'
    | (Throw e, w') => (Throw e, w')
    end.

Notation "x <- m ;; k" := (bind m (fun x => k))
  (at level 61, m at next level, right associativity).
Notation "m ;;; k" := (bind m (fun _ => k))
  (at level 61, right associativity).

Definition stdout_write (chunk : string) : M unit :=
  fun w => (Ok tt, mkWorld (invocations w) (out w ++ [chunk])%list (err w)).

Definition stderr_write (chunk : string) : M unit :=
  fun w => (Ok tt, mkWorld (invocations w) (out w) (err w ++ [chunk])%list).

Definition console_log (s : string) : M unit := stdout_write (s ++ nl).

Definition console_error (s : string) : M unit := stderr_write (s ++ nl).

(** Truth value of a string that may be [undefined]. *)
Definition truthy (s : option string) : bool :=
  match s with
  | Some s => negb (String.eqb s EmptyString)
  | None => false
  end.

(** A value to display: a string, or the buffer it decodes to. *)
Inductive DisplayValue : Type :=
| Str (s : string)
| Buf (b : Buffer.Buffer).

(** [!value] for what [valuesByKey.get(key)] returns: true of
    [undefined] and of the empty string; an object is never falsy. *)
Definition falsy (v : option DisplayValue) : bool :=
  match v with
  | None => true
  | Some (Str s) => String.eqb s EmptyString
  | Some (Buf _) => false
  end.

Definition chunk (v : DisplayValue) : string :=
  match v with
  | Str s => s
  | Buf b => Buffer.toString_utf8 b
  end.

Section Kubectl.

(** The external tool: what spawning it with some arguments gives,
    after the invocations made so far. *)
Variable kubectl : list (list string) -> list string -> SpawnResult.

Definition binary : string := "kubectl".

Definition spawnSync (args : list string) : M SpawnResult :=
  fun w =>
    (Ok (kubectl (invocations w) args),
     mkWorld (invocations w ++ [args])%list (out w) (err w)).

Definition runKubectlOrExit (args : list string) (errorMessage : option string) : M string :=
  spawnResult <- spawnSync args ;;
  let failed (commandError : string) : M string :=
    stderr_write commandError ;;;
    (if truthy errorMessage
     then console_error (match errorMessage with Some m => m | None => EmptyString end)
     else ret tt) ;;;
    throw (ExitError 1) in
  match error spawnResult with
  | Some ENOENT => failed ("Could not find `" ++ binary ++ "`. Is this installed?" ++ nl)
  | Some (OtherError e) =>
      failed ("Unknown error executing `" ++ binary ++ "`: " ++ e ++ nl)
  | None =>
      match status spawnResult with
      | Some 0%Z => ret (stdout spawnResult)
      | _ => failed (stderr spawnResult)
      end
  end.

Definition namespaceArgs (namespace : option string) : list string :=
  if truthy namespace
  then ["-n"; match namespace with Some n => n | None => EmptyString end]
  else [].

(** *** [getSecret] *)

Definition valueFormat : string :=
  "go-template={{range $key, $value := .data}}{{$key}}:{{$value}}" ++ nl ++ "{{end}}".

(** The lines of a dump: [split], then [slice] to drop the last piece. *)
Definition allLines (getSecretsResult : string) : list string :=
  let rawLines := split newline getSecretsResult in
  slice 0 (Z.of_nat (length rawLines) - 1) rawLines.

(** The callback of [allLines.map]: the entry of one line. *)
Definition entry (shouldDecode : bool) (line : string) : string * DisplayValue :=
  let colonIndex := indexOf ":" line in
  let key := substring 0 colonIndex line in
  let encodedValue := substringFrom (colonIndex + 1) line in
  let displayValue :=
    if shouldDecode then Buf (Buffer.from_base64 encodedValue) else Str encodedValue in
  (key, displayValue).

Definition notFound (key secretName : string) : string :=
  "Error: Key " ++ JSON.lit key ++ " not found in secret " ++ JSON.lit secretName ++ ".".

(** The callback of [keys.map], key after key: the entries of the
    requested keys, or the first failure. *)
Fixpoint requested (secretName : string) (valuesByKey : Map DisplayValue)
  (keys : list string) : M (list (string * DisplayValue)) :=
  match keys with
  | [] => ret []
  | key :: keys' =>
      let value := Map_get key valuesByKey in
      if falsy value then
        console_error (notFound key secretName) ;;;
        throw (ExitError 1)
      else
        match value with
        | Some v =>
            entries <- requested secretName valuesByKey keys' ;;
            ret ((key, v) :: entries)
        | None => throw (ExitError 1) (* not reached: [undefined] is falsy *)
        end
  end.

(** [process.stdout.write(displayValues.get(key))]; writing
    [undefined] is a type error. *)
Definition writeValue (displayValues : Map DisplayValue) (key : string) : M unit :=
  match Map_get key displayValues with
  | Some v => stdout_write (chunk v)
  | None => throw (TypeError "The chunk argument must be of type string or an instance of Buffer")
  end.

(** [orderedKeys.forEach((key, i) => ...)], from index [i] on. *)
Fixpoint display (quiet : bool) (displayValues : Map DisplayValue)
  (total : nat) (i : nat) (orderedKeys : list string) : M unit :=
  match orderedKeys with
  | [] => ret tt
  | key :: rest =>
      (if quiet then
         writeValue displayValues key ;;;
         (if (Z.of_nat i <? Z.of_nat total - 1)%Z then stdout_write nl else ret tt)
       else
         stdout_write (key ++ ": ") ;;;
         writeValue displayValues key ;;;
         stdout_write nl) ;;;
      display quiet displayValues total (S i) rest
  end.

(** [orderedKeys] and [keys] name one array: the keys pushed while the
    lines are mapped are seen through both names. *)
Definition getSecret (namespace : option string) (secretName : string)
  (keys : list string) (shouldDecode quiet : bool) : M unit :=
  let argsList :=
    (namespaceArgs namespace ++ ["get"; "secret"; secretName; "-o"; valueFormat])%list in
  getSecretsResult <- runKubectlOrExit argsList None ;;
  let keysProvided := (0 <? length keys)%nat in
  let entries := map (entry shouldDecode) (allLines getSecretsResult) in
  let orderedKeys := if keysProvided then keys else (keys ++ map fst entries)%list in
  let keys := orderedKeys in
  let valuesByKey := Map_new entries in
  displayValues <-
    (if (0 <? length keys)%nat
     then selected <- requested secretName valuesByKey keys ;; ret (Map_new selected)
     else ret valuesByKey) ;;
  (if keysProvided
   then (if quiet then ret tt else console_log ("Selected keys from " ++ secretName ++ " -"))
   else (if quiet then ret tt else console_log ("All keys from " ++ secretName ++ " -"))) ;;;
  display quiet displayValues (length orderedKeys) 0 orderedKeys.

(** *** [setSecret]

    The asynchronous part is a chain of promise callbacks over one
    [BetterPrompt].  A [Task] says where the chain stands. *)

Definition Pairs : Type := list (string * string).

Inductive Task : Type :=
| Reduce (pairs : Pairs) (keys : list string)
    (* the callback of [keys.reduce] for the next key is due; with no
       key left, the callback that patches the secret *)
| Await (w : nat) (key : string) (pairs : Pairs) (keys : list string)
    (* [getNextLine] returned a pending promise; resolver [w] is
       registered *)
| Then (key value : string) (pairs : Pairs) (keys : list string)
    (* the promise is fulfilled; [value => pairs.push([key, value])]
       is due *)
| Finally (outcome : Result unit)
    (* the chain is settled; the [finally] callback is due *)
| Settled (outcome : Result unit).

(** The variables of [setSecret] that its callbacks close over. *)
Record Closure : Type := mkClosure {
  namespace : option string;
  secretName : string;
  skipEncode : bool
}.

(** A running process.  [prompt] is [None] until a [BetterPrompt] is
    constructed: nothing listens to standard input before. *)
Record Process : Type := mkProcess {
  closure : Closure;
  world : World;
  prompt : option (BetterPrompt.t nat);
  task : Task
}.

Definition keyFormat : string :=
  "go-template={{range $key, $ignored := .data}}{{$key}}" ++ nl ++ "{{end}}".

Definition query (skipEncode : bool) (key : string) : string :=
  if skipEncode then "New encoded value for " ++ key ++ ": "
  else "New unencoded value for " ++ key ++ ": ".

(** [Buffer.from(value, 'utf-8').toString('base64')]. *)
Definition encodeValue (value : string) : string :=
  Buffer.toString_base64 (Buffer.from_utf8 value).

(** [pairs.forEach(([key, value]) => ...)] on [secret.data]. *)
Definition secretData (skipEncode : bool) (pairs : Pairs) : JSON.Object :=
  fold_left
    (fun data kv =>
       let value := if negb skipEncode then encodeValue (snd kv) else snd kv in
       JSON.assign (fst kv) value data)
    pairs [].

Definition patchArgs (namespace : option string) (secretName : string)
  (skipEncode : bool) (pairs : Pairs) : list string :=
  (namespaceArgs namespace
   ++ ["patch"; "secret"; secretName; "-p"; JSON.stringify (secretData skipEncode pairs)])%list.

(** The last callback of the chain. *)
Definition patch (namespace : option string) (secretName : string)
  (skipEncode : bool) (pairs : Pairs) : M unit :=
  runKubectlOrExit (patchArgs namespace secretName skipEncode pairs) None ;;;
  console_log (secretName ++ " updated.").

(** The synchronous start of [setSecret]: the keys to ask for, and a
    new [BetterPrompt] on the standard streams. *)
Definition setSecret (stdin_isTTY : bool) (namespace : option string)
  (secretName : string) (keys : list string) (skipEncode : bool) (w : World) : Process :=
  let env := mkClosure namespace secretName skipEncode in
  let listed : M (list string) :=
    if (length keys =? 0)%nat then
      getSecretsResult <-
        runKubectlOrExit
          (namespaceArgs namespace ++ ["get"; "secret"; secretName; "-o"; keyFormat])%list
          None ;;
      ret (allLines getSecretsResult)
    else ret keys in
  match listed w with
  | (Ok keys, w') =>
      mkProcess env w' (Some (BetterPrompt.constructor stdin_isTTY)) (Reduce [] keys)
  | (Throw e, w') => mkProcess env w' None (Settled (Throw e))
  end.

Inductive Event : Type :=
| Line (line : string)   (* readline emits a line *)
| Job                    (* the next promise callback runs *)
| End.                   (* the standard input ends *)

Definition onLine (line : string) (p : Process) : Process :=
  match prompt p with
  | Some bp =>
      if Readline.closed (BetterPrompt.readlineInterface bp) then p
      else
        match BetterPrompt.handleLine line bp with
        | (Some (w, value), bp') =>
            match task p with
            | Await w' key pairs keys =>
                if (w =? w')%nat
                then mkProcess (closure p) (world p) (Some bp') (Then key value pairs keys)
                else mkProcess (closure p) (world p) (Some bp') (task p)
            | _ => mkProcess (closure p) (world p) (Some bp') (task p)
            end
        | (None, bp') => mkProcess (closure p) (world p) (Some bp') (task p)
        end
  | None => p
  end.

Definition onJob (p : Process) : Process :=
  match task p, prompt p with
  | Reduce pairs [], _ =>
      let '(outcome, w') :=
        patch (namespace (closure p)) (secretName (closure p))
          (skipEncode (closure p)) pairs (world p) in
      mkProcess (closure p) w' (prompt p) (Finally outcome)
  | Reduce pairs (key :: keys), Some bp =>
      let w := length pairs in
      match BetterPrompt.getNextLine (query (skipEncode (closure p)) key) w bp with
      | (BetterPrompt.Rejected message, bp') =>
          mkProcess (closure p) (world p) (Some bp') (Finally (Throw (Error message)))
      | (BetterPrompt.Fulfilled value, bp') =>
          mkProcess (closure p) (world p) (Some bp') (Then key value pairs keys)
      | (BetterPrompt.Pending _, bp') =>
          mkProcess (closure p) (world p) (Some bp') (Await w key pairs keys)
      end
  | Then key value pairs keys, _ =>
      mkProcess (closure p) (world p) (prompt p) (Reduce (pairs ++ [(key, value)])%list keys)
  | Finally outcome, _ =>
      mkProcess (closure p) (world p) (option_map (@BetterPrompt.close nat) (prompt p)) (Settled outcome)
  | _, _ => p
  end.

(** The standard input ends: the readline interface closes itself,
    and emits no line afterwards.  (A last line that no newline ends
    is emitted before, as any other line.)  The callbacks that are
    due still run; a request that waits is left waiting. *)
Definition onEnd (p : Process) : Process :=
  match prompt p with
  | Some bp =>
      let rl := Readline.close (BetterPrompt.readlineInterface bp) in
      mkProcess (closure p) (world p)
        (Some (BetterPrompt.mk rl (BetterPrompt.linesQueue bp) (BetterPrompt.resolve bp)
                               (BetterPrompt.listenerResolve bp)))
        (task p)
  | None => p
  end.

(** One turn of the event loop. *)
Definition step (p : Process) (e : Event) : Process :=
  match e with
  | Line line => onLine line p
  | Job => onJob p
  | End => onEnd p
  end.

Definition run (events : list Event) (p : Process) : Process :=
  fold_left step events p.

(** *** [createSecret] *)

Definition createSecret (stdin_isTTY : bool) (namespace : option string)
  (secretName : string) (keys : list string) (encodeValues : bool) (w : World) : Process :=
  match runKubectlOrExit
          (namespaceArgs namespace ++ ["create"; "secret"; "generic"; secretName])%list
          None w with
  | (Ok _, w') =>
      if (0 <? length keys)%nat
      then setSecret stdin_isTTY namespace secretName keys encodeValues w'
      else mkProcess (mkClosure namespace secretName encodeValues) w' None (Settled (Ok tt))
  | (Throw e, w') =>
      mkProcess (mkClosure namespace secretName encodeValues) w' None (Settled (Throw e))
  end.

End Kubectl.

End Commands.

(* ================================================================= *)
(** ** [cli.js]: the dispatch *)

Module Cli.

Import Commands.
Local Open Scope string_scope.

(** The parsed arguments.  [name] is declared with [nargs: 1], a
    one-element array that is converted to its element wherever the
    program uses it; it is kept here as that element. *)
Record Args : Type := mkArgs {
  command : string;
  namespace : option string;
  name : string;
  key : list string;
  decode : bool;
  quiet : bool;
  encoded : bool
}.

Definition credentialsMessage : string :=
  nl ++ "Error validating `kubectl` credentials. See above for details.".

Section Kubectl.

Variable kubectl : list (list string) -> list string -> SpawnResult.

(** The promise chain of the script, up to the point where the
    command either has settled or waits for events. *)
Definition main (stdin_isTTY : bool) (args : Args) (w : World) : Process :=
  let env := mkClosure (namespace args) (name args) (encoded args) in
  match runKubectlOrExit kubectl ["version"] (Some credentialsMessage) w with
  | (Throw e, w') => mkProcess env w' None (Settled (Throw e))
  | (Ok _, w') =>
      if String.eqb (command args) "get" then
        let '(outcome, w'') :=
          getSecret kubectl (namespace args) (name args) (key args)
            (decode args) (quiet args) w' in
        mkProcess env w'' None (Settled outcome)
      else if String.eqb (command args) "set" then
        setSecret kubectl stdin_isTTY (namespace args) (name args) (key args)
          (encoded args) w'
      else if String.eqb (command args) "create" then
        createSecret kubectl stdin_isTTY (namespace args) (name args) (key args)
          (encoded args) w'
      else
        mkProcess env w' None
          (Settled (Throw (Error "programming error - unhandled command")))
  end.

(** How the script ends once the chain is settled: the [catch]
    handler exits with the code of an [ExitError] and throws anything
    else again.  There is no ending while the chain is not settled;
    a chain that still waits for a line when the input has ended is
    never settled, and the process then stops with nothing left to
    do. *)
Inductive Ending : Type :=
| Completed
| Exited (exitCode : Z)
| Uncaught (e : Exception).

Definition ending (p : Process) : option Ending :=
  match task p with
  | Settled (Ok _) => Some Completed
  | Settled (Throw (ExitError exitCode)) => Some (Exited exitCode)
  | Settled (Throw e) => Some (Uncaught e)
  | _ => None
  end.

End Kubectl.

End Cli.

(* ================================================================= *)
(** ** Vocabulary of the statements *)

Unset Implicit Arguments.

Module Statements.

Import Commands.
Local Open Scope string_scope.

(** [occurs c s]: the character [c] occurs in [s]. *)
Fixpoint occurs (c : ascii) (s : string) : bool :=
  match s with
  | EmptyString => false
  | String d s' => Ascii.eqb d c || occurs c s'
  end.

(** The record of a pair, and a dump: each record followed by a
    newline. *)
Definition record (kv : string * string) : string := fst kv ++ ":" ++ snd kv.

Fixpoint dump (records : list string) : string :=
  match records with
  | [] => EmptyString
  | r :: records' => r ++ nl ++ dump records'
  end.

(** A key holds neither a colon nor a newline, a value no newline. *)
Definition wellFormed (kv : string * string) : Prop :=
  occurs ":" (fst kv) = false /\ occurs newline (fst kv) = false
  /\ occurs newline (snd kv) = false.

(** What is displayed for an encoded value. *)
Definition displayOf (shouldDecode : bool) (encodedValue : string) : DisplayValue :=
  if shouldDecode then Buf (Buffer.from_base64 encodedValue) else Str encodedValue.

(** The arguments [getSecret] gives the tool. *)
Definition getArgs (namespace : option string) (secretName : string) : list string :=
  (namespaceArgs namespace ++ ["get"; "secret"; secretName; "-o"; valueFormat])%list.

(** The value a key has in a map, for a key that has one. *)
Definition valueOf (m : JS.Map DisplayValue) (key : string) : DisplayValue :=
  match JS.Map_get key m with
  | Some v => v
  | None => Str EmptyString
  end.

(** What [getSecret] writes for the keys [keys], from index [i], when
    it displays the values of the map [m]. *)
Definition shown (m : JS.Map DisplayValue) (key : string) : string :=
  match JS.Map_get key m with
  | Some v => chunk v
  | None => EmptyString
  end.

Fixpoint listing (quiet : bool) (m : JS.Map DisplayValue) (total i : nat)
  (keys : list string) : list string :=
  match keys with
  | [] => []
  | key :: rest =>
      ((if quiet
        then shown m key :: (if (Z.of_nat i <? Z.of_nat total - 1)%Z then [nl] else [])
        else [(key ++ ": ")%string; shown m key; nl])
       ++ listing quiet m total (S i) rest)%list
  end.

Definition heading (quiet keysProvided : bool) (secretName : string) : list string :=
  if quiet then []
  else if keysProvided then ["Selected keys from " ++ secretName ++ " -" ++ nl]
  else ["All keys from " ++ secretName ++ " -" ++ nl].

(** The tool ran and exited with status 0. *)
Definition succeeds (r : SpawnResult) : Prop :=
  error r = None /\ status r = Some 0%Z.

(** A tool that always succeeds, with the given output. *)
Definition answering (output : string) : list (list string) -> list string -> SpawnResult :=
  fun _ _ => mkSpawnResult None (Some 0%Z) output EmptyString.

(** *** The promise chain of [setSecret] *)

(** The lines of a schedule, in the order of their events: those
    that arrive while the input is open. *)
Fixpoint lines (events : list Event) : list string :=
  match events with
  | [] => []
  | Line line :: events' => line :: lines events'
  | Job :: events' => lines events'
  | End :: _ => []
  end.

(** The input has ended in the course of a schedule. *)
Fixpoint ended (events : list Event) : bool :=
  match events with
  | [] => false
  | End :: _ => true
  | _ :: events' => ended events'
  end.

(** Where a chain that asks for the keys [ks], started in world [w0],
    stands after the lines [delivered]: the keys are asked in order,
    the values are the delivered lines in order, the lines not yet
    consumed wait in the queue, and the tool is not invoked before
    the last callback.  [over] says whether the input has ended: the
    interface is closed from then on, and by the [finally] callback
    otherwise. *)
Definition standing (kubectl : list (list string) -> list string -> SpawnResult)
  (env : Closure) (ks : list string) (w0 : World) (over : bool)
  (delivered : list string) (p : Process) : Prop :=
  closure p = env /\
  exists bp,
    prompt p = Some bp /\ BetterPrompt.listenerResolve bp = None /\
    let isClosed := Readline.closed (BetterPrompt.readlineInterface bp) in
    let queue := BetterPrompt.linesQueue bp in
    match task p with
    | Reduce pairs keys =>
        world p = w0 /\ isClosed = over /\ BetterPrompt.resolve bp = None
        /\ (map fst pairs ++ keys)%list = ks
        /\ (map snd pairs ++ queue)%list = delivered
    | Await t key pairs keys =>
        world p = w0 /\ isClosed = over /\ BetterPrompt.resolve bp = Some t
        /\ queue = []
        /\ (map fst pairs ++ key :: keys)%list = ks
        /\ map snd pairs = delivered
    | Then key value pairs keys =>
        world p = w0 /\ isClosed = over /\ BetterPrompt.resolve bp = None
        /\ (map fst pairs ++ key :: keys)%list = ks
        /\ (map snd pairs ++ value :: queue)%list = delivered
    | Finally outcome =>
        isClosed = over /\ BetterPrompt.resolve bp = None
        /\ exists pairs,
             map fst pairs = ks
             /\ (map snd pairs ++ queue)%list = delivered
             /\ patch kubectl (namespace env) (secretName env) (skipEncode env) pairs w0
                = (outcome, world p)
    | Settled outcome =>
        isClosed = true
        /\ exists pairs rest,
             map fst pairs = ks
             /\ (map snd pairs ++ rest)%list = delivered
             /\ patch kubectl (namespace env) (secretName env) (skipEncode env) pairs w0
                = (outcome, world p)
    end.

(** The number of callbacks still due when all lines are there. *)
Definition due (p : Process) : nat :=
  match task p with
  | Reduce _ keys => 2 * length keys + 2
  | Await _ _ _ keys => 2 * length keys + 4
  | Then _ _ _ keys => 2 * length keys + 3
  | Finally _ => 1
  | Settled _ => 0
  end.

(** The payload of the patch that sets [a] to [1] and [b] to [2]. *)
Definition payload : string :=
  "{" ++ JSON.lit "data" ++ ":{"
      ++ JSON.lit "a" ++ ":" ++ JSON.lit "MQ==" ++ ","
      ++ JSON.lit "b" ++ ":" ++ JSON.lit "Mg==" ++ "}}".

(** The verb of an invocation: its first argument after the namespace
    option. *)
Definition verb (args : list string) : option string :=
  match args with
  | flag :: rest =>
      if String.eqb flag "-n" then
        match rest with
        | _ :: v :: _ => Some v
        | _ => None
        end
      else Some flag
  | [] => None
  end.

Definition createArgs (namespace : option string) (secretName : string) : list string :=
  (namespaceArgs namespace ++ ["create"; "secret"; "generic"; secretName])%list.

(** The check of one row of the digit table: the digit of [n] reads
    back as [n] and is not the padding character. *)
Definition digit_checked (n : N) : bool :=
  match Buffer.unbase64 (Buffer.digit n) with
  | Some m => (m =? n)%N && negb (Ascii.eqb (Buffer.digit n) "=")
  | None => false
  end.

(** A string of ASCII characters. *)
Fixpoint plain (s : string) : bool :=
  match s with
  | EmptyString => true
  | String c s' => (N_of_ascii c <? 128)%N && plain s'
  end.

End Statements.

(* ================================================================= *)
(** ** Further vocabulary: what a run lets one observe *)

Module Observations.

Import Commands.
Local Open Scope string_scope.

Section Calls.

Variable W : Type.

(** The lines handed out by a sequence of calls, in order: to a
    waiting resolver, or as the value of a fulfilled request. *)
Fixpoint handed (os : list (BetterPrompt.observation W)) : list string :=
  match os with
  | [] => []
  | BetterPrompt.Fired _ line :: os' => line :: handed os'
  | BetterPrompt.Returned (BetterPrompt.Fulfilled line) :: os' => line :: handed os'
  | _ :: os' => handed os'
  end.

(** The lines that the calls deliver, and the prompts they pass. *)
Fixpoint arrived (cs : list (BetterPrompt.call W)) : list string :=
  match cs with
  | [] => []
  | BetterPrompt.HandleLine line :: cs' => line :: arrived cs'
  | BetterPrompt.GetNextLine _ _ :: cs' => arrived cs'
  end.

Fixpoint prompts (cs : list (BetterPrompt.call W)) : list string :=
  match cs with
  | [] => []
  | BetterPrompt.HandleLine _ :: cs' => prompts cs'
  | BetterPrompt.GetNextLine p _ :: cs' => p :: prompts cs'
  end.

End Calls.

Arguments handed {W} os.
Arguments arrived {W} cs.
Arguments prompts {W} cs.

(** The keys for which a chain has asked so far. *)
Definition asked (ks : list string) (t : Task) : list string :=
  match t with
  | Reduce pairs _ => map fst pairs
  | Await _ key pairs _ => (map fst pairs ++ [key])%list
  | Then key _ pairs _ => (map fst pairs ++ [key])%list
  | Finally _ => ks
  | Settled _ => ks
  end.

(** A chain at its start: a new line buffer, no pair yet, the keys
    [ks] to ask for. *)
Definition chainStart (env : Closure) (ks : list string) (w : World) (tty : bool)
  : Process :=
  mkProcess env w (Some (BetterPrompt.constructor tty)) (Reduce [] ks).

(** The prompts of a chain are those of the keys asked so far, in a
    terminal, and none otherwise. *)
Definition prompted (tty : bool) (ks : list string) (p : Process) : Prop :=
  exists bp,
    prompt p = Some bp
    /\ BetterPrompt.listenerResolve bp = None
    /\ Readline.output (BetterPrompt.readlineInterface bp) = tty
    /\ Readline.displayed (BetterPrompt.readlineInterface bp)
       = (if tty then map (query (skipEncode (closure p))) (asked ks (task p)) else [])
    /\ match task p with
       | Reduce pairs keys => (map fst pairs ++ keys)%list = ks
       | Await _ key pairs keys => (map fst pairs ++ key :: keys)%list = ks
       | Then key _ pairs keys => (map fst pairs ++ key :: keys)%list = ks
       | _ => True
       end.

(** The script is still running, has completed, or has exited with
    code 1. *)
Definition endsWell (p : Process) : Prop :=
  Cli.ending p = None \/ Cli.ending p = Some Cli.Completed
  \/ Cli.ending p = Some (Cli.Exited 1).

(** The line that confirms an update. *)
Definition confirmation (secretName : string) : string :=
  secretName ++ " updated." ++ nl.

(** The line of the credentials message on the standard error. *)
Definition credentialsLine : string := Cli.credentialsMessage ++ nl.

(** The value that is sent for a typed value. *)
Definition sent (skipEncode : bool) (value : string) : string :=
  if negb skipEncode then encodeValue value else value.

(** The arguments [setSecret] gives the tool to list the keys. *)
Definition keyArgs (namespace : option string) (secretName : string) : list string :=
  (namespaceArgs namespace ++ ["get"; "secret"; secretName; "-o"; keyFormat])%list.

(** An ordinary key of an object: not [__proto__], not an array
    index. *)
Definition ordinary (key : string) : bool :=
  negb (String.eqb key "__proto__")
  && match JSON.arrayIndex key with Some _ => false | None => true end.

(** The line written for the optional message of
    [runKubectlOrExit]. *)
Definition note (errorMessage : option string) : list string :=
  match errorMessage with
  | Some m => if truthy errorMessage then [m ++ nl] else []
  | None => []
  end.

(** All chunks of a stream, as one text. *)
Definition text (chunks : list string) : string := fold_right append EmptyString chunks.

End Observations.

(* ================================================================= *)
(** ** [cli.js]: class [BetterCommandArgumentParser] *)

Module Parser.

Import Commands.
Local Open Scope string_scope.

(** [s.indexOf(searchString)]: the first position where the search
    string starts; [-1] when there is none. *)
Fixpoint indexOfString (searchString s : string) : Z :=
  if String.prefix searchString s then 0%Z
  else match s with
       | EmptyString => (-1)%Z
       | String _ s' =>
           let i := indexOfString searchString s' in
           if (i <? 0)%Z then (-1)%Z else (i + 1)%Z
       end.

(** The replacement text of [s.replace(pattern, replacement)] for a
    string pattern, which captures nothing: [$$] is a dollar sign,
    [$&] the match, [$`] the text before it, [$'] the text after
    it; any other dollar sign stands for itself. *)
Fixpoint substitution (matched before after replacement : string) : string :=
  match replacement with
  | EmptyString => EmptyString
  | String c rest =>
      if Ascii.eqb c "$" then
        match rest with
        | String d rest' =>
            if Ascii.eqb d "$" then String "$" (substitution matched before after rest')
            else if Ascii.eqb d "&" then matched ++ substitution matched before after rest'
            else if Ascii.eqb d "`" then before ++ substitution matched before after rest'
            else if Ascii.eqb d "'" then after ++ substitution matched before after rest'
            else String c (substitution matched before after rest)
        | EmptyString => String c EmptyString
        end
      else String c (substitution matched before after rest)
  end.

(** [s.replace(pattern, replacement)] for a string pattern: the first
    occurrence is replaced. *)
Definition replace (pattern replacement s : string) : string :=
  let i := indexOfString pattern s in
  if (i <? 0)%Z then s
  else
    let before := JS.substring 0 i s in
    let after := JS.substringFrom (i + Z.of_nat (String.length pattern)) s in
    before ++ substitution pattern before after replacement ++ after.

Definition toReplace : string := "too few arguments".

(** [exit(status, message)]: the arguments that the method passes on
    to [super.exit]. *)
Definition exit (replacementMessage : string) (status : Z) (message : option string)
  : Z * option string :=
  match message with
  | Some m =>
      if truthy message && (0 <=? indexOfString toReplace m)%Z
      then (status, Some (replace toReplace replacementMessage m))
      else (status, message)
  | None => (status, message)
  end.

(** The replacement messages of the two parsers of the script. *)
Definition missingCommand : string :=
  "Missing " ++ JSON.lit "command" ++ " argument, (choose from [get, set, create])".

Definition missingName : string := "Missing " ++ JSON.lit "name" ++ " argument".

End Parser.

(* ================================================================= *)
(** * The line buffer *)

Module LineBuffer.

Import BetterPrompt.

Section Facts.

Variable W : Type.

Lemma perform_app (cs1 cs2 : list (call W)) (this : t W) :
  performAll (cs1 ++ cs2) this =
  let '(os1, this1) := performAll cs1 this in
  let '(os2, this2) := performAll cs2 this1 in
  (os1 ++ os2, this2).
Proof.
  revert this; induction cs1 as [|c cs1 IH]; intros this; simpl.
  - destruct (performAll cs2 this); reflexivity.
  - destruct (perform c this) as [o this1].
    rewrite IH.
    destruct (performAll cs1 this1) as [os1 this2].
    destruct (performAll cs2 this2); reflexivity.
Qed.

(** No call assigns [listenerResolve]. *)
Lemma perform_listenerResolve (c : call W) (this : t W) :
  listenerResolve (snd (perform c this)) = listenerResolve this.
Proof.
  destruct c as [line|p fresh]; unfold perform, handleLine, getNextLine.
  - destruct (resolve this); reflexivity.
  - destruct (listenerResolve this) eqn:E; simpl; trivial.
    destruct (linesQueue this); simpl; auto.
Qed.

Lemma performAll_listenerResolve (cs : list (call W)) (this : t W) :
  listenerResolve (snd (performAll cs this)) = listenerResolve this.
Proof.
  revert this; induction cs as [|c cs IH]; intros this; simpl; trivial.
  pose proof (perform_listenerResolve c this) as Hc.
  destruct (perform c this) as [o this1]; simpl in Hc.
  specialize (IH this1).
  destruct (performAll cs this1) as [os this2]; simpl in *; congruence.
Qed.

Lemma perform_keeps_exclusion (c : call W) (this : t W) :
  queue_excludes_waiter this -> queue_excludes_waiter (snd (perform c this)).
Proof.
  unfold queue_excludes_waiter.
  destruct c as [line|p fresh]; unfold perform, handleLine, getNextLine; intros H.
  - destruct (resolve this) eqn:E; simpl; right; reflexivity.
  - destruct (listenerResolve this); simpl; trivial.
    destruct (linesQueue this) eqn:E; simpl.
    + left; reflexivity.
    + right. destruct H as [H|H]; [discriminate|assumption].
Qed.

Lemma performAll_keeps_exclusion (cs : list (call W)) (this : t W) :
  queue_excludes_waiter this -> queue_excludes_waiter (snd (performAll cs this)).
Proof.
  revert this; induction cs as [|c cs IH]; intros this H; simpl; trivial.
  pose proof (perform_keeps_exclusion c this H) as Hc.
  destruct (perform c this) as [o this1]; simpl in Hc.
  specialize (IH this1 Hc).
  destruct (performAll cs this1) as [os this2]; assumption.
Qed.

(** Lines that arrive while nothing waits are appended to the queue. *)
Lemma deliver_queues (lines : list string) (this : t W) :
  resolve this = None ->
  performAll (deliver W lines) this =
  (map (fun _ => Queued) lines,
   mk (readlineInterface this) (linesQueue this ++ lines) None (listenerResolve this)).
Proof.
  revert this; induction lines as [|l lines IH]; intros this H; simpl.
  - rewrite app_nil_r. destruct this; simpl in *; subst; reflexivity.
  - unfold handleLine. rewrite H. rewrite IH by reflexivity. simpl.
    rewrite <- app_assoc. reflexivity.
Qed.

(** Requests made while the queue is long enough are fulfilled from
    its front, one line each. *)
Lemma requests_dequeue (reqs : list (string * W)) (this : t W) :
  listenerResolve this = None ->
  length reqs <= length (linesQueue this) ->
  exists rl,
    performAll (requests reqs) this =
    (map (fun l => Returned (Fulfilled l)) (firstn (length reqs) (linesQueue this)),
     mk rl (skipn (length reqs) (linesQueue this)) (resolve this) None).
Proof.
  revert this; induction reqs as [|[p w] reqs IH]; intros this HL Hlen; simpl.
  - exists (readlineInterface this). destruct this; simpl in *; subst; reflexivity.
  - unfold getNextLine. rewrite HL.
    destruct (linesQueue this) as [|l q] eqn:E; simpl in Hlen; [lia|].
    match goal with |- context [performAll _ ?s] => destruct (IH s) as [rl Hrl] end;
      [reflexivity | simpl; lia |].
    rewrite Hrl. simpl. exists rl. reflexivity.
Qed.

(** Once a resolver has left the [resolve] field it is never fired:
    only the registered resolver, or one registered by a later call,
    can be. *)
Lemma fired_was_registered (cs : list (call W)) (this : t W) (w : W) (line : string) :
  In (Fired w line) (fst (performAll cs this)) ->
  resolve this = Some w \/ exists p, In (GetNextLine p w) cs.
Proof.
  revert this; induction cs as [|c cs IH]; intros this; simpl; [tauto|].
  destruct (perform c this) as [o this1] eqn:Ec.
  specialize (IH this1).
  destruct (performAll cs this1) as [os this2]; simpl in *.
  intros [Ho|Hin].
  - subst o. destruct c as [l|p fresh]; simpl in Ec.
    + unfold handleLine in Ec. destruct (resolve this) as [w0|] eqn:Er.
      * inversion Ec; subst. left; reflexivity.
      * inversion Ec.
    + destruct (getNextLine p fresh this); inversion Ec.
  - destruct (IH Hin) as [Hr|[p Hp]].
    + destruct c as [l|p fresh]; simpl in Ec.
      * unfold handleLine in Ec. destruct (resolve this) eqn:Er;
          inversion Ec; subst; simpl in Hr; [discriminate|].
        left; congruence.
      * unfold getNextLine in Ec.
        destruct (listenerResolve this); [inversion Ec; subst; left; assumption|].
        destruct (linesQueue this); inversion Ec; subst; simpl in Hr.
        -- inversion Hr; subst. right; exists p; left; reflexivity.
        -- left; assumption.
    + right; exists p; right; assumption.
Qed.

(** In every instance the constructor builds, and after any calls,
    [getNextLine] finds [listenerResolve] undefined: it does not
    reject. *)
Lemma getNextLine_does_not_reject (tty : bool) (cs : list (call W))
  (p : string) (fresh : W) (message : string) :
  fst (getNextLine p fresh (snd (performAll cs (constructor tty)))) <> Rejected message.
Proof.
  pose proof (performAll_listenerResolve cs (constructor tty)) as H.
  simpl in H. unfold getNextLine. rewrite H.
  destruct (linesQueue _); simpl; discriminate.
Qed.

(** A request made while resolver [w] is registered replaces [w]; no
    later line reaches [w]. *)
Lemma replaced_waiter_is_never_fired (tty : bool) (before after : list (call W))
  (w fresh : W) (p line : string) :
  let this := snd (performAll before (constructor tty)) in
  resolve this = Some w ->
  fresh <> w ->
  (forall q, ~ In (GetNextLine q w) after) ->
  getNextLine p fresh this =
    (Pending fresh, mk (Readline.prompt (Readline.setPrompt p (readlineInterface this)))
                       [] (Some fresh) None)
  /\ ~ In (Fired w line) (fst (performAll after (snd (getNextLine p fresh this)))).
Proof.
  intros this Hw Hfresh Hafter.
  pose proof (performAll_listenerResolve before (constructor tty)) as HL.
  assert (Hinv : queue_excludes_waiter this).
  { apply performAll_keeps_exclusion. left; reflexivity. }
  fold this in HL. simpl in HL.
  assert (Hq : linesQueue this = []).
  { destruct Hinv as [Hq|Hn]; [assumption|congruence]. }
  unfold getNextLine. rewrite HL, Hq. split; [reflexivity|].
  simpl. intros Hin.
  apply fired_was_registered in Hin. simpl in Hin.
  destruct Hin as [Heq|[q Hq']].
  - inversion Heq. contradiction.
  - exact (Hafter q Hq').
Qed.

(** What is observed after a call is observed of the calls as a
    whole. *)
Lemma observed_later (c : call W) (cs : list (call W)) (this : t W) (o : observation W) :
  In o (fst (performAll cs (snd (perform c this)))) ->
  In o (fst (performAll (c :: cs) this)).
Proof.
  cbn [performAll]. destruct (perform c this) as [o1 this1]. cbn [snd].
  destruct (performAll cs this1) as [os this2]. cbn [fst]. intros H. right. exact H.
Qed.

End Facts.

(** [C10] Whatever [handleLine] and [getNextLine] calls are made on a
    new line buffer, in whatever order, afterwards the queue is empty
    or no waiter is registered: the queue holds lines only while no
    waiter is registered, and a waiter is registered only while the
    queue is empty. *)
Theorem queue_holds_lines_only_without_waiter
  (W : Type) (tty : bool) (cs : list (call W)) :
  queue_excludes_waiter (snd (performAll cs (constructor tty))).
Proof.
  apply performAll_keeps_exclusion. left; reflexivity.
Qed.

(** [C5] When lines are delivered to a new line buffer before any
    request, the requests that follow, as long as there is one line
    per request, are each fulfilled at once (none is left pending),
    with the delivered lines in delivery order, and each takes its
    line off the queue. *)
Theorem queued_lines_are_served_in_arrival_order
  (W : Type) (tty : bool) (lines : list string) (reqs : list (string * W)) :
  length reqs <= length lines ->
  exists rl,
    performAll (deliver W lines ++ requests reqs) (constructor tty) =
    ((map (fun _ => Queued) lines
      ++ map (fun l => Returned (Fulfilled l)) (firstn (length reqs) lines)),
     mk rl (skipn (length reqs) lines) None None).
Proof.
  intros Hlen.
  rewrite perform_app.
  rewrite deliver_queues by reflexivity. simpl linesQueue.
  match goal with |- context [performAll (requests reqs) ?s] =>
    destruct (requests_dequeue W reqs s) as [rl Hrl]; [reflexivity | simpl; exact Hlen |]
  end.
  rewrite Hrl. simpl. exists rl. reflexivity.
Qed.

Lemma queued_lines_are_served_in_arrival_order_witness :
  2 <= 3 /\
  exists rl,
    performAll (deliver nat ["a"; "b"; "c"] ++ requests [("first: ", 0); ("second: ", 1)])
               (constructor false) =
    ([Queued; Queued; Queued; Returned (Fulfilled "a"); Returned (Fulfilled "b")],
     mk rl ["c"] None None).
Proof.
  split; [lia|].
  apply (queued_lines_are_served_in_arrival_order nat false ["a"; "b"; "c"]
           [("first: ", 0); ("second: ", 1)]).
  simpl; lia.
Defined.

(** What [handleLine] does for the request whose resolver is
    registered: it calls that resolver with exactly the line, removes
    it, and leaves the queue as it was.  After any calls on a new
    line buffer, a request that has to wait and the line that arrives
    next are observed as the request pending and then resolved with
    that line, the queue being empty before and after. *)
Lemma arriving_line_goes_to_the_waiter (W : Type) :
  (forall (this : t W) (w : W) (line : string),
     resolve this = Some w ->
     handleLine line this =
     (Some (w, line),
      mk (readlineInterface this) (linesQueue this) None (listenerResolve this)))
  /\ (forall (tty : bool) (cs : list (call W)) (p : string) (fresh : W) (line : string),
        let this := snd (performAll cs (constructor tty)) in
        linesQueue this = [] ->
        exists rl,
          performAll [GetNextLine p fresh; HandleLine line] this =
          ([Returned (Pending fresh); Fired fresh line], mk rl [] None None)).
Proof.
  split.
  - intros this w line H. unfold handleLine. rewrite H. reflexivity.
  - intros tty cs p fresh line this Hq.
    pose proof (performAll_listenerResolve W cs (constructor tty)) as HL.
    fold this in HL. simpl in HL.
    simpl. unfold getNextLine. rewrite HL, Hq. simpl.
    eexists. reflexivity.
Qed.

Lemma arriving_line_goes_to_the_waiter_witness :
  let this := snd (getNextLine "value: " 7 (constructor (W := nat) true)) in
  resolve this = Some 7 /\
  handleLine "secret" this =
  (Some (7, "secret"), mk (readlineInterface this) [] None None).
Proof.
  split; [reflexivity|].
  apply (proj1 (arriving_line_goes_to_the_waiter nat)
           (snd (getNextLine "value: " 7 (constructor (W := nat) true))) 7 "secret").
  reflexivity.
Defined.

(** [C6], as the code has it: a line that arrives while a request
    waits does not always reach it.  Two requests made one after the
    other on a new line buffer are both left waiting, the second in
    the place of the first, since the guard of [getNextLine] reads a
    property that is never set.  The line that
    arrives next goes to the second request and not to the first,
    which still waits; the line after that is queued, although the
    first request still waits; and no later line reaches the first
    request either. *)
Theorem line_misses_the_first_of_two_waiting_requests :
  let calls :=
    [GetNextLine "first: " 1; GetNextLine "second: " 2; HandleLine "x"; HandleLine "y"] in
  let this := snd (performAll calls (constructor (W := nat) false)) in
  fst (performAll calls (constructor (W := nat) false))
  = [Returned (Pending 1); Returned (Pending 2); Fired 2 "x"; Queued]
  /\ linesQueue this = ["y"]
  /\ resolve this = None
  /\ (forall (later : list (call nat)) (line : string),
        (forall q, ~ In (GetNextLine q 1) later) ->
        ~ In (Fired 1 line) (fst (performAll later this))).
Proof.
  cbv zeta. split; [reflexivity|]. split; [reflexivity|]. split; [reflexivity|].
  intros later line Hlater Hin.
  destruct (replaced_waiter_is_never_fired nat false [GetNextLine "first: " 1]
              (HandleLine "x" :: HandleLine "y" :: later) 1 2 "second: " line)
    as [_ N].
  - reflexivity.
  - discriminate.
  - intros q [H|[H|H]]; [discriminate H | discriminate H | exact (Hlater q H)].
  - apply N. apply observed_later, observed_later. exact Hin.
Qed.

(** [C1], as the code has it: a second [getNextLine] made while the
    first is still waiting is not rejected.  It registers its own
    resolver over the first one, the next line goes to the second
    request, and the first request is left without a resolver. *)
Theorem second_request_replaces_the_first :
  let this0 := constructor (W := nat) false in
  let '(first, this1) := getNextLine "first: " 1 this0 in
  let '(second, this2) := getNextLine "second: " 2 this1 in
  let '(fired, this3) := handleLine "x" this2 in
  first = Pending 1 /\ resolve this1 = Some 1 /\
  second = Pending 2 /\ resolve this2 = Some 2 /\
  fired = Some (2, "x") /\ resolve this3 = None /\ linesQueue this3 = [].
Proof.
  cbv. repeat split.
Qed.

End LineBuffer.

(* ================================================================= *)
(** * The value codec *)

Module Codec.

Import Buffer Statements.
Local Open Scope N_scope.

Ltac divmod := zify; Z.to_euclidean_division_equations; lia.

(** The sixty-four digits, by enumeration. *)
Lemma below_64 (P : N -> Prop) :
  Forall P (map N.of_nat (seq 0 64)) -> forall n, n < 64 -> P n.
Proof.
  intros H n Hn. rewrite Forall_forall in H. apply H.
  rewrite <- (N2Nat.id n). apply in_map. apply in_seq. lia.
Qed.

Lemma digit_table n : n < 64 -> digit_checked n = true.
Proof.
  revert n. apply below_64.
  apply Forall_forall. intros m Hm.
  assert (H : forallb digit_checked (map N.of_nat (seq 0 64)) = true) by (vm_compute; reflexivity).
  rewrite forallb_forall in H. exact (H m Hm).
Qed.

Lemma unbase64_digit n : n < 64 -> unbase64 (digit n) = Some n.
Proof.
  intros H. pose proof (digit_table n H) as T. unfold digit_checked in T.
  destruct (unbase64 (digit n)) as [m|]; [|discriminate].
  apply andb_true_iff in T. destruct T as [T _].
  apply N.eqb_eq in T. congruence.
Qed.

Lemma digit_not_padding n : n < 64 -> Ascii.eqb (digit n) "=" = false.
Proof.
  intros H. pose proof (digit_table n H) as T. unfold digit_checked in T.
  destruct (unbase64 (digit n)) as [m|]; [|discriminate].
  apply andb_true_iff in T. destruct T as [_ T].
  apply negb_true_iff in T. exact T.
Qed.

Lemma unbase64_bound c n : unbase64 c = Some n -> n < 64.
Proof.
  unfold unbase64. pose proof (N_ascii_bounded c) as B.
  repeat match goal with
         | |- (if ?b then _ else _) = _ -> _ => destruct b eqn:?
         end; intros E; inversion E; subst;
  repeat match goal with
         | H : _ && _ = true |- _ => apply andb_true_iff in H; destruct H
         | H : (_ <=? _) = true |- _ => apply N.leb_le in H
         end; lia.
Qed.

(** A character of the standard alphabet is the digit of its sextet,
    and is not the padding character. *)
Lemma standard_digit c :
  standard c = true ->
  exists n, n < 64 /\ c = digit n /\ unbase64 c = Some n /\ Ascii.eqb c "=" = false.
Proof.
  unfold standard. destruct (unbase64 c) as [n|] eqn:E; [|discriminate].
  intros H. apply Ascii.eqb_eq in H.
  pose proof (unbase64_bound c n E) as B.
  exists n. repeat split; auto.
  rewrite <- H. apply digit_not_padding; assumption.
Qed.

Lemma sextets_digit n s : n < 64 -> sextets (String (digit n) s) = n :: sextets s.
Proof.
  intros H. cbn [sextets]. rewrite (digit_not_padding n H), (unbase64_digit n H). reflexivity.
Qed.

Lemma sextets_padding s : sextets (String "=" s) = [].
Proof. reflexivity. Qed.

Lemma octet_to_N x : octet (Byte.to_N x) = x.
Proof.
  unfold octet. pose proof (Byte.to_N_bounded x) as B.
  rewrite N.mod_small by lia. rewrite Byte.of_to_N. reflexivity.
Qed.

Lemma to_N_octet n : n < 256 -> Byte.to_N (octet n) = n.
Proof.
  intros H. unfold octet. rewrite N.mod_small by assumption.
  destruct (Byte.of_N n) as [b|] eqn:E.
  - apply Byte.to_of_N. assumption.
  - apply Byte.of_N_None_iff in E. lia.
Qed.

Lemma byte_bound x : Byte.to_N x < 256.
Proof. pose proof (Byte.to_N_bounded x). lia. Qed.

(** Lists, three bytes at a time. *)
Lemma by_threes (A : Type) (P : list A -> Prop) :
  P [] -> (forall x, P [x]) -> (forall x y, P [x; y]) ->
  (forall x y z rest, P rest -> P (x :: y :: z :: rest)) ->
  forall l, P l.
Proof.
  intros H0 H1 H2 H3.
  assert (H : forall l, P l /\ (forall x, P (x :: l)) /\ (forall x y, P (x :: y :: l))).
  { induction l as [|a l [IH0 [IH1 IH2]]]; repeat split; auto. }
  intros l. apply H.
Qed.

(** Finds the byte that an [octet] expression stands for. *)
Ltac recover x :=
  match goal with
  | |- context [octet ?e] =>
      replace (octet e) with x by (rewrite <- (octet_to_N x) at 1; f_equal; divmod)
  end.

(** *** The decoder on ASCII text *)

Lemma codeUnits_plain (s : string) :
  plain s = true -> narrow (codeUnits s) = s.
Proof.
  induction s as [|c s IH]; [reflexivity|].
  cbn [plain]. intros H. apply andb_true_iff in H. destruct H as [Hc Hs].
  cbn [codeUnits]. rewrite Hc. unfold narrow in *. cbn [map string_of_list_ascii].
  rewrite (IH Hs).
  rewrite N.mod_small by (pose proof (N_ascii_bounded c); lia).
  rewrite ascii_N_embedding. reflexivity.
Qed.

Lemma digit_plain n : (N_of_ascii (digit n) <? 128) = true.
Proof.
  destruct (N.lt_ge_cases n 64) as [H|H].
  - revert n H. apply below_64. apply Forall_forall. intros m Hm.
    assert (T : forallb (fun k => N_of_ascii (digit k) <? 128) (map N.of_nat (seq 0 64)) = true)
      by (vm_compute; reflexivity).
    rewrite forallb_forall in T. exact (T m Hm).
  - unfold digit.
    replace (N.to_nat n) with (64 + (N.to_nat n - 64))%nat by lia.
    unfold alphabet. cbn [String.get Nat.add]. reflexivity.
Qed.

Lemma encoding_is_plain (b : Buffer) : plain (toString_base64 b) = true.
Proof.
  induction b as [|x|x y|x y z rest IH] using by_threes;
    cbn [toString_base64 plain]; rewrite ?digit_plain, ?IH; reflexivity.
Qed.

(** The decoder proper, on the characters as they are. *)
Lemma decode_encode_plain (b : Buffer) : octets (sextets (toString_base64 b)) = b.
Proof.
  induction b as [|x|x y|x y z rest IH] using by_threes.
  - reflexivity.
  - cbn [toString_base64].
    pose proof (byte_bound x).
    rewrite !sextets_digit, sextets_padding by divmod.
    cbn [octets]. recover x. reflexivity.
  - cbn [toString_base64].
    pose proof (byte_bound x). pose proof (byte_bound y).
    rewrite !sextets_digit, sextets_padding by divmod.
    cbn [octets]. recover x. recover y. reflexivity.
  - cbn [toString_base64].
    pose proof (byte_bound x). pose proof (byte_bound y). pose proof (byte_bound z).
    rewrite !sextets_digit by divmod.
    cbn [octets]. rewrite IH. recover x. recover y. recover z. reflexivity.
Qed.

Lemma decode_encode (b : Buffer) : from_base64 (toString_base64 b) = b.
Proof.
  unfold from_base64. rewrite codeUnits_plain by apply encoding_is_plain.
  apply decode_encode_plain.
Qed.

Lemma sextet_of c n : unbase64 c = Some n -> sextet c = n.
Proof. intros H. unfold sextet. rewrite H. reflexivity. Qed.

Lemma sextets_standard c n s :
  unbase64 c = Some n -> Ascii.eqb c "=" = false -> sextets (String c s) = n :: sextets s.
Proof. intros H E. cbn [sextets]. rewrite E, H. reflexivity. Qed.

Ltac standard_chars :=
  repeat match goal with
         | H : _ && _ = true |- _ => apply andb_true_iff in H; destruct H
         | H : standard ?c = true |- _ =>
             let n := fresh "n" in
             let B := fresh "B" in
             let D := fresh "D" in
             let U := fresh "U" in
             let E := fresh "E" in
             destruct (standard_digit _ H) as (n & B & D & U & E); clear H
         | H : (_ =? _) = true |- _ => apply N.eqb_eq in H
         end.

Ltac read_sextets :=
  repeat match goal with
         | U : unbase64 ?c = Some ?n, E : Ascii.eqb ?c "=" = false
           |- context [sextets (String ?c ?s)] =>
             rewrite (@sextets_standard c n s U E)
         | U : unbase64 ?c = Some ?n, H : context [sextet ?c] |- _ =>
             rewrite (@sextet_of c n U) in H
         end;
  rewrite ?sextets_padding.

Lemma encode_decode_bounded (n : nat) :
  forall s, (String.length s <= n)%nat ->
            valid_base64 s = true -> toString_base64 (octets (sextets s)) = s.
Proof.
  induction n as [|n IH]; intros s Hlen Hv.
  - destruct s; [reflexivity | simpl in Hlen; lia].
  - destruct s as [|c1 [|c2 [|c3 [|c4 rest]]]]; try reflexivity; try discriminate.
    cbn [valid_base64] in Hv.
    destruct (Ascii.eqb c4 "=") eqn:E4.
    + destruct rest; [|discriminate]. apply Ascii.eqb_eq in E4; subst c4.
      destruct (Ascii.eqb c3 "=") eqn:E3.
      * apply Ascii.eqb_eq in E3; subst c3. standard_chars. read_sextets.
        cbn [octets toString_base64]. rewrite to_N_octet by divmod.
        subst c1 c2. repeat f_equal; divmod.
      * standard_chars. read_sextets.
        cbn [octets toString_base64]. rewrite !to_N_octet by divmod.
        subst c1 c2 c3. repeat f_equal; divmod.
    + standard_chars. read_sextets.
      cbn [octets toString_base64]. rewrite !to_N_octet by divmod.
      rewrite IH; [| simpl in Hlen; lia | assumption].
      subst c1 c2 c3 c4. repeat f_equal; divmod.
Qed.

Lemma encode_decode_plain (s : string) :
  valid_base64 s = true -> toString_base64 (octets (sextets s)) = s.
Proof. apply (encode_decode_bounded (String.length s)). lia. Qed.

(** Valid base64 is ASCII text. *)
Lemma valid_is_plain (s : string) : valid_base64 s = true -> plain s = true.
Proof.
  intros H. rewrite <- (encode_decode_plain s H). apply encoding_is_plain.
Qed.

Lemma encode_decode (s : string) :
  valid_base64 s = true -> toString_base64 (from_base64 s) = s.
Proof.
  intros H. unfold from_base64. rewrite codeUnits_plain by (apply valid_is_plain; exact H).
  apply encode_decode_plain. exact H.
Qed.

(** The valid strings are the encodings. *)
Lemma encoding_is_valid (b : Buffer) : valid_base64 (toString_base64 b) = true.
Proof.
  induction b as [|x|x y|x y z rest IH] using by_threes.
  - reflexivity.
  - pose proof (byte_bound x).
    cbn [toString_base64 valid_base64]. cbn [Ascii.eqb Bool.eqb].
    unfold standard, sextet. rewrite !unbase64_digit by divmod.
    rewrite !Ascii.eqb_refl. simpl andb. apply N.eqb_eq. divmod.
  - pose proof (byte_bound x). pose proof (byte_bound y).
    cbn [toString_base64 valid_base64]. cbn [Ascii.eqb Bool.eqb].
    rewrite (digit_not_padding (Byte.to_N y mod 16 * 4)) by divmod.
    unfold standard, sextet. rewrite !unbase64_digit by divmod.
    rewrite !Ascii.eqb_refl. simpl andb. apply N.eqb_eq. divmod.
  - pose proof (byte_bound x). pose proof (byte_bound y). pose proof (byte_bound z).
    cbn [toString_base64 valid_base64].
    rewrite (digit_not_padding (Byte.to_N z mod 64)) by divmod.
    unfold standard. rewrite !unbase64_digit by divmod.
    rewrite !Ascii.eqb_refl. simpl andb. exact IH.
Qed.

Lemma valid_iff_encoding (s : string) :
  valid_base64 s = true <-> exists b, s = toString_base64 b.
Proof.
  split.
  - intros H. exists (from_base64 s). symmetry. apply encode_decode; assumption.
  - intros [b ->]. apply encoding_is_valid.
Qed.

(** [C8] The value codec round-trips.  Encoding what a valid base64
    string decodes to gives the string back, and decoding the
    encoding of a byte sequence gives the bytes back.  Valid means
    RFC 4648 base64 as an encoder writes it: whole groups of four
    characters of the standard alphabet, padded with [=], with zero
    bits under the padding. *)
Theorem codec_round_trips :
  (forall x : string,
     valid_base64 x = true -> toString_base64 (from_base64 x) = x)
  /\ (forall b : Buffer, from_base64 (toString_base64 b) = b)
  /\ (forall value : string,
        from_base64 (Commands.encodeValue value) = from_utf8 value).
Proof.
  split; [exact encode_decode|]. split; [exact decode_encode|].
  intros value. apply decode_encode.
Qed.

Lemma codec_round_trips_witness :
  valid_base64 "cXV1eA==" = true
  /\ toString_base64 (from_base64 "cXV1eA==") = "cXV1eA=="
  /\ from_base64 (toString_base64 (from_utf8 "quux")) = from_utf8 "quux".
Proof.
  split; [reflexivity|]. split.
  - apply (proj1 codec_round_trips "cXV1eA=="). reflexivity.
  - apply (proj1 (proj2 codec_round_trips) (from_utf8 "quux")).
Defined.

(** The decoder also reads strings that no encoder writes; those are
    not given back. *)
Example lenient_decoding :
  from_base64 "MR==" = from_utf8 "1" /\ toString_base64 (from_base64 "MR==") = "MQ=="
  /\ valid_base64 "MR==" = false.
Proof. repeat split. Qed.

(** A character that is not ASCII is read by the low byte of its code
    unit.  U+0141, the bytes [197 129] in UTF-8, is read as [A], whose
    code is 0x41; U+00E9, the bytes [195 169], has the low byte 0xE9,
    which is no digit, and is skipped.  U+20AC is one code unit,
    U+1F600 a pair of surrogates. *)
Example code_units_are_narrowed :
  codeUnits (String "197" (String "129" "Q==")) = [321; 81; 61; 61]
  /\ codeUnits (String "226" (String "130" (String "172" EmptyString))) = [8364]
  /\ codeUnits (String "240" (String "159" (String "152" (String "128" EmptyString))))
     = [55357; 56832]
  /\ from_base64 (String "197" (String "129" "Q==")) = from_base64 "AQ=="
  /\ from_base64 ("M" ++ String "195" (String "169" "Q==")) = from_base64 "MQ==".
Proof. repeat split. Qed.

End Codec.

(* ================================================================= *)
(** * Parsing the dump of a secret *)

Module Parsing.

Import JS Commands Statements.
Local Open Scope string_scope.

Lemma length_append (s t : string) :
  String.length (s ++ t) = String.length s + String.length t.
Proof. induction s as [|c s IH]; simpl; congruence. Qed.

Lemma append_assoc (s t u : string) : (s ++ t) ++ u = s ++ (t ++ u).
Proof. induction s as [|c s IH]; simpl; congruence. Qed.

Lemma split_nonempty (sep : ascii) (s : string) : split sep s <> [].
Proof.
  destruct s as [|c s]; simpl; [discriminate|].
  destruct (Ascii.eqb c sep); [discriminate|].
  destruct (split sep s); discriminate.
Qed.

(** A piece without the separator, then the separator: the piece is
    the first of the split. *)
Lemma split_piece (sep : ascii) (r rest : string) :
  occurs sep r = false ->
  split sep (r ++ String sep rest) = r :: split sep rest.
Proof.
  induction r as [|c r IH]; simpl; intros H.
  - rewrite Ascii.eqb_refl. reflexivity.
  - apply orb_false_iff in H. destruct H as [Hc Hr].
    rewrite Hc. rewrite IH by assumption. reflexivity.
Qed.

Lemma split_dump (records : list string) :
  Forall (fun r => occurs newline r = false) records ->
  split newline (dump records) = (records ++ [EmptyString])%list.
Proof.
  induction 1 as [|r records Hr _ IH]; [reflexivity|].
  cbn [dump]. unfold nl. cbn [append].
  rewrite split_piece by assumption. rewrite IH. reflexivity.
Qed.

Lemma slice_all_but_last (A : Type) (l : list A) (x : A) :
  slice 0 (Z.of_nat (length (l ++ [x])) - 1) (l ++ [x]) = l.
Proof.
  unfold slice, relative. rewrite length_app. simpl length.
  assert (E : (Z.of_nat (length l + 1) - 1 = Z.of_nat (length l))%Z) by lia.
  rewrite E. simpl (0 <? 0)%Z.
  destruct (Z.of_nat (length l) <? 0)%Z eqn:N; [apply Z.ltb_lt in N; lia|].
  replace (Z.min 0 (Z.of_nat (length l + 1))) with 0%Z by lia.
  replace (Z.min (Z.of_nat (length l)) (Z.of_nat (length l + 1)))
    with (Z.of_nat (length l)) by lia.
  rewrite Z.sub_0_r, Nat2Z.id. simpl skipn.
  rewrite firstn_app, firstn_all, Nat.sub_diag. simpl. apply app_nil_r.
Qed.

(** The lines of a dump are its records. *)
Lemma allLines_dump (records : list string) :
  Forall (fun r => occurs newline r = false) records ->
  allLines (dump records) = records.
Proof.
  intros H. unfold allLines. rewrite split_dump by assumption. apply slice_all_but_last.
Qed.

Lemma indexOf_first (c : ascii) (key value : string) :
  occurs c key = false ->
  indexOf c (key ++ String c value) = Z.of_nat (String.length key).
Proof.
  induction key as [|d key IH]; simpl String.length; simpl append; intros H.
  - simpl. rewrite Ascii.eqb_refl. reflexivity.
  - simpl in H. apply orb_false_iff in H. destruct H as [Hd Hk].
    cbn [indexOf]. rewrite Hd. rewrite IH by assumption.
    destruct (Z.of_nat (String.length key) <? 0)%Z eqn:N; [apply Z.ltb_lt in N; lia|].
    lia.
Qed.

Lemma substring_whole (s : string) : String.substring 0 (String.length s) s = s.
Proof. induction s as [|c s IH]; simpl; congruence. Qed.

Lemma substring_prefix (s t : string) :
  String.substring 0 (String.length s) (s ++ t) = s.
Proof.
  induction s as [|c s IH]; simpl.
  - destruct t; reflexivity.
  - congruence.
Qed.

Lemma substring_suffix (s t : string) :
  String.substring (String.length s) (String.length t) (s ++ t) = t.
Proof.
  induction s as [|c s IH]; simpl.
  - apply substring_whole.
  - exact IH.
Qed.

Lemma substring_key (key rest : string) :
  substring 0 (Z.of_nat (String.length key)) (key ++ rest) = key.
Proof.
  unfold substring, clamp. rewrite length_append.
  replace (Z.min (Z.min (Z.max 0 0) _) _) with 0%Z by lia.
  replace (Z.max (Z.min (Z.max 0 0) _) _ - 0)%Z with (Z.of_nat (String.length key)) by lia.
  rewrite Nat2Z.id. apply substring_prefix.
Qed.

Lemma substringFrom_value (key value : string) (c : ascii) :
  substringFrom (Z.of_nat (String.length key) + 1) (key ++ String c value) = value.
Proof.
  unfold substringFrom, substring, clamp. rewrite length_append. simpl String.length.
  set (k := String.length key). set (v := String.length value).
  replace (Z.min (Z.min (Z.max (Z.of_nat k + 1) 0) (Z.of_nat (k + S v)))
                 (Z.min (Z.max (Z.of_nat (k + S v)) 0) (Z.of_nat (k + S v))))
    with (Z.of_nat (S k)) by lia.
  replace (Z.max (Z.min (Z.max (Z.of_nat k + 1) 0) (Z.of_nat (k + S v)))
                 (Z.min (Z.max (Z.of_nat (k + S v)) 0) (Z.of_nat (k + S v)))
           - Z.of_nat (S k))%Z
    with (Z.of_nat v) by lia.
  rewrite !Nat2Z.id.
  change (key ++ String c value) with (key ++ (String c EmptyString ++ value)).
  rewrite <- append_assoc.
  replace (S k) with (String.length (key ++ String c EmptyString))
    by (rewrite length_append; simpl; unfold k; lia).
  apply substring_suffix.
Qed.

(** The entry of a record is its key, up to the first colon, and
    what is displayed for the rest. *)
Lemma entry_record (shouldDecode : bool) (key value : string) :
  occurs ":" key = false ->
  entry shouldDecode (record (key, value)) = (key, displayOf shouldDecode value).
Proof.
  intros H. unfold entry, record. simpl fst; simpl snd.
  change (key ++ ":" ++ value) with (key ++ String ":" value).
  rewrite indexOf_first by assumption. rewrite substring_key, substringFrom_value.
  reflexivity.
Qed.

Lemma occurs_append (c : ascii) (s t : string) :
  occurs c (s ++ t) = occurs c s || occurs c t.
Proof.
  induction s as [|d s IH]; simpl; [reflexivity|].
  rewrite IH. apply orb_assoc.
Qed.

Lemma record_on_one_line (kv : string * string) :
  wellFormed kv -> occurs newline (record kv) = false.
Proof.
  intros (_ & Hk & Hv). unfold record.
  rewrite !occurs_append, Hk, Hv. reflexivity.
Qed.

Lemma entries_of_dump (shouldDecode : bool) (kvs : list (string * string)) :
  Forall wellFormed kvs ->
  map (entry shouldDecode) (allLines (dump (map record kvs)))
  = map (fun kv => (fst kv, displayOf shouldDecode (snd kv))) kvs.
Proof.
  intros H. rewrite allLines_dump.
  - rewrite map_map. apply map_ext_in. intros [k v] Hin.
    rewrite Forall_forall in H. destruct (H _ Hin) as (Hc & _).
    apply entry_record; assumption.
  - apply Forall_map. eapply Forall_impl; [|exact H].
    intros kv. apply record_on_one_line.
Qed.

(** *** The map of the entries *)

Lemma Map_set_new (V : Type) (k : string) (v : V) (m : Map V) :
  ~ In k (map fst m) -> Map_set k v m = (m ++ [(k, v)])%list.
Proof.
  induction m as [|[k' v'] m IH]; simpl; intros H; [reflexivity|].
  destruct (String.eqb_spec k' k) as [->|N]; [tauto|].
  rewrite IH by tauto. reflexivity.
Qed.

Lemma Map_new_from (V : Type) (entries m : list (string * V)) :
  NoDup (map fst (m ++ entries)) ->
  fold_left (fun m kv => Map_set (fst kv) (snd kv) m) entries m = (m ++ entries)%list.
Proof.
  revert m; induction entries as [|[k v] entries IH]; intros m H; simpl.
  - symmetry; apply app_nil_r.
  - rewrite Map_set_new.
    + rewrite IH; rewrite <- app_assoc; [reflexivity | exact H].
    + rewrite map_app in H. simpl in H.
      apply NoDup_remove_2 in H. intros Hin. apply H. apply in_or_app. left; assumption.
Qed.

(** With distinct keys, the map holds the entries as they came. *)
Lemma Map_new_distinct (V : Type) (entries : list (string * V)) :
  NoDup (map fst entries) -> Map_new entries = entries.
Proof. intros H. unfold Map_new. rewrite Map_new_from; [reflexivity | exact H]. Qed.

(** [C4] Parsing a dump splits each newline-terminated record at its
    first colon into a key and an encoded value, in the order of the
    dump; the empty piece after the last newline is dropped; with
    distinct keys the map keeps that order.  The dump of
    [foo:YmFy] and [baz:cXV1eA==] gives the pairs [(foo, YmFy)] and
    [(baz, cXV1eA==)], in this order. *)
Theorem dump_is_parsed_in_order :
  (forall records : list string,
     Forall (fun r => occurs newline r = false) records ->
     split newline (dump records) = (records ++ [EmptyString])%list
     /\ allLines (dump records) = records)
  /\ (forall (shouldDecode : bool) (key value : string),
        occurs ":" key = false ->
        entry shouldDecode (key ++ ":" ++ value) = (key, displayOf shouldDecode value))
  /\ (forall (shouldDecode : bool) (kvs : list (string * string)),
        Forall wellFormed kvs ->
        map (entry shouldDecode) (allLines (dump (map record kvs)))
        = map (fun kv => (fst kv, displayOf shouldDecode (snd kv))) kvs)
  /\ (forall (shouldDecode : bool) (kvs : list (string * string)),
        Forall wellFormed kvs -> NoDup (map fst kvs) ->
        Map_new (map (entry shouldDecode) (allLines (dump (map record kvs))))
        = map (fun kv => (fst kv, displayOf shouldDecode (snd kv))) kvs)
  /\ map (entry false) (allLines ("foo:YmFy" ++ nl ++ "baz:cXV1eA==" ++ nl))
     = [("foo", Str "YmFy"); ("baz", Str "cXV1eA==")].
Proof.
  split; [|split; [|split; [|split]]].
  - intros records H. split; [apply split_dump | apply allLines_dump]; assumption.
  - intros d key value H. apply (entry_record d key value H).
  - intros d kvs H. apply entries_of_dump; assumption.
  - intros d kvs H N. rewrite entries_of_dump by assumption.
    apply Map_new_distinct. rewrite map_map. simpl. exact N.
  - reflexivity.
Qed.

Lemma dump_is_parsed_in_order_witness :
  Forall wellFormed [("user", "cm9vdA=="); ("pass", "aHVudGVyMg==")]
  /\ NoDup (map fst [("user", "cm9vdA=="); ("pass", "aHVudGVyMg==")])
  /\ Map_new (map (entry true)
                (allLines (dump (map record [("user", "cm9vdA=="); ("pass", "aHVudGVyMg==")]))))
     = [("user", Buf (Buffer.from_utf8 "root")); ("pass", Buf (Buffer.from_utf8 "hunter2"))].
Proof.
  assert (W : Forall wellFormed [("user", "cm9vdA=="); ("pass", "aHVudGVyMg==")]).
  { repeat constructor. }
  assert (N : NoDup (map fst [("user", "cm9vdA=="); ("pass", "aHVudGVyMg==")])).
  { repeat constructor; simpl; intuition discriminate. }
  split; [exact W|]. split; [exact N|].
  exact (proj1 (proj2 (proj2 (proj2 dump_is_parsed_in_order))) true _ W N).
Defined.

End Parsing.

(* ================================================================= *)
(** * Reading a secret *)

Module Reading.

Import JS Commands Statements.
Local Open Scope string_scope.

Section Kubectl.

Variable kubectl : list (list string) -> list string -> SpawnResult.

Lemma runKubectlOrExit_succeeds (args : list string) (message : option string) (w : World) :
  succeeds (kubectl (invocations w) args) ->
  runKubectlOrExit kubectl args message w =
  (Ok (stdout (kubectl (invocations w) args)),
   mkWorld (invocations w ++ [args]) (out w) (err w)).
Proof.
  intros [He Hs]. unfold runKubectlOrExit, bind, spawnSync.
  rewrite He, Hs. reflexivity.
Qed.

(** Validation stops at the first requested key whose value is falsy
    and reports that key. *)
Lemma requested_rejects (secretName : string) (m : Map DisplayValue)
  (before : list string) (key : string) (after : list string) (w : World) :
  (forall k, In k before -> falsy (Map_get k m) = false) ->
  falsy (Map_get key m) = true ->
  requested secretName m (before ++ key :: after) w =
  (Throw (ExitError 1),
   mkWorld (invocations w) (out w) (err w ++ [notFound key secretName ++ nl])).
Proof.
  intros Hb Hk. induction before as [|k before IH]; simpl.
  - rewrite Hk. reflexivity.
  - assert (Fk : falsy (Map_get k m) = false) by (apply Hb; left; reflexivity).
    rewrite Fk. destruct (Map_get k m) as [v|] eqn:E; [|discriminate].
    unfold bind at 1. rewrite IH; [reflexivity|].
    intros k' Hin. apply Hb. right; assumption.
Qed.

Lemma first_falsy (m : Map DisplayValue) (keys : list string) :
  (exists k, In k keys /\ falsy (Map_get k m) = true) ->
  exists before key after,
    keys = (before ++ key :: after)%list
    /\ (forall k, In k before -> falsy (Map_get k m) = false)
    /\ falsy (Map_get key m) = true.
Proof.
  induction keys as [|k keys IH]; intros (k0 & Hin & Hf); [destruct Hin|].
  destruct (falsy (Map_get k m)) eqn:E.
  - exists [], k, keys. repeat split; [intros ? []|assumption].
  - destruct IH as (before & key & after & -> & Hb & Hk).
    + destruct Hin as [->|Hin]; [congruence|]. exists k0; auto.
    + exists (k :: before), key, after. repeat split; trivial.
      intros k' [<-|Hin']; auto.
Qed.

(** [getSecret] with requested keys, one of which has a falsy value:
    the error names the first such key; nothing is written to the
    standard output. *)
Lemma getSecret_rejects (namespace : option string) (secretName : string)
  (before : list string) (key : string) (after : list string)
  (shouldDecode quiet : bool) (w : World) :
  let answer := kubectl (invocations w) (getArgs namespace secretName) in
  let valuesByKey := Map_new (map (entry shouldDecode) (allLines (stdout answer))) in
  succeeds answer ->
  (forall k, In k before -> falsy (Map_get k valuesByKey) = false) ->
  falsy (Map_get key valuesByKey) = true ->
  getSecret kubectl namespace secretName (before ++ key :: after) shouldDecode quiet w =
  (Throw (ExitError 1),
   mkWorld (invocations w ++ [getArgs namespace secretName]) (out w)
           (err w ++ [notFound key secretName ++ nl])).
Proof.
  intros answer valuesByKey Hs Hb Hk.
  unfold getSecret. unfold bind at 1.
  fold (getArgs namespace secretName).
  rewrite runKubectlOrExit_succeeds by exact Hs.
  fold answer. cbv zeta.
  assert (L : (0 <? length (before ++ key :: after))%nat = true).
  { apply Nat.ltb_lt. rewrite length_app. simpl. lia. }
  rewrite !L. fold valuesByKey.
  unfold bind. cbv beta iota.
  rewrite requested_rejects by assumption. reflexivity.
Qed.

(** A requested key that the secret does not hold: the error names
    it, when the keys requested before it pass. *)
Lemma absent_key_is_reported (namespace : option string) (secretName : string)
  (before : list string) (key : string) (after : list string)
  (shouldDecode quiet : bool) (w : World) :
  let answer := kubectl (invocations w) (getArgs namespace secretName) in
  let valuesByKey := Map_new (map (entry shouldDecode) (allLines (stdout answer))) in
  succeeds answer ->
  (forall k, In k before -> falsy (Map_get k valuesByKey) = false) ->
  Map_get key valuesByKey = None ->
  getSecret kubectl namespace secretName (before ++ key :: after) shouldDecode quiet w =
  (Throw (ExitError 1),
   mkWorld (invocations w ++ [getArgs namespace secretName]) (out w)
           (err w ++ [notFound key secretName ++ nl])).
Proof.
  intros answer valuesByKey Hs Hb Hk.
  apply getSecret_rejects; trivial.
  fold answer. fold valuesByKey. rewrite Hk. reflexivity.
Qed.

(** *** When every key passes the check *)

Lemma requested_accepts (secretName : string) (m : Map DisplayValue)
  (keys : list string) (w : World) :
  (forall k, In k keys -> falsy (Map_get k m) = false) ->
  requested secretName m keys w = (Ok (map (fun k => (k, valueOf m k)) keys), w).
Proof.
  induction keys as [|k keys IH]; intros H; simpl; [reflexivity|].
  assert (Fk : falsy (Map_get k m) = false) by (apply H; left; reflexivity).
  rewrite Fk. unfold valueOf at 1.
  destruct (Map_get k m) as [v|] eqn:E; [|discriminate].
  unfold bind. rewrite IH; [reflexivity|].
  intros k' Hin. apply H. right; assumption.
Qed.

Lemma Map_get_set (V : Type) (k k' : string) (v : V) (m : Map V) :
  Map_get k (Map_set k' v m) = if String.eqb k' k then Some v else Map_get k m.
Proof.
  induction m as [|[k1 v1] m IH]; simpl; [reflexivity|].
  destruct (String.eqb_spec k1 k') as [->|N1]; simpl.
  - destruct (String.eqb k' k); reflexivity.
  - rewrite IH.
    destruct (String.eqb_spec k1 k) as [->|N2]; [|reflexivity].
    destruct (String.eqb_spec k' k) as [->|N3]; [congruence|reflexivity].
Qed.

Lemma Map_get_selected (V : Type) (f : string -> V) (k : string)
  (keys : list string) (m : Map V) :
  Map_get k (fold_left (fun m kv => Map_set (fst kv) (snd kv) m)
                       (map (fun k => (k, f k)) keys) m)
  = if existsb (String.eqb k) keys then Some (f k) else Map_get k m.
Proof.
  revert m; induction keys as [|k1 keys IH]; intros m; simpl; [reflexivity|].
  rewrite IH. rewrite Map_get_set.
  destruct (existsb (String.eqb k) keys); [rewrite orb_true_r; reflexivity|].
  rewrite orb_false_r. rewrite (String.eqb_sym k k1).
  destruct (String.eqb_spec k1 k) as [->|N]; reflexivity.
Qed.

Lemma existsb_eqb_In (k : string) (keys : list string) :
  In k keys -> existsb (String.eqb k) keys = true.
Proof.
  intros H. apply existsb_exists. exists k. split; [assumption|apply String.eqb_refl].
Qed.

Lemma writeValue_shown (dv m : Map DisplayValue) (key : string) (w : World) :
  Map_get key dv = Some (valueOf m key) ->
  falsy (Map_get key m) = false ->
  writeValue dv key w = (Ok tt, mkWorld (invocations w) (out w ++ [shown m key]) (err w)).
Proof.
  intros Hd Hm. unfold writeValue. rewrite Hd. unfold valueOf, shown.
  destruct (Map_get key m); [reflexivity|discriminate].
Qed.

Lemma display_lists (quiet : bool) (dv m : Map DisplayValue) (total : nat)
  (keys : list string) :
  (forall k, In k keys ->
             Map_get k dv = Some (valueOf m k) /\ falsy (Map_get k m) = false) ->
  forall (i : nat) (w : World),
    display quiet dv total i keys w =
    (Ok tt, mkWorld (invocations w) (out w ++ listing quiet m total i keys) (err w)).
Proof.
  induction keys as [|k keys IH]; intros H i w; simpl.
  - rewrite app_nil_r. destruct w; reflexivity.
  - destruct (H k (or_introl eq_refl)) as [Hd Hm].
    assert (H' : forall k', In k' keys ->
              Map_get k' dv = Some (valueOf m k') /\ falsy (Map_get k' m) = false)
      by (intros k' Hin; apply H; right; assumption).
    unfold bind. destruct quiet.
    + rewrite (writeValue_shown dv m k _ Hd Hm).
      destruct (Z.of_nat i <? Z.of_nat total - 1)%Z; simpl;
        rewrite (IH H'); simpl; rewrite <- !app_assoc; reflexivity.
    + unfold stdout_write at 1. cbv beta iota.
      rewrite (writeValue_shown dv m k _ Hd Hm). simpl.
      rewrite (IH H'). simpl. rewrite <- !app_assoc. reflexivity.
Qed.

(** [getSecret] when the keys to display all pass the check: with no
    key requested these are the keys of the dump in its order,
    otherwise the requested keys in the requested order. *)
Lemma getSecret_displays (namespace : option string) (secretName : string)
  (keys : list string) (shouldDecode quiet : bool) (w : World) :
  let answer := kubectl (invocations w) (getArgs namespace secretName) in
  let entries := map (entry shouldDecode) (allLines (stdout answer)) in
  let valuesByKey := Map_new entries in
  let keysProvided := (0 <? length keys)%nat in
  let orderedKeys := if keysProvided then keys else map fst entries in
  succeeds answer ->
  (forall k, In k orderedKeys -> falsy (Map_get k valuesByKey) = false) ->
  getSecret kubectl namespace secretName keys shouldDecode quiet w =
  (Ok tt,
   mkWorld (invocations w ++ [getArgs namespace secretName])
           (out w ++ heading quiet keysProvided secretName
                  ++ listing quiet valuesByKey (length orderedKeys) 0 orderedKeys)
           (err w)).
Proof.
  intros answer entries valuesByKey keysProvided orderedKeys Hs Hall.
  unfold getSecret. unfold bind at 1.
  fold (getArgs namespace secretName).
  rewrite runKubectlOrExit_succeeds by exact Hs.
  fold answer. cbv zeta. fold entries. fold valuesByKey. fold keysProvided.
  assert (Eo : (if keysProvided then keys else (keys ++ map fst entries)%list) = orderedKeys).
  { unfold orderedKeys, keysProvided. destruct keys; reflexivity. }
  rewrite Eo.
  set (w1 := mkWorld (invocations w ++ [getArgs namespace secretName]) (out w) (err w)).
  assert (Hhead : forall (k : M unit),
    ((if keysProvided
      then (if quiet then ret tt
            else console_log ("Selected keys from " ++ secretName ++ " -"))
      else (if quiet then ret tt
            else console_log ("All keys from " ++ secretName ++ " -"))) ;;; k) w1
    = k (mkWorld (invocations w1) (out w1 ++ heading quiet keysProvided secretName) (err w1))).
  { intros k. unfold bind, heading, console_log, stdout_write, ret.
    destruct keysProvided, quiet; simpl; rewrite ?app_nil_r; try reflexivity;
      rewrite ?Parsing.append_assoc; reflexivity. }
  destruct (0 <? length orderedKeys)%nat eqn:L.
  - unfold bind at 1. unfold bind at 1.
    rewrite requested_accepts by exact Hall. unfold ret at 1.
    rewrite Hhead.
    rewrite (display_lists quiet _ valuesByKey).
    + simpl. rewrite <- app_assoc. reflexivity.
    + intros k Hin. split; [|apply Hall; assumption].
      unfold Map_new. rewrite Map_get_selected.
      rewrite existsb_eqb_In by assumption. reflexivity.
  - unfold bind at 1. unfold ret at 1. rewrite Hhead.
    destruct orderedKeys; [|discriminate].
    simpl. rewrite app_nil_r. reflexivity.
Qed.

Lemma Map_get_fold_present (V : Type) (k : string) (entries m : list (string * V)) :
  In k (map fst entries) \/ Map_get k m <> None ->
  Map_get k (fold_left (fun m kv => Map_set (fst kv) (snd kv) m) entries m) <> None.
Proof.
  revert m; induction entries as [|[k1 v1] entries IH]; intros m H; simpl.
  - destruct H as [[]|H]; exact H.
  - apply IH. simpl in H. destruct H as [[->|H]|H].
    + right. rewrite Map_get_set, String.eqb_refl. discriminate.
    + left; exact H.
    + right. rewrite Map_get_set. destruct (String.eqb k1 k); [discriminate|exact H].
Qed.

Lemma Map_get_fold_value (V : Type) (k : string) (v : V) (entries m : list (string * V)) :
  Map_get k (fold_left (fun m kv => Map_set (fst kv) (snd kv) m) entries m) = Some v ->
  In v (map snd entries) \/ Map_get k m = Some v.
Proof.
  revert m; induction entries as [|[k1 v1] entries IH]; intros m H; simpl in *.
  - right; exact H.
  - destruct (IH _ H) as [Hin|Hm]; [left; right; exact Hin|].
    rewrite Map_get_set in Hm. destruct (String.eqb k1 k).
    + inversion Hm. left; left; reflexivity.
    + right; exact Hm.
Qed.

(** With no key requested, and no empty value to display, the whole
    secret is listed in the order of the dump. *)
Lemma getSecret_lists_everything (namespace : option string) (secretName : string)
  (shouldDecode quiet : bool) (w : World) :
  let answer := kubectl (invocations w) (getArgs namespace secretName) in
  let entries := map (entry shouldDecode) (allLines (stdout answer)) in
  succeeds answer ->
  Forall (fun e => falsy (Some (snd e)) = false) entries ->
  getSecret kubectl namespace secretName [] shouldDecode quiet w =
  (Ok tt,
   mkWorld (invocations w ++ [getArgs namespace secretName])
           (out w ++ heading quiet false secretName
                  ++ listing quiet (Map_new entries) (length entries) 0 (map fst entries))
           (err w)).
Proof.
  intros answer entries Hs Hall.
  rewrite <- (length_map fst entries).
  apply (getSecret_displays namespace secretName [] shouldDecode quiet w Hs).
  fold answer. fold entries. simpl. intros k Hin.
  destruct (Map_get k (Map_new entries)) as [v|] eqn:E.
  - apply Map_get_fold_value in E. destruct E as [E|E]; [|discriminate].
    apply in_map_iff in E. destruct E as (e & <- & He).
    rewrite Forall_forall in Hall. exact (Hall e He).
  - exfalso. revert E. apply Map_get_fold_present. left; exact Hin.
Qed.

(** Decoded values are buffers: none is falsy. *)
Lemma decoded_listing_succeeds (namespace : option string) (secretName : string)
  (quiet : bool) (w : World) :
  let answer := kubectl (invocations w) (getArgs namespace secretName) in
  let entries := map (entry true) (allLines (stdout answer)) in
  succeeds answer ->
  getSecret kubectl namespace secretName [] true quiet w =
  (Ok tt,
   mkWorld (invocations w ++ [getArgs namespace secretName])
           (out w ++ heading quiet false secretName
                  ++ listing quiet (Map_new entries) (length entries) 0 (map fst entries))
           (err w)).
Proof.
  intros answer entries Hs.
  apply getSecret_lists_everything; [exact Hs|].
  apply Forall_map. apply Forall_forall. intros line _. reflexivity.
Qed.

End Kubectl.

(** The text of the key-not-found error, character by character;
    [034] is the code of the double quote. *)
Example notFound_text :
  list_ascii_of_string (notFound "k" "s") =
  ["E"; "r"; "r"; "o"; "r"; ":"; " "; "K"; "e"; "y"; " "; "034"; "k"; "034"; " ";
   "n"; "o"; "t"; " "; "f"; "o"; "u"; "n"; "d"; " "; "i"; "n"; " ";
   "s"; "e"; "c"; "r"; "e"; "t"; " "; "034"; "s"; "034"; "."]%char.
Proof. reflexivity. Qed.

Lemma notFound_line (key secretName : string) :
  notFound key secretName ++ nl
  = "Error: Key " ++ JSON.lit key ++ " not found in secret " ++ JSON.lit secretName
      ++ "." ++ nl.
Proof. unfold notFound. rewrite !Parsing.append_assoc. reflexivity. Qed.

(** [C9], as the code has it: the error names the first requested
    key that fails the check, which need not be the key whose value
    is empty.  The secret holds [k] with an empty value; when [absent]
    and then [k] are requested, the error names [absent], not [k]. *)
Lemma earlier_failing_key_is_named :
  let valuesByKey := Map_new (map (entry false) (allLines ("k:" ++ nl))) in
  let result :=
    getSecret (answering ("k:" ++ nl)) None "s" ["absent"; "k"] false false initially in
  let failure (culprit : string) : Result unit * World :=
    (Throw (ExitError 1),
     mkWorld [getArgs None "s"] []
             ["Error: Key " ++ JSON.lit culprit ++ " not found in secret " ++ JSON.lit "s"
                ++ "." ++ nl]) in
  In "k" ["absent"; "k"]
  /\ Map_get "k" valuesByKey = Some (Str EmptyString)
  /\ result = failure "absent"
  /\ result <> failure "k".
Proof.
  cbv zeta. split; [right; left; reflexivity|]. split; [reflexivity|].
  split; [reflexivity|].
  intros H. apply (f_equal snd) in H. apply (f_equal err) in H.
  vm_compute in H. discriminate H.
Qed.

(** [C9], amended.  Without the decode flag, a requested key that the
    fetched secret holds with an empty encoded value makes [getSecret]
    fail with the key-not-found error and exit code 1, although the
    key is in the mapping; nothing is written to the standard output.
    The message names the secret and the first requested key that
    fails the check, a key that is absent or whose value is empty:
    the key itself, when the keys requested before it pass. *)
Theorem empty_value_is_reported_missing
  (kubectl : list (list string) -> list string -> SpawnResult)
  (namespace : option string) (secretName : string)
  (keys : list string) (key : string) (quiet : bool) (w : World) :
  let answer := kubectl (invocations w) (getArgs namespace secretName) in
  let valuesByKey := Map_new (map (entry false) (allLines (stdout answer))) in
  let failure (culprit : string) : Result unit * World :=
    (Throw (ExitError 1),
     mkWorld (invocations w ++ [getArgs namespace secretName]) (out w)
             (err w ++ ["Error: Key " ++ JSON.lit culprit ++ " not found in secret "
                          ++ JSON.lit secretName ++ "." ++ nl])) in
  succeeds answer ->
  In key keys ->
  Map_get key valuesByKey = Some (Str EmptyString) ->
  (exists before culprit after,
      keys = (before ++ culprit :: after)%list
      /\ (forall k, In k before -> falsy (Map_get k valuesByKey) = false)
      /\ falsy (Map_get culprit valuesByKey) = true
      /\ getSecret kubectl namespace secretName keys false quiet w = failure culprit)
  /\ (forall before after,
        keys = (before ++ key :: after)%list ->
        (forall k, In k before -> falsy (Map_get k valuesByKey) = false) ->
        getSecret kubectl namespace secretName keys false quiet w = failure key).
Proof.
  intros answer valuesByKey failure Hs Hin Hv.
  assert (Hf : falsy (Map_get key valuesByKey) = true) by (rewrite Hv; reflexivity).
  unfold failure. split.
  - destruct (first_falsy valuesByKey keys) as (before & culprit & after & -> & Hb & Hk).
    { exists key; auto. }
    exists before, culprit, after. repeat split; trivial.
    rewrite <- notFound_line. apply getSecret_rejects; assumption.
  - intros before after -> Hb. rewrite <- notFound_line.
    apply getSecret_rejects; assumption.
Qed.

Lemma empty_value_is_reported_missing_witness :
  getSecret (answering ("user:cm9vdA==" ++ nl ++ "pass:" ++ nl)) None "db"
            ["user"; "pass"] false false initially =
  (Throw (ExitError 1),
   mkWorld [getArgs None "db"] []
           ["Error: Key " ++ JSON.lit "pass" ++ " not found in secret " ++ JSON.lit "db"
              ++ "." ++ nl]).
Proof.
  refine (proj2 (empty_value_is_reported_missing
                   (answering ("user:cm9vdA==" ++ nl ++ "pass:" ++ nl)) None "db"
                   ["user"; "pass"] "pass" false initially _ _ _)
                ["user"] [] _ _).
  - split; reflexivity.
  - simpl; auto.
  - reflexivity.
  - reflexivity.
  - intros k [<-|[]]. reflexivity.
Defined.

(** [C3], as the code has it: a secret whose key [k] has an empty
    value, listed with no key requested and without decoding.  The
    keys pushed while the lines are read make the list of requested
    keys non-empty, the check finds the value of [k] falsy, and the
    listing fails with the key-not-found error although [k] is in
    the mapping. *)
Theorem listing_rejects_an_empty_value :
  Map_new (map (entry false) (allLines ("k:" ++ nl))) = [("k", Str EmptyString)]
  /\ getSecret (answering ("k:" ++ nl)) None "s" [] false false initially =
     (Throw (ExitError 1), mkWorld [getArgs None "s"] [] [notFound "k" "s" ++ nl])
  /\ getSecret (answering ("k:" ++ nl)) None "s" [] true false initially =
     (Ok tt,
      mkWorld [getArgs None "s"] ["All keys from s -" ++ nl; "k: "; EmptyString; nl] []).
Proof.
  repeat split.
Qed.

End Reading.

(* ================================================================= *)
(** * Setting and creating a secret *)

Module Writing.

Import JS Commands Statements.
Local Open Scope string_scope.

Section Kubectl.

Variable kubectl : list (list string) -> list string -> SpawnResult.

Lemma lines_jobs (n : nat) : lines (repeat Job n) = [].
Proof. induction n; simpl; auto. Qed.

Lemma lines_then_jobs (events : list Event) (n : nat) :
  lines (events ++ repeat Job n) = lines events.
Proof.
  induction events as [|[l| |] events IH]; simpl;
    [apply lines_jobs | rewrite IH; reflexivity | exact IH | reflexivity].
Qed.

Lemma ended_then_jobs (events : list Event) (n : nat) :
  ended (events ++ repeat Job n) = ended events.
Proof.
  induction events as [|[l| |] events IH]; simpl; trivial.
  induction n; simpl; auto.
Qed.

(** Closing a closed interface changes nothing. *)
Lemma close_closed (rl : Readline.Interface) :
  Readline.closed rl = true -> Readline.close rl = rl.
Proof. destruct rl as [o q d c]. simpl. intros ->. reflexivity. Qed.

Lemma run_app (e1 e2 : list Event) (p : Process) :
  run kubectl (e1 ++ e2) p = run kubectl e2 (run kubectl e1 p).
Proof. unfold run. apply fold_left_app. Qed.

Lemma prompt_keeps_open (q : string) (rl : Readline.Interface) :
  Readline.closed (Readline.prompt (Readline.setPrompt q rl)) = Readline.closed rl.
Proof. unfold Readline.prompt, Readline.setPrompt. simpl. destruct (Readline.output rl); reflexivity. Qed.

Lemma patch_invokes (namespace : option string) (secretName : string)
  (skipEncode : bool) (pairs : Pairs) (w : World) :
  invocations (snd (patch kubectl namespace secretName skipEncode pairs w))
  = (invocations w ++ [patchArgs namespace secretName skipEncode pairs])%list.
Proof.
  unfold patch, runKubectlOrExit, bind, spawnSync. cbv beta iota.
  destruct (kubectl (invocations w) _) as [e s o r]. simpl.
  destruct e as [[|d]|]; simpl; try reflexivity.
  destruct s as [[| |]|]; reflexivity.
Qed.

Lemma patched_world (namespace : option string) (secretName : string)
  (skipEncode : bool) (pairs : Pairs) (w w' : World) (outcome : Result unit) :
  patch kubectl namespace secretName skipEncode pairs w = (outcome, w') ->
  invocations w' = (invocations w ++ [patchArgs namespace secretName skipEncode pairs])%list.
Proof. intros E. rewrite <- patch_invokes, E. reflexivity. Qed.

Section Chain.

Variable env : Closure.
Variable ks : list string.
Variable w0 : World.

(** While the input is open, a line keeps the chain standing, with
    one more line delivered. *)
Lemma onLine_standing (delivered : list string) (p : Process) (line : string) :
  standing kubectl env ks w0 false delivered p ->
  standing kubectl env ks w0 false (delivered ++ [line]) (onLine line p).
Proof.
  intros (Hc & bp & Hp & HL & H). unfold onLine. rewrite Hp.
  destruct (task p) as [pairs keys|t key pairs keys|key value pairs keys|outcome|outcome] eqn:T;
    cbv zeta in H.
  - destruct H as (Hw & Ho & Hr & Hk & Hd). rewrite Ho.
    unfold BetterPrompt.handleLine. rewrite Hr.
    split; [exact Hc|]. eexists. split; [reflexivity|]. split; [first [exact HL | reflexivity]|].
    simpl. rewrite ?T. repeat split; trivial.
    rewrite app_assoc, Hd. reflexivity.
  - destruct H as (Hw & Ho & Hr & Hq & Hk & Hd). rewrite Ho.
    unfold BetterPrompt.handleLine. rewrite Hr. rewrite ?T, Nat.eqb_refl.
    split; [exact Hc|]. eexists. split; [reflexivity|]. split; [first [exact HL | reflexivity]|].
    simpl. repeat split; trivial. rewrite Hq, Hd. reflexivity.
  - destruct H as (Hw & Ho & Hr & Hk & Hd). rewrite Ho.
    unfold BetterPrompt.handleLine. rewrite Hr.
    split; [exact Hc|]. eexists. split; [reflexivity|]. split; [first [exact HL | reflexivity]|].
    simpl. rewrite ?T. repeat split; trivial.
    rewrite <- Hd, <- app_assoc. reflexivity.
  - destruct H as (Ho & Hr & pairs & Hk & Hd & Hpatch). rewrite Ho.
    unfold BetterPrompt.handleLine. rewrite Hr.
    split; [exact Hc|]. eexists. split; [reflexivity|]. split; [first [exact HL | reflexivity]|].
    simpl. rewrite ?T. repeat split; trivial.
    exists pairs. repeat split; trivial. rewrite app_assoc, Hd. reflexivity.
  - destruct H as (Ho & pairs & rest & Hk & Hd & Hpatch). rewrite Ho.
    split; [exact Hc|]. exists bp. split; [first [exact Hp | reflexivity]|]. split; [first [exact HL | reflexivity]|].
    cbv zeta. rewrite ?T. split; [exact Ho|].
    exists pairs, (rest ++ [line])%list. repeat split; trivial.
    rewrite app_assoc, Hd. reflexivity.
Qed.

(** Once the input has ended, no line arrives. *)
Lemma onLine_over (delivered : list string) (p : Process) (line : string) :
  standing kubectl env ks w0 true delivered p -> onLine line p = p.
Proof.
  intros (Hc & bp & Hp & HL & H). unfold onLine. rewrite Hp.
  assert (C : Readline.closed (BetterPrompt.readlineInterface bp) = true).
  { destruct (task p); cbv zeta in H; intuition. }
  rewrite C. reflexivity.
Qed.

(** The end of the input keeps the chain standing. *)
Lemma onEnd_standing (over : bool) (delivered : list string) (p : Process) :
  standing kubectl env ks w0 over delivered p ->
  standing kubectl env ks w0 true delivered (onEnd p).
Proof.
  intros (Hc & bp & Hp & HL & H). unfold onEnd. rewrite Hp.
  split; [exact Hc|]. eexists. split; [reflexivity|]. split; [exact HL|].
  cbn [task prompt BetterPrompt.readlineInterface BetterPrompt.linesQueue
       BetterPrompt.resolve Readline.close Readline.closed world].
  destruct (task p) as [pairs keys|t key pairs keys|key value pairs keys|outcome|outcome];
    cbv zeta in H |- *.
  - destruct H as (Hw & Ho & Hr & Hk & Hd). repeat split; trivial.
  - destruct H as (Hw & Ho & Hr & Hq & Hk & Hd). repeat split; trivial.
  - destruct H as (Hw & Ho & Hr & Hk & Hd). repeat split; trivial.
  - destruct H as (Ho & Hr & pairs & Hk & Hd & Hpatch). repeat split; trivial.
    exists pairs. repeat split; trivial.
  - destruct H as (Ho & pairs & rest & Hk & Hd & Hpatch). split; [reflexivity|].
    exists pairs, rest. repeat split; trivial.
Qed.

(** A callback keeps the chain standing. *)
Lemma onJob_standing (over : bool) (delivered : list string) (p : Process) :
  standing kubectl env ks w0 over delivered p ->
  standing kubectl env ks w0 over delivered (onJob kubectl p).
Proof.
  intros (Hc & bp & Hp & HL & H). unfold onJob. rewrite Hp.
  destruct (task p) as [pairs keys|t key pairs keys|key value pairs keys|outcome|outcome] eqn:T;
    cbv zeta in H.
  - destruct H as (Hw & Ho & Hr & Hk & Hd).
    destruct keys as [|key keys].
    + destruct (patch kubectl (namespace (closure p)) (secretName (closure p))
                  (skipEncode (closure p)) pairs (world p)) as [outcome w'] eqn:P.
      split; [exact Hc|]. exists bp. split; [first [exact Hp | reflexivity]|]. split; [first [exact HL | reflexivity]|].
      simpl. repeat split; trivial.
      exists pairs. rewrite app_nil_r in Hk. repeat split; trivial.
      rewrite <- Hc, <- Hw. exact P.
    + unfold BetterPrompt.getNextLine. rewrite HL.
      destruct (BetterPrompt.linesQueue bp) as [|l q] eqn:Q.
      * split; [exact Hc|]. eexists. split; [reflexivity|]. split; [reflexivity|].
        simpl. rewrite prompt_keeps_open. repeat split; trivial.
        rewrite app_nil_r in Hd. exact Hd.
      * split; [exact Hc|]. eexists. split; [reflexivity|]. split; [first [exact HL | reflexivity]|].
        simpl. rewrite prompt_keeps_open. repeat split; trivial.
  - split; [exact Hc|]. exists bp. split; [first [exact Hp | reflexivity]|]. split; [first [exact HL | reflexivity]|].
    cbv zeta. rewrite ?T. exact H.
  - destruct H as (Hw & Ho & Hr & Hk & Hd).
    split; [exact Hc|]. exists bp. split; [first [exact Hp | reflexivity]|]. split; [first [exact HL | reflexivity]|].
    simpl. repeat split; trivial.
    + rewrite map_app, <- app_assoc. exact Hk.
    + rewrite map_app, <- app_assoc. exact Hd.
  - destruct H as (Ho & Hr & pairs & Hk & Hd & Hpatch).
    split; [exact Hc|]. eexists. split; [reflexivity|]. split; [first [exact HL | reflexivity]|].
    simpl. split; [reflexivity|].
    exists pairs, (BetterPrompt.linesQueue bp). repeat split; trivial.
  - split; [exact Hc|]. exists bp. split; [first [exact Hp | reflexivity]|]. split; [first [exact HL | reflexivity]|].
    cbv zeta. rewrite ?T. exact H.
Qed.

(** However the events follow each other, the chain keeps standing:
    the lines that arrive before the end of the input are delivered,
    those after it are not. *)
Lemma run_standing (events : list Event) (over : bool) (delivered : list string)
  (p : Process) :
  standing kubectl env ks w0 over delivered p ->
  standing kubectl env ks w0 (over || ended events)
           (delivered ++ (if over then [] else lines events)) (run kubectl events p).
Proof.
  revert over delivered p;
    induction events as [|[line| |] events IH]; intros over delivered p H; cbn [run fold_left step].
  - cbn [ended lines]. rewrite orb_false_r.
    destruct over; rewrite app_nil_r; exact H.
  - destruct over.
    + rewrite (onLine_over delivered p line H). exact (IH true delivered p H).
    + cbn [lines ended orb].
      replace (delivered ++ line :: lines events)%list
        with ((delivered ++ [line]) ++ lines events)%list
        by (rewrite <- app_assoc; reflexivity).
      exact (IH false _ _ (onLine_standing delivered p line H)).
  - exact (IH over delivered _ (onJob_standing over delivered p H)).
  - cbn [ended lines]. rewrite orb_true_r.
    pose proof (IH true delivered _ (onEnd_standing over delivered p H)) as S.
    cbn [orb] in S. destruct over; rewrite app_nil_r in *; exact S.
Qed.

Lemma jobs_standing (n : nat) (over : bool) (delivered : list string) (p : Process) :
  standing kubectl env ks w0 over delivered p ->
  standing kubectl env ks w0 over delivered (run kubectl (repeat Job n) p).
Proof.
  revert p; induction n as [|n IH]; intros p H; [exact H|].
  apply IH. apply onJob_standing. exact H.
Qed.

(** With a line delivered for every key, each callback brings the
    chain one step nearer to its end. *)
Lemma onJob_progress (over : bool) (delivered : list string) (p : Process) :
  standing kubectl env ks w0 over delivered p ->
  length ks <= length delivered ->
  due (onJob kubectl p) = pred (due p).
Proof.
  intros (Hc & bp & Hp & HL & H) Hlen. unfold onJob, due. rewrite Hp.
  destruct (task p) as [pairs keys|t key pairs keys|key value pairs keys|outcome|outcome] eqn:T;
    cbv zeta in H.
  - destruct H as (Hw & Ho & Hr & Hk & Hd).
    destruct keys as [|key keys].
    + destruct (patch _ _ _ _ _ _) as [outcome w']. reflexivity.
    + unfold BetterPrompt.getNextLine. rewrite HL.
      destruct (BetterPrompt.linesQueue bp) as [|l q] eqn:Q.
      * exfalso. rewrite app_nil_r in Hd. subst ks delivered.
        rewrite length_app, !length_map in Hlen. simpl in Hlen. lia.
      * simpl. lia.
  - exfalso. destruct H as (Hw & Ho & Hr & Hq & Hk & Hd). subst ks delivered.
    rewrite length_app, !length_map in Hlen. simpl in Hlen. lia.
  - simpl. lia.
  - reflexivity.
  - rewrite T. reflexivity.
Qed.

Lemma jobs_settle (over : bool) (delivered : list string) (n : nat) :
  length ks <= length delivered ->
  forall p, standing kubectl env ks w0 over delivered p ->
            due p <= n ->
            due (run kubectl (repeat Job n) p) = 0.
Proof.
  intros Hlen. induction n as [|n IH]; intros p H Hn; simpl.
  - lia.
  - apply IH.
    + apply onJob_standing; exact H.
    + rewrite (onJob_progress over delivered p H Hlen). lia.
Qed.

Lemma due_0_settled (p : Process) :
  due p = 0 -> exists outcome, task p = Settled outcome.
Proof.
  unfold due. destruct (task p); try lia. intros _. eexists; reflexivity.
Qed.

Lemma pairs_determined (pairs : Pairs) (rest delivered : list string) :
  map fst pairs = ks ->
  (map snd pairs ++ rest)%list = delivered ->
  pairs = combine ks (firstn (length ks) delivered).
Proof.
  intros <- <-. rewrite length_map, <- (length_map snd pairs).
  rewrite firstn_app, firstn_all, Nat.sub_diag. simpl. rewrite app_nil_r.
  induction pairs as [|[k v] pairs IH]; simpl; congruence.
Qed.

(** A settled chain has run the patch callback once, in the starting
    world, on the keys paired with the first lines delivered. *)
Lemma settled_standing (over : bool) (delivered : list string) (p : Process)
  (outcome : Result unit) :
  standing kubectl env ks w0 over delivered p ->
  task p = Settled outcome ->
  patch kubectl (namespace env) (secretName env) (skipEncode env)
        (combine ks (firstn (length ks) delivered)) w0
  = (outcome, world p).
Proof.
  intros (Hc & bp & Hp & HL & H) T. rewrite T in H. cbv zeta in H.
  destruct H as (_ & pairs & rest & Hk & Hd & Hpatch).
  rewrite <- (pairs_determined pairs rest delivered Hk Hd). exact Hpatch.
Qed.

(** The tool is invoked by the patch callback only. *)
Lemma standing_invocations (over : bool) (delivered : list string) (p : Process) :
  standing kubectl env ks w0 over delivered p ->
  invocations (world p) = invocations w0
  \/ invocations (world p)
     = (invocations w0
        ++ [patchArgs (namespace env) (secretName env) (skipEncode env)
              (combine ks (firstn (length ks) delivered))])%list.
Proof.
  intros (Hc & bp & Hp & HL & H).
  destruct (task p) as [pairs keys|t key pairs keys|key value pairs keys|outcome|outcome];
    cbv zeta in H.
  - left. destruct H as (-> & _). reflexivity.
  - left. destruct H as (-> & _). reflexivity.
  - left. destruct H as (-> & _). reflexivity.
  - right. destruct H as (_ & _ & pairs & Hk & Hd & Hpatch).
    rewrite <- (pairs_determined pairs _ delivered Hk Hd).
    rewrite <- patch_invokes, Hpatch. reflexivity.
  - right. destruct H as (_ & pairs & rest & Hk & Hd & Hpatch).
    rewrite <- (pairs_determined pairs rest delivered Hk Hd).
    rewrite <- patch_invokes, Hpatch. reflexivity.
Qed.

End Chain.

Lemma setSecret_given_keys (tty : bool) (namespace : option string)
  (secretName : string) (key : string) (keys : list string) (skipEncode : bool)
  (w : World) :
  setSecret kubectl tty namespace secretName (key :: keys) skipEncode w
  = mkProcess (mkClosure namespace secretName skipEncode) w
              (Some (BetterPrompt.constructor tty)) (Reduce [] (key :: keys)).
Proof. reflexivity. Qed.

Lemma start_standing (tty : bool) (env : Closure) (ks : list string) (w : World) :
  standing kubectl env ks w false []
           (mkProcess env w (Some (BetterPrompt.constructor tty)) (Reduce [] ks)).
Proof.
  split; [reflexivity|]. eexists. split; [reflexivity|]. split; [reflexivity|].
  simpl. repeat split.
Qed.

(** [setSecret] on given keys, for every schedule: when the chain is
    settled, and it is settled six callbacks after the lines are
    there at the latest, the tool has been invoked once, to patch the
    secret with the keys paired in order with the first lines. *)
Lemma setSecret_collects (tty : bool) (namespace : option string)
  (secretName : string) (key : string) (keys : list string) (skipEncode : bool)
  (w : World) (events : list Event) :
  let start := setSecret kubectl tty namespace secretName (key :: keys) skipEncode w in
  let pairs := combine (key :: keys) (firstn (length (key :: keys)) (lines events)) in
  (forall outcome,
     task (run kubectl events start) = Settled outcome ->
     patch kubectl namespace secretName skipEncode pairs w
     = (outcome, world (run kubectl events start)))
  /\ (length (key :: keys) <= length (lines events) ->
      exists outcome,
        task (run kubectl (events ++ repeat Job (2 * length (key :: keys) + 2)) start)
        = Settled outcome
        /\ patch kubectl namespace secretName skipEncode pairs w
           = (outcome,
              world (run kubectl (events ++ repeat Job (2 * length (key :: keys) + 2)) start))).
Proof.
  intros start pairs. unfold start. rewrite setSecret_given_keys.
  set (env := mkClosure namespace secretName skipEncode).
  set (p0 := mkProcess env w _ _).
  assert (S0 : standing kubectl env (key :: keys) w (ended events) (lines events)
                 (run kubectl events p0)).
  { exact (run_standing env (key :: keys) w events false [] p0
             (start_standing tty env (key :: keys) w)). }
  split.
  - intros outcome T.
    exact (settled_standing env (key :: keys) w _ (lines events) _ outcome S0 T).
  - intros Hlen. rewrite run_app.
    set (n := 2 * length (key :: keys) + 2).
    assert (D : due (run kubectl (repeat Job n) (run kubectl events p0)) = 0).
    { apply (jobs_settle env (key :: keys) w (ended events) (lines events) n Hlen _ S0).
      destruct S0 as (_ & bp & _ & _ & H). unfold due.
      destruct (task (run kubectl events p0)) as [ps ks'|t k ps ks'|k v ps ks'|o|o];
        cbv zeta in H; unfold n.
      - destruct H as (_ & _ & _ & Hk & _).
        apply (f_equal (@length string)) in Hk. rewrite length_app in Hk. lia.
      - destruct H as (_ & _ & _ & _ & Hk & _).
        apply (f_equal (@length string)) in Hk. rewrite length_app in Hk.
        simpl in Hk. simpl. lia.
      - destruct H as (_ & _ & _ & Hk & _).
        apply (f_equal (@length string)) in Hk. rewrite length_app in Hk.
        simpl in Hk. simpl. lia.
      - simpl; lia.
      - simpl; lia. }
    destruct (due_0_settled _ D) as [outcome T]. exists outcome. split; [exact T|].
    pose proof (jobs_standing env (key :: keys) w n _ _ _ S0) as S1.
    exact (settled_standing env (key :: keys) w _ (lines events) _ outcome S1 T).
Qed.

(** Nothing happens to a process that is settled and has no line
    buffer: no line is read, no callback is due. *)
Lemma settled_is_idle (events : list Event) (p : Process) (outcome : Result unit) :
  prompt p = None -> task p = Settled outcome -> run kubectl events p = p.
Proof.
  intros Hp T. induction events as [|[line| |] events IH]; simpl; trivial.
  - unfold onLine. rewrite Hp. exact IH.
  - unfold onJob. rewrite T. exact IH.
  - unfold onEnd. rewrite Hp. exact IH.
Qed.

Lemma createSecret_without_keys (tty : bool) (namespace : option string)
  (secretName : string) (encodeValues : bool) (w : World) :
  succeeds (kubectl (invocations w) (createArgs namespace secretName)) ->
  createSecret kubectl tty namespace secretName [] encodeValues w
  = mkProcess (mkClosure namespace secretName encodeValues)
              (mkWorld (invocations w ++ [createArgs namespace secretName]) (out w) (err w))
              None (Settled (Ok tt)).
Proof.
  intros Hs. unfold createSecret. fold (createArgs namespace secretName).
  rewrite Reading.runKubectlOrExit_succeeds by exact Hs. reflexivity.
Qed.

End Kubectl.

(** The payload, character by character; [034] is the code of the
    double quote. *)
Example payload_text :
  list_ascii_of_string payload =
  ["{"; "034"; "d"; "a"; "t"; "a"; "034"; ":"; "{";
   "034"; "a"; "034"; ":"; "034"; "M"; "Q"; "="; "="; "034"; ",";
   "034"; "b"; "034"; ":"; "034"; "M"; "g"; "="; "="; "034";
   "}"; "}"]%char.
Proof. reflexivity. Qed.

(** The input of a pipe may end before the callbacks have run: the
    lines that were queued are still read, and the secret is patched.
    When the input ends before a line has arrived for every key, the
    request for the next key is left waiting and nothing is patched. *)
Example input_of_a_pipe :
  let start := setSecret (answering EmptyString) false None "s" ["a"; "b"] false initially in
  let whole := run (answering EmptyString)
                   ([Job; Line "1"; Line "2"; End] ++ repeat Job 5) start in
  let short := run (answering EmptyString)
                   ([Job; Line "1"; End; Line "2"] ++ repeat Job 9) start in
  task whole = Settled (Ok tt)
  /\ invocations (world whole) = [["patch"; "secret"; "s"; "-p"; payload]]
  /\ lines [Job; Line "1"; End; Line "2"] = ["1"]
  /\ task short = Await 1 "b" [("a", "1")] []
  /\ world short = initially
  /\ Cli.ending short = None.
Proof. repeat split. Qed.

(** [C2] Setting the keys [a] and [b], with encoding, when the lines
    typed are [1] and [2]: the payload built is the JSON text with
    [a] set to [MQ==] and [b] to [Mg==], and, however the arrival of
    the lines interleaves with the requests, the tool is invoked
    exactly once, with that patch: never before the patch callback,
    once when the chain is settled, and the chain is settled six
    callbacks after the second line at the latest. *)
Theorem set_two_keys_patches_once
  (kubectl : list (list string) -> list string -> SpawnResult)
  (tty : bool) (namespace : option string) (secretName : string)
  (w : World) (events : list Event) (more : list string) :
  lines events = "1" :: "2" :: more ->
  let start := setSecret kubectl tty namespace secretName ["a"; "b"] false w in
  let patching :=
    (namespaceArgs namespace ++ ["patch"; "secret"; secretName; "-p"; payload])%list in
  JSON.stringify (secretData false [("a", "1"); ("b", "2")]) = payload
  /\ verb patching = Some "patch"
  /\ (invocations (world (run kubectl events start)) = invocations w
      \/ invocations (world (run kubectl events start)) = (invocations w ++ [patching])%list)
  /\ (forall outcome,
        task (run kubectl events start) = Settled outcome ->
        invocations (world (run kubectl events start)) = (invocations w ++ [patching])%list)
  /\ (exists outcome,
        task (run kubectl (events ++ repeat Job 6) start) = Settled outcome
        /\ invocations (world (run kubectl (events ++ repeat Job 6) start))
           = (invocations w ++ [patching])%list).
Proof.
  intros Hlines start patching.
  assert (P : patchArgs namespace secretName false
                (combine ["a"; "b"] (firstn (length ["a"; "b"]) (lines events)))
              = patching).
  { rewrite Hlines. reflexivity. }
  split; [reflexivity|]. split; [|split; [|split]].
  - unfold patching, namespaceArgs. destruct (truthy namespace); reflexivity.
  - pose proof (run_standing kubectl (mkClosure namespace secretName false) ["a"; "b"] w
                  events false [] _
                  (start_standing kubectl tty (mkClosure namespace secretName false)
                     ["a"; "b"] w)) as S0.
    apply standing_invocations in S0. cbn [app] in S0.
    destruct S0 as [S0|S0]; [left; exact S0 | right; rewrite <- P; exact S0].
  - intros outcome T.
    pose proof (proj1 (setSecret_collects kubectl tty namespace secretName
                         "a" ["b"] false w events) outcome T) as E.
    rewrite <- P. exact (patched_world kubectl _ _ _ _ _ _ _ E).
  - destruct (proj2 (setSecret_collects kubectl tty namespace secretName
                       "a" ["b"] false w events)) as (outcome & T & E).
    { rewrite Hlines. simpl. lia. }
    exists outcome. split; [exact T|].
    rewrite <- P. exact (patched_world kubectl _ _ _ _ _ _ _ E).
Qed.

Lemma set_two_keys_patches_once_witness :
  lines [Job; Line "1"; Line "2"] = ["1"; "2"]
  /\ exists outcome,
       task (run (answering EmptyString) ([Job; Line "1"; Line "2"] ++ repeat Job 6)
                 (setSecret (answering EmptyString) false None "s" ["a"; "b"] false initially))
       = Settled outcome
       /\ invocations
            (world (run (answering EmptyString) ([Job; Line "1"; Line "2"] ++ repeat Job 6)
                        (setSecret (answering EmptyString) false None "s" ["a"; "b"] false
                                   initially)))
          = [["patch"; "secret"; "s"; "-p"; payload]].
Proof.
  split; [reflexivity|].
  exact (proj2 (proj2 (proj2 (proj2
           (set_two_keys_patches_once (answering EmptyString) false None "s" initially
              [Job; Line "1"; Line "2"] [] eq_refl))))).
Defined.

(** [C7], as the code has it: the script checks the credentials with
    [kubectl version] before it dispatches, so that a run of [create]
    without keys makes two invocations of the tool, not one. *)
Lemma create_checks_credentials_first :
  let p := Cli.main (answering EmptyString) false
             (Cli.mkArgs "create" None "s" [] false false false) initially in
  Cli.ending p = Some Cli.Completed
  /\ invocations (world p) = [["version"]; ["create"; "secret"; "generic"; "s"]]
  /\ ~ (exists only, invocations (world p) = [only]).
Proof.
  cbv zeta. split; [reflexivity|]. split; [reflexivity|].
  intros [only H]. discriminate H.
Qed.

(** [C7], amended.  When the tool succeeds, a run of [create] without
    keys makes exactly two invocations of it, the credential check
    [version] and then the create, and no patch; it writes nothing,
    constructs no line buffer, so that no input is read whatever
    arrives, and completes. *)
Theorem create_without_keys
  (kubectl : list (list string) -> list string -> SpawnResult)
  (tty : bool) (namespace : option string) (name : string)
  (decode quiet encoded : bool) (w : World) :
  let args := Cli.mkArgs "create" namespace name [] decode quiet encoded in
  succeeds (kubectl (invocations w) ["version"]) ->
  succeeds (kubectl (invocations w ++ [["version"]])%list (createArgs namespace name)) ->
  let p := Cli.main kubectl tty args w in
  world p
  = mkWorld (invocations w ++ [["version"]; createArgs namespace name]) (out w) (err w)
  /\ verb ["version"] = Some "version"
  /\ verb (createArgs namespace name) = Some "create"
  /\ prompt p = None
  /\ task p = Settled (Ok tt)
  /\ Cli.ending p = Some Cli.Completed
  /\ (forall events, run kubectl events p = p)
  /\ world (createSecret kubectl tty namespace name [] encoded
              (mkWorld (invocations w ++ [["version"]]) (out w) (err w)))
     = mkWorld ((invocations w ++ [["version"]]) ++ [createArgs namespace name])
               (out w) (err w).
Proof.
  intros args Hv Hc p.
  assert (E : p = mkProcess (mkClosure namespace name encoded)
                (mkWorld (invocations w ++ [["version"]; createArgs namespace name])
                         (out w) (err w))
                None (Settled (Ok tt))).
  { unfold p, Cli.main.
    rewrite Reading.runKubectlOrExit_succeeds by exact Hv.
    cbn [Cli.command Cli.namespace Cli.name Cli.key Cli.encoded args].
    change (String.eqb "create" "get") with false.
    change (String.eqb "create" "set") with false.
    change (String.eqb "create" "create") with true. cbv iota.
    rewrite createSecret_without_keys by exact Hc.
    simpl. rewrite <- app_assoc. reflexivity. }
  rewrite E. repeat split.
  - unfold createArgs, namespaceArgs. destruct (truthy namespace); reflexivity.
  - intros events. apply (settled_is_idle kubectl events _ (Ok tt)); reflexivity.
  - rewrite createSecret_without_keys by exact Hc. reflexivity.
Qed.

Lemma create_without_keys_witness :
  let p := Cli.main (answering EmptyString) true
             (Cli.mkArgs "create" (Some "prod") "db" [] false false false) initially in
  world p
  = mkWorld [["version"]; ["-n"; "prod"; "create"; "secret"; "generic"; "db"]] [] []
  /\ verb ["version"] = Some "version"
  /\ verb (createArgs (Some "prod") "db") = Some "create"
  /\ prompt p = None
  /\ task p = Settled (Ok tt)
  /\ Cli.ending p = Some Cli.Completed
  /\ (forall events, run (answering EmptyString) events p = p)
  /\ world (createSecret (answering EmptyString) true (Some "prod") "db" [] false
              (mkWorld [["version"]] [] []))
     = mkWorld [["version"]; ["-n"; "prod"; "create"; "secret"; "generic"; "db"]] [] [].
Proof.
  apply (create_without_keys (answering EmptyString) true (Some "prod") "db"
           false false false initially); split; reflexivity.
Defined.

End Writing.

(* ================================================================= *)
(** * More on running the tool and reading a secret *)

Module ReadingMore.

Import JS Commands Statements Observations.
Local Open Scope string_scope.

Section Kubectl.

Variable kubectl : list (list string) -> list string -> SpawnResult.

(** The two ways [runKubectlOrExit] ends. *)
Lemma runKubectlOrExit_cases (args : list string) (message : option string) (w : World) :
  let r := kubectl (invocations w) args in
  (succeeds r
   /\ runKubectlOrExit kubectl args message w
      = (Ok (stdout r), mkWorld (invocations w ++ [args]) (out w) (err w)))
  \/ (exists commandError,
        (error r = Some ENOENT \/ (exists e, error r = Some (OtherError e))
         \/ (error r = None /\ status r <> Some 0%Z /\ commandError = stderr r))
        /\ runKubectlOrExit kubectl args message w
           = (Throw (ExitError 1),
              mkWorld (invocations w ++ [args]) (out w)
                      (err w ++ commandError :: note message)%list)).
Proof.
  intros r. unfold runKubectlOrExit, bind, spawnSync. cbv beta iota. fold r.
  destruct (error r) as [[|e]|] eqn:E.
  - right. eexists. split; [left; reflexivity|].
    unfold stderr_write, console_error, stderr_write, throw, ret. simpl.
    unfold note. destruct message as [m|]; simpl; [destruct (negb _)|];
      simpl; rewrite <- ?app_assoc; reflexivity.
  - right. eexists. split; [right; left; exists e; reflexivity|].
    unfold stderr_write, console_error, stderr_write, throw, ret. simpl.
    unfold note. destruct message as [m|]; simpl; [destruct (negb _)|];
      simpl; rewrite <- ?app_assoc; reflexivity.
  - destruct (status r) as [[| |]|] eqn:S.
    + left. split; [split; assumption | reflexivity].
    + right. exists (stderr r). split; [right; right; repeat split; discriminate|].
      unfold stderr_write, console_error, stderr_write, throw, ret. simpl.
      unfold note. destruct message as [m|]; simpl; [destruct (negb _)|];
      simpl; rewrite <- ?app_assoc; reflexivity.
    + right. exists (stderr r). split; [right; right; repeat split; discriminate|].
      unfold stderr_write, console_error, stderr_write, throw, ret. simpl.
      unfold note. destruct message as [m|]; simpl; [destruct (negb _)|];
      simpl; rewrite <- ?app_assoc; reflexivity.
    + right. exists (stderr r). split; [right; right; repeat split; discriminate|].
      unfold stderr_write, console_error, stderr_write, throw, ret. simpl.
      unfold note. destruct message as [m|]; simpl; [destruct (negb _)|];
      simpl; rewrite <- ?app_assoc; reflexivity.
Qed.

(** [getSecret] when a key to display fails the check, whether the
    keys were requested or pushed from the dump. *)
Lemma getSecret_rejects_any (namespace : option string) (secretName : string)
  (keys : list string) (shouldDecode quiet : bool) (w : World)
  (before : list string) (key : string) (after : list string) :
  let answer := kubectl (invocations w) (getArgs namespace secretName) in
  let entries := map (entry shouldDecode) (allLines (stdout answer)) in
  let valuesByKey := Map_new entries in
  let orderedKeys := if (0 <? length keys)%nat then keys else map fst entries in
  succeeds answer ->
  orderedKeys = (before ++ key :: after)%list ->
  (forall k, In k before -> falsy (Map_get k valuesByKey) = false) ->
  falsy (Map_get key valuesByKey) = true ->
  getSecret kubectl namespace secretName keys shouldDecode quiet w =
  (Throw (ExitError 1),
   mkWorld (invocations w ++ [getArgs namespace secretName]) (out w)
           (err w ++ [notFound key secretName ++ nl])).
Proof.
  intros answer entries valuesByKey orderedKeys Hs Ho Hb Hk.
  unfold getSecret. unfold bind at 1.
  fold (getArgs namespace secretName).
  rewrite Reading.runKubectlOrExit_succeeds by exact Hs.
  fold answer. cbv zeta. fold entries. fold valuesByKey.
  assert (Eo : (if (0 <? length keys)%nat then keys else (keys ++ map fst entries)%list)
               = orderedKeys).
  { unfold orderedKeys. destruct keys; reflexivity. }
  rewrite Eo, Ho.
  assert (L : (0 <? length (before ++ key :: after))%nat = true).
  { apply Nat.ltb_lt. rewrite length_app. simpl. lia. }
  rewrite L. unfold bind. cbv beta iota.
  rewrite Reading.requested_rejects by assumption. reflexivity.
Qed.

Lemma some_falsy (m : Map DisplayValue) (keys : list string) :
  (forall k, In k keys -> falsy (Map_get k m) = false)
  \/ (exists k, In k keys /\ falsy (Map_get k m) = true).
Proof.
  induction keys as [|k keys [IH|(k' & Hin & Hf)]].
  - left. intros k [].
  - destruct (falsy (Map_get k m)) eqn:E.
    + right. exists k. split; [left; reflexivity | exact E].
    + left. intros k' [<-|Hin]; auto.
  - right. exists k'. split; [right; exact Hin | exact Hf].
Qed.

End Kubectl.

(** [X5] [runKubectlOrExit] spawns the tool exactly once and writes
    nothing to the standard output.  When the tool ran and exited
    with status 0 it returns the tool's output and writes nothing at
    all.  In every other case, a spawn error or a status that is not
    0 (a null status included), it throws [ExitError(1)] after
    writing to the standard error the command error (the tool's own
    stderr when it ran) and then, if one is given, the message and a
    newline. *)
Theorem tool_runs_once_and_fails_with_exit_1
  (kubectl : list (list string) -> list string -> SpawnResult)
  (args : list string) (message : option string) (w : World) :
  let r := kubectl (invocations w) args in
  let result := fst (runKubectlOrExit kubectl args message w) in
  let w' := snd (runKubectlOrExit kubectl args message w) in
  invocations w' = (invocations w ++ [args])%list
  /\ out w' = out w
  /\ ((succeeds r /\ result = Ok (stdout r) /\ err w' = err w)
      \/ (exists commandError,
            (error r = Some ENOENT \/ (exists e, error r = Some (OtherError e))
             \/ (error r = None /\ status r <> Some 0%Z /\ commandError = stderr r))
            /\ result = Throw (ExitError 1)
            /\ err w' = (err w ++ commandError :: note message)%list)).
Proof.
  cbv zeta.
  destruct (runKubectlOrExit_cases kubectl args message w) as [[Hs E]|(c & Hc & E)];
    rewrite E; simpl.
  - repeat split; trivial. left. repeat split; trivial; apply Hs.
  - repeat split; trivial. right. exists c. repeat split; trivial.
Qed.

(** [getSecret] makes one invocation, and completes or throws
    [ExitError(1)] with the standard output untouched. *)
Lemma getSecret_outcome
  (kubectl : list (list string) -> list string -> SpawnResult)
  (namespace : option string) (secretName : string) (keys : list string)
  (shouldDecode quiet : bool) (w : World) :
  let result := fst (getSecret kubectl namespace secretName keys shouldDecode quiet w) in
  let w' := snd (getSecret kubectl namespace secretName keys shouldDecode quiet w) in
  invocations w' = (invocations w ++ [getArgs namespace secretName])%list
  /\ (result = Ok tt \/ (result = Throw (ExitError 1) /\ out w' = out w)).
Proof.
  cbv zeta.
  destruct (runKubectlOrExit_cases kubectl (getArgs namespace secretName) None w)
    as [[Hs E]|(c & Hc & E)].
  - set (answer := kubectl (invocations w) (getArgs namespace secretName)) in *.
    set (entries := map (entry shouldDecode) (allLines (stdout answer))).
    set (orderedKeys := if (0 <? length keys)%nat then keys else map fst entries).
    destruct (some_falsy (Map_new entries) orderedKeys) as [Hall|Hsome].
    + rewrite (Reading.getSecret_displays kubectl namespace secretName keys
                 shouldDecode quiet w Hs Hall).
      simpl. split; [reflexivity | left; reflexivity].
    + destruct (Reading.first_falsy _ _ Hsome) as (before & key & after & Ho & Hb & Hk).
      rewrite (getSecret_rejects_any kubectl namespace secretName keys shouldDecode quiet w
                 before key after Hs Ho Hb Hk).
      simpl. split; [reflexivity | right; split; reflexivity].
  - assert (G : getSecret kubectl namespace secretName keys shouldDecode quiet w
                = (Throw (ExitError 1),
                   mkWorld (invocations w ++ [getArgs namespace secretName]) (out w)
                           (err w ++ c :: note None))).
    { unfold getSecret. unfold bind at 1. fold (getArgs namespace secretName).
      rewrite E. reflexivity. }
    rewrite G. simpl. split; [reflexivity | right; split; reflexivity].
Qed.

(** [X6] Whatever the tool answers and whatever keys are requested,
    [getSecret] invokes the tool exactly once, with the get of the
    secret, and either completes or throws [ExitError(1)]; when it
    throws, it has written nothing to the standard output: there is
    no partial listing, and writing never fails on a missing value. *)
Theorem getSecret_lists_all_or_nothing
  (kubectl : list (list string) -> list string -> SpawnResult)
  (namespace : option string) (secretName : string) (keys : list string)
  (shouldDecode quiet : bool) (w : World) :
  let result := fst (getSecret kubectl namespace secretName keys shouldDecode quiet w) in
  let w' := snd (getSecret kubectl namespace secretName keys shouldDecode quiet w) in
  invocations w' = (invocations w ++ [getArgs namespace secretName])%list
  /\ (result = Ok tt \/ (result = Throw (ExitError 1) /\ out w' = out w)).
Proof.
  exact (getSecret_outcome kubectl namespace secretName keys shouldDecode quiet w).
Qed.

(** [X7] When the tool succeeds and every key to display passes the
    check, [getSecret] completes, having written the heading (unless
    quiet) and then the entries: those of the requested keys in the
    order requested, a key requested twice being listed twice, or,
    with no key requested, those of the dump in its order. *)
Theorem keys_are_listed_in_order
  (kubectl : list (list string) -> list string -> SpawnResult)
  (namespace : option string) (secretName : string)
  (keys : list string) (shouldDecode quiet : bool) (w : World) :
  let answer := kubectl (invocations w) (getArgs namespace secretName) in
  let entries := map (entry shouldDecode) (allLines (stdout answer)) in
  let valuesByKey := Map_new entries in
  let keysProvided := (0 <? length keys)%nat in
  let orderedKeys := if keysProvided then keys else map fst entries in
  succeeds answer ->
  (forall k, In k orderedKeys -> falsy (Map_get k valuesByKey) = false) ->
  getSecret kubectl namespace secretName keys shouldDecode quiet w =
  (Ok tt,
   mkWorld (invocations w ++ [getArgs namespace secretName])
           (out w ++ heading quiet keysProvided secretName
                  ++ listing quiet valuesByKey (length orderedKeys) 0 orderedKeys)
           (err w)).
Proof.
  exact (Reading.getSecret_displays kubectl namespace secretName keys shouldDecode quiet w).
Qed.

Lemma keys_are_listed_in_order_witness :
  getSecret (answering ("foo:YmFy" ++ nl ++ "baz:cXV1eA==" ++ nl)) (Some "prod") "db"
            ["baz"; "foo"; "baz"] true false initially =
  (Ok tt,
   mkWorld [getArgs (Some "prod") "db"]
           ["Selected keys from db -" ++ nl;
            "baz: "; "quux"; nl; "foo: "; "bar"; nl; "baz: "; "quux"; nl]
           []).
Proof.
  apply (keys_are_listed_in_order (answering ("foo:YmFy" ++ nl ++ "baz:cXV1eA==" ++ nl))
           (Some "prod") "db" ["baz"; "foo"; "baz"] true false initially).
  - split; reflexivity.
  - intros k [<-|[<-|[<-|[]]]]; reflexivity.
Defined.

(** [X8] A requested key that the secret does not hold makes
    [getSecret] fail: when the keys requested before it pass the
    check, the error written to the standard error names that key and
    the secret, [ExitError(1)] is thrown, and nothing is written to
    the standard output, whatever was requested after it. *)
Theorem missing_key_aborts_the_listing
  (kubectl : list (list string) -> list string -> SpawnResult)
  (namespace : option string) (secretName : string)
  (before : list string) (key : string) (after : list string)
  (shouldDecode quiet : bool) (w : World) :
  let answer := kubectl (invocations w) (getArgs namespace secretName) in
  let valuesByKey := Map_new (map (entry shouldDecode) (allLines (stdout answer))) in
  succeeds answer ->
  (forall k, In k before -> falsy (Map_get k valuesByKey) = false) ->
  Map_get key valuesByKey = None ->
  getSecret kubectl namespace secretName (before ++ key :: after) shouldDecode quiet w =
  (Throw (ExitError 1),
   mkWorld (invocations w ++ [getArgs namespace secretName]) (out w)
           (err w ++ [notFound key secretName ++ nl])).
Proof.
  exact (Reading.absent_key_is_reported kubectl namespace secretName before key after
           shouldDecode quiet w).
Qed.

Lemma missing_key_aborts_the_listing_witness :
  getSecret (answering ("foo:YmFy" ++ nl ++ "baz:cXV1eA==" ++ nl)) None "db"
            ["foo"; "nope"; "baz"] true true initially =
  (Throw (ExitError 1), mkWorld [getArgs None "db"] [] [notFound "nope" "db" ++ nl]).
Proof.
  apply (missing_key_aborts_the_listing
           (answering ("foo:YmFy" ++ nl ++ "baz:cXV1eA==" ++ nl)) None "db"
           ["foo"] "nope" ["baz"] true true initially).
  - split; reflexivity.
  - intros k [<-|[]]; reflexivity.
  - reflexivity.
Defined.

(** [X9] With the decode flag and no key requested, [getSecret] never
    reports a key as missing: whenever the tool succeeds it lists
    every entry of the dump, in the order of the dump, the values
    decoded, empty values included. *)
Theorem decoded_listing_never_misses_a_key
  (kubectl : list (list string) -> list string -> SpawnResult)
  (namespace : option string) (secretName : string) (quiet : bool) (w : World) :
  let answer := kubectl (invocations w) (getArgs namespace secretName) in
  let entries := map (entry true) (allLines (stdout answer)) in
  succeeds answer ->
  getSecret kubectl namespace secretName [] true quiet w =
  (Ok tt,
   mkWorld (invocations w ++ [getArgs namespace secretName])
           (out w ++ heading quiet false secretName
                  ++ listing quiet (Map_new entries) (length entries) 0 (map fst entries))
           (err w)).
Proof.
  exact (Reading.decoded_listing_succeeds kubectl namespace secretName quiet w).
Qed.

Lemma decoded_listing_never_misses_a_key_witness :
  getSecret (answering ("user:cm9vdA==" ++ nl ++ "pass:" ++ nl)) None "db" [] true false
            initially =
  (Ok tt,
   mkWorld [getArgs None "db"]
           ["All keys from db -" ++ nl; "user: "; "root"; nl; "pass: "; EmptyString; nl]
           []).
Proof.
  apply (decoded_listing_never_misses_a_key
           (answering ("user:cm9vdA==" ++ nl ++ "pass:" ++ nl)) None "db" false initially).
  split; reflexivity.
Defined.

Lemma text_app (a b : list string) : text (a ++ b) = text a ++ text b.
Proof.
  induction a as [|x a IH]; simpl; [reflexivity|].
  unfold text in *. simpl. rewrite IH. rewrite Parsing.append_assoc. reflexivity.
Qed.

Lemma append_empty (s : string) : s ++ EmptyString = s.
Proof. induction s as [|c s IH]; simpl; congruence. Qed.

Lemma quiet_listing_text (m : Map DisplayValue) (keys : list string) :
  forall i total,
    total = i + length keys ->
    text (listing true m total i keys) = JSON.join nl (map (shown m) keys).
Proof.
  induction keys as [|k keys IH]; intros i total Ht; [reflexivity|].
  cbn [listing map]. destruct keys as [|k2 keys].
  - simpl in Ht.
    destruct (Z.of_nat i <? Z.of_nat total - 1)%Z eqn:L; [apply Z.ltb_lt in L; lia|].
    simpl. unfold text. simpl. apply append_empty.
  - simpl in Ht.
    destruct (Z.of_nat i <? Z.of_nat total - 1)%Z eqn:L; [|apply Z.ltb_ge in L; lia].
    rewrite text_app. rewrite (IH (S i) total) by (simpl; lia).
    cbn [JSON.join map]. unfold text. cbn [fold_right].
    rewrite append_empty, Parsing.append_assoc. reflexivity.
Qed.

(** [X10] In quiet mode a successful listing writes the bare values
    and nothing else: the text written is the values of the listed
    keys joined by newlines, with no heading, no key and no newline
    after the last value. *)
Theorem quiet_listing_is_values_joined_by_newlines
  (kubectl : list (list string) -> list string -> SpawnResult)
  (namespace : option string) (secretName : string)
  (keys : list string) (shouldDecode : bool) (w : World) :
  let answer := kubectl (invocations w) (getArgs namespace secretName) in
  let entries := map (entry shouldDecode) (allLines (stdout answer)) in
  let valuesByKey := Map_new entries in
  let orderedKeys := if (0 <? length keys)%nat then keys else map fst entries in
  succeeds answer ->
  (forall k, In k orderedKeys -> falsy (Map_get k valuesByKey) = false) ->
  exists chunks,
    getSecret kubectl namespace secretName keys shouldDecode true w =
    (Ok tt,
     mkWorld (invocations w ++ [getArgs namespace secretName]) (out w ++ chunks) (err w))
    /\ text chunks = JSON.join nl (map (shown valuesByKey) orderedKeys).
Proof.
  intros answer entries valuesByKey orderedKeys Hs Hall.
  eexists. split.
  - exact (Reading.getSecret_displays kubectl namespace secretName keys shouldDecode true w
             Hs Hall).
  - simpl. apply quiet_listing_text. reflexivity.
Qed.

Lemma quiet_listing_is_values_joined_by_newlines_witness :
  exists chunks,
    getSecret (answering ("foo:YmFy" ++ nl ++ "baz:cXV1eA==" ++ nl)) None "db" [] true true
              initially =
    (Ok tt, mkWorld [getArgs None "db"] chunks [])
    /\ text chunks = "bar" ++ nl ++ "quux".
Proof.
  apply (quiet_listing_is_values_joined_by_newlines
           (answering ("foo:YmFy" ++ nl ++ "baz:cXV1eA==" ++ nl)) None "db" [] true
           initially).
  - split; reflexivity.
  - intros k [<-|[<-|[]]]; reflexivity.
Defined.

(** *** Edges of the parsing *)

Lemma indexOf_absent (c : ascii) (s : string) :
  occurs c s = false -> indexOf c s = (-1)%Z.
Proof.
  induction s as [|d s IH]; simpl; intros H; [reflexivity|].
  apply orb_false_iff in H. destruct H as [Hd Hs].
  rewrite Hd, (IH Hs). reflexivity.
Qed.

Lemma substring_nothing (s : string) : String.substring 0 0 s = EmptyString.
Proof. destruct s; reflexivity. Qed.

(** [X11] A line without a colon is read as an entry with the empty
    key, the whole line being its value: [indexOf] gives -1,
    [substring(0, -1)] is empty and [substring(0)] is the line. *)
Theorem line_without_colon_has_empty_key (shouldDecode : bool) (line : string) :
  occurs ":" line = false ->
  entry shouldDecode line = (EmptyString, displayOf shouldDecode line).
Proof.
  intros H. unfold entry. rewrite (indexOf_absent ":" line H).
  assert (K : substring 0 (-1) line = EmptyString).
  { unfold substring, clamp.
    replace (Z.min (Z.min (Z.max 0 0) _) _) with 0%Z by lia.
    replace (Z.max (Z.min (Z.max 0 0) _) _ - 0)%Z with 0%Z by lia.
    apply substring_nothing. }
  assert (V : substringFrom (-1 + 1) line = line).
  { unfold substringFrom, substring, clamp. simpl (-1 + 1)%Z.
    replace (Z.min (Z.min (Z.max 0 0) _) _) with 0%Z by lia.
    replace (Z.max (Z.min (Z.max 0 0) _) _ - 0)%Z
      with (Z.of_nat (String.length line)) by lia.
    rewrite Nat2Z.id. apply Parsing.substring_whole. }
  rewrite K, V. reflexivity.
Qed.

Lemma line_without_colon_has_empty_key_witness :
  entry false "no colon here" = (EmptyString, Str "no colon here").
Proof.
  apply (line_without_colon_has_empty_key false "no colon here"). reflexivity.
Defined.

Lemma split_whole (sep : ascii) (s : string) :
  occurs sep s = false -> split sep s = [s].
Proof.
  induction s as [|c s IH]; simpl; intros H; [reflexivity|].
  apply orb_false_iff in H. destruct H as [Hc Hs].
  rewrite Hc, (IH Hs). reflexivity.
Qed.

Lemma split_unterminated (records : list string) (last : string) :
  Forall (fun r => occurs newline r = false) records ->
  occurs newline last = false ->
  split newline (dump records ++ last) = (records ++ [last])%list.
Proof.
  intros H Hl. induction H as [|r records Hr _ IH]; simpl.
  - apply split_whole; exact Hl.
  - unfold nl. rewrite Parsing.append_assoc. cbn [append].
    rewrite Parsing.split_piece by exact Hr. rewrite IH. reflexivity.
Qed.

(** [X12] The last piece of the tool's output is dropped whatever it
    holds: when the output does not end with a newline, the record
    after the last newline is lost, and an output of one
    unterminated record gives no line at all. *)
Theorem unterminated_last_record_is_dropped (records : list string) (last : string) :
  Forall (fun r => occurs newline r = false) records ->
  occurs newline last = false ->
  allLines (dump records ++ last) = records.
Proof.
  intros H Hl. unfold allLines. rewrite (split_unterminated records last H Hl).
  apply Parsing.slice_all_but_last.
Qed.

Lemma unterminated_last_record_is_dropped_witness :
  allLines ("foo:YmFy" ++ nl ++ "baz:cXV1eA==") = ["foo:YmFy"]
  /\ allLines "foo:YmFy" = [].
Proof.
  split.
  - apply (unterminated_last_record_is_dropped ["foo:YmFy"] "baz:cXV1eA==").
    + repeat constructor.
    + reflexivity.
  - apply (unterminated_last_record_is_dropped [] "foo:YmFy").
    + constructor.
    + reflexivity.
Defined.

End ReadingMore.

(* ================================================================= *)
(** * More on the line buffer *)

Module LineBufferMore.

Import BetterPrompt Observations.

Section Facts.

Variable W : Type.

Lemma perform_conserves (c : call W) (this : t W) :
  queue_excludes_waiter this ->
  (handed [fst (perform c this)] ++ linesQueue (snd (perform c this)))%list
  = (linesQueue this ++ arrived [c])%list.
Proof.
  intros H. destruct c as [line|p fresh]; unfold perform, handleLine, getNextLine.
  - destruct (resolve this) eqn:E; simpl.
    + destruct H as [H|H]; [rewrite H; reflexivity | congruence].
    + reflexivity.
  - destruct (listenerResolve this); simpl; [rewrite app_nil_r; reflexivity|].
    destruct (linesQueue this); simpl; rewrite ?app_nil_r; reflexivity.
Qed.

Lemma handed_cons (o : observation W) (os : list (observation W)) :
  handed (o :: os) = (handed [o] ++ handed os)%list.
Proof. destruct o as [w l| |[m|l|w]]; reflexivity. Qed.

Lemma arrived_cons (c : call W) (cs : list (call W)) :
  arrived (c :: cs) = (arrived [c] ++ arrived cs)%list.
Proof. destruct c; reflexivity. Qed.

Lemma prompts_cons (c : call W) (cs : list (call W)) :
  prompts (c :: cs) = (prompts [c] ++ prompts cs)%list.
Proof. destruct c; reflexivity. Qed.

Lemma performAll_conserves (cs : list (call W)) (this : t W) :
  queue_excludes_waiter this ->
  (handed (fst (performAll cs this)) ++ linesQueue (snd (performAll cs this)))%list
  = (linesQueue this ++ arrived cs)%list.
Proof.
  revert this; induction cs as [|c cs IH]; intros this H.
  - simpl. rewrite app_nil_r. reflexivity.
  - pose proof (perform_conserves c this H) as Hc.
    pose proof (LineBuffer.perform_keeps_exclusion W c this H) as Hk.
    cbn [performAll].
    destruct (perform c this) as [o this1]. cbn [fst snd] in Hc, Hk.
    specialize (IH this1 Hk).
    destruct (performAll cs this1) as [os this2]. cbn [fst snd] in *.
    rewrite handed_cons, arrived_cons.
    rewrite <- app_assoc, IH, !app_assoc, Hc. reflexivity.
Qed.

Lemma perform_displayed (c : call W) (this : t W) :
  listenerResolve this = None ->
  let rl := readlineInterface this in
  let rl' := readlineInterface (snd (perform c this)) in
  Readline.output rl' = Readline.output rl
  /\ Readline.displayed rl'
     = (Readline.displayed rl ++ (if Readline.output rl then prompts [c] else []))%list.
Proof.
  intros HL. destruct c as [line|p fresh]; unfold perform, handleLine, getNextLine.
  - destruct (resolve this); simpl; destruct (Readline.output _); rewrite app_nil_r; auto.
  - rewrite HL. unfold Readline.prompt, Readline.setPrompt. simpl.
    destruct (linesQueue this); simpl;
      destruct (Readline.output (readlineInterface this)) eqn:O; simpl;
      rewrite ?O, ?app_nil_r; auto.
Qed.

Lemma performAll_displayed (cs : list (call W)) (this : t W) :
  listenerResolve this = None ->
  let rl := readlineInterface this in
  let rl' := readlineInterface (snd (performAll cs this)) in
  Readline.output rl' = Readline.output rl
  /\ Readline.displayed rl'
     = (Readline.displayed rl ++ (if Readline.output rl then prompts cs else []))%list.
Proof.
  revert this; induction cs as [|c cs IH]; intros this HL; cbv zeta.
  - cbn [performAll snd prompts].
    destruct (Readline.output _); rewrite app_nil_r; auto.
  - pose proof (perform_displayed c this HL) as [Ho Hw].
    pose proof (LineBuffer.perform_listenerResolve W c this) as HL1.
    cbn [performAll].
    destruct (perform c this) as [o this1]. cbn [fst snd] in Ho, Hw, HL1.
    destruct (IH this1 (eq_trans HL1 HL)) as [Ho' Hw'].
    destruct (performAll cs this1) as [os this2]. cbn [fst snd] in *.
    split; [congruence|].
    rewrite Hw', Hw, Ho, (prompts_cons c cs).
    destruct (Readline.output (readlineInterface this));
      rewrite <- ?app_assoc, ?app_nil_r; reflexivity.
Qed.

End Facts.

(** [X1] Whatever the order of the [handleLine] and [getNextLine]
    calls on a new line buffer, no line is lost, duplicated or
    reordered: the lines handed out so far, to a waiter or as the
    value of a request, followed by the lines still queued, are the
    lines that arrived, in their order. *)
Theorem lines_are_conserved (W : Type) (tty : bool) (cs : list (call W)) :
  (handed (fst (performAll cs (constructor tty)))
   ++ linesQueue (snd (performAll cs (constructor tty))))%list
  = arrived cs.
Proof.
  apply (performAll_conserves W cs (constructor tty)). left; reflexivity.
Qed.

(** [X2] On a line buffer built by the constructor, after any calls,
    [getNextLine] is never rejected: it is fulfilled with the oldest
    queued line when the queue holds one, and left pending, its
    resolver registered, when the queue is empty, whether or not
    another request is waiting. *)
Theorem getNextLine_is_never_rejected
  (W : Type) (tty : bool) (cs : list (call W)) (p : string) (fresh : W) :
  let this := snd (performAll cs (constructor tty)) in
  (linesQueue this = []
   /\ fst (getNextLine p fresh this) = Pending fresh
   /\ resolve (snd (getNextLine p fresh this)) = Some fresh)
  \/ (exists line rest,
        linesQueue this = line :: rest
        /\ fst (getNextLine p fresh this) = Fulfilled line
        /\ linesQueue (snd (getNextLine p fresh this)) = rest
        /\ resolve (snd (getNextLine p fresh this)) = None).
Proof.
  intros this.
  pose proof (LineBuffer.performAll_listenerResolve W cs (constructor tty)) as HL.
  pose proof (LineBuffer.performAll_keeps_exclusion W cs (constructor tty)
                (or_introl eq_refl)) as Hinv.
  fold this in HL, Hinv. simpl in HL.
  unfold getNextLine. rewrite HL.
  destruct (linesQueue this) as [|line rest] eqn:Q; simpl.
  - left. auto.
  - right. exists line, rest. repeat split.
    destruct Hinv as [Hq|Hr]; [congruence|exact Hr].
Qed.

(** [X3] A request made while another one waits takes its place: the
    resolver of the earlier request leaves the line buffer and no
    line that arrives later is handed to it, unless that resolver is
    registered again. *)
Theorem overtaken_request_gets_no_line
  (W : Type) (tty : bool) (before after : list (call W))
  (w fresh : W) (p line : string) :
  resolve (snd (performAll before (constructor tty))) = Some w ->
  fresh <> w ->
  (forall q, ~ In (GetNextLine q w) after) ->
  fst (getNextLine p fresh (snd (performAll before (constructor tty)))) = Pending fresh
  /\ ~ In (Fired w line)
          (fst (performAll after
                  (snd (getNextLine p fresh (snd (performAll before (constructor tty))))))).
Proof.
  intros Hw Hf Ha.
  destruct (LineBuffer.replaced_waiter_is_never_fired W tty before after w fresh p line
              Hw Hf Ha) as [E N].
  split; [rewrite E; reflexivity | exact N].
Qed.

Lemma overtaken_request_gets_no_line_witness :
  fst (getNextLine "second: " 2
         (snd (performAll [GetNextLine "first: " 1] (constructor (W := nat) false))))
  = Pending 2
  /\ ~ In (Fired 1 "x")
          (fst (performAll [HandleLine "x"; GetNextLine "third: " 3; HandleLine "x"]
                  (snd (getNextLine "second: " 2
                          (snd (performAll [GetNextLine "first: " 1]
                                  (constructor (W := nat) false))))))).
Proof.
  apply (overtaken_request_gets_no_line nat false [GetNextLine "first: " 1]
           [HandleLine "x"; GetNextLine "third: " 3; HandleLine "x"] 1 2 "second: " "x").
  - reflexivity.
  - discriminate.
  - intros q [H|[H|[H|[]]]]; discriminate H.
Defined.

(** [X4] Every request displays its prompt, and prompts are
    displayed for a terminal only.  After any calls on a new line
    buffer, the prompts that the readline interface has put on
    display are those of the [getNextLine] calls, one per call in the
    order of the calls, whether a call was served from the queue or
    left waiting, when the input is a terminal; when it is not, the
    interface has no output stream and displays nothing.  This is
    about the prompts displayed, not about the bytes a terminal
    receives for them. *)
Theorem every_request_displays_its_prompt (W : Type) (tty : bool) (cs : list (call W)) :
  Readline.output (readlineInterface (snd (performAll cs (constructor tty)))) = tty
  /\ Readline.displayed (readlineInterface (snd (performAll cs (constructor tty))))
     = if tty then prompts cs else [].
Proof.
  destruct (performAll_displayed W cs (constructor tty) eq_refl) as [Ho H].
  split; [exact Ho|]. rewrite H. reflexivity.
Qed.

End LineBufferMore.

(* ================================================================= *)
(** * More on setting and creating a secret *)

Module WritingMore.

Import JS Commands Statements Observations.
Local Open Scope string_scope.

Section Kubectl.

Variable kubectl : list (list string) -> list string -> SpawnResult.

(** The two ways the patch callback ends. *)
Lemma patch_cases (namespace : option string) (secretName : string)
  (skipEncode : bool) (pairs : Pairs) (w : World) :
  let args := patchArgs namespace secretName skipEncode pairs in
  (succeeds (kubectl (invocations w) args)
   /\ patch kubectl namespace secretName skipEncode pairs w
      = (Ok tt,
         mkWorld (invocations w ++ [args]) (out w ++ [secretName ++ " updated." ++ nl])
                 (err w)))
  \/ (exists errs,
        patch kubectl namespace secretName skipEncode pairs w
        = (Throw (ExitError 1),
           mkWorld (invocations w ++ [args]) (out w) (err w ++ errs))).
Proof.
  cbv zeta.
  destruct (ReadingMore.runKubectlOrExit_cases kubectl
              (patchArgs namespace secretName skipEncode pairs) None w)
    as [[Hs E]|(c & _ & E)].
  - left. split; [exact Hs|]. unfold patch, bind. rewrite E.
    unfold console_log, stdout_write. simpl.
    rewrite Parsing.append_assoc. reflexivity.
  - right. eexists. unfold patch, bind. rewrite E. reflexivity.
Qed.

Section Chain.

Variable env : Closure.
Variable ks : list string.
Variable w0 : World.
Variable tty : bool.

Lemma start_is_standing (events : list Event) :
  standing kubectl env ks w0 (ended events) (lines events)
           (run kubectl events (chainStart env ks w0 tty)).
Proof.
  exact (Writing.run_standing kubectl env ks w0 events false [] _
           (Writing.start_standing kubectl tty env ks w0)).
Qed.

Lemma start_due (events : list Event) :
  due (run kubectl events (chainStart env ks w0 tty)) <= 2 * length ks + 2.
Proof.
  destruct (start_is_standing events) as (_ & bp & _ & _ & H). unfold due.
  destruct (task (run kubectl events (chainStart env ks w0 tty))) as [ps ks'|t k ps ks'|k v ps ks'|o|o];
    cbv zeta in H.
  - destruct H as (_ & _ & _ & Hk & _).
    apply (f_equal (@length string)) in Hk. rewrite length_app in Hk. lia.
  - destruct H as (_ & _ & _ & _ & Hk & _).
    apply (f_equal (@length string)) in Hk. rewrite length_app in Hk.
    simpl in Hk. lia.
  - destruct H as (_ & _ & _ & Hk & _).
    apply (f_equal (@length string)) in Hk. rewrite length_app in Hk.
    simpl in Hk. lia.
  - lia.
  - lia.
Qed.

Lemma chain_settled (events : list Event) (outcome : Result unit) :
  task (run kubectl events (chainStart env ks w0 tty)) = Settled outcome ->
  patch kubectl (namespace env) (secretName env) (skipEncode env)
        (combine ks (firstn (length ks) (lines events))) w0
  = (outcome, world (run kubectl events (chainStart env ks w0 tty))).
Proof.
  intros T.
  exact (Writing.settled_standing kubectl env ks w0 _ (lines events) _ outcome
           (start_is_standing events) T).
Qed.

Lemma chain_settles (events : list Event) :
  length ks <= length (lines events) ->
  exists outcome,
    task (run kubectl (events ++ repeat Job (2 * length ks + 2)) (chainStart env ks w0 tty)) = Settled outcome.
Proof.
  intros Hlen. rewrite Writing.run_app.
  apply Writing.due_0_settled.
  apply (Writing.jobs_settle kubectl env ks w0 _ (lines events) _ Hlen _
           (start_is_standing events)).
  apply start_due.
Qed.

Lemma chain_collects (events : list Event) :
  length ks <= length (lines events) ->
  exists outcome,
    task (run kubectl (events ++ repeat Job (2 * length ks + 2)) (chainStart env ks w0 tty)) = Settled outcome
    /\ patch kubectl (namespace env) (secretName env) (skipEncode env)
             (combine ks (firstn (length ks) (lines events))) w0
       = (outcome,
          world (run kubectl (events ++ repeat Job (2 * length ks + 2)) (chainStart env ks w0 tty))).
Proof.
  intros Hlen. destruct (chain_settles events Hlen) as [outcome T].
  exists outcome. split; [exact T|].
  pose proof (chain_settled _ outcome T) as E.
  rewrite Writing.lines_then_jobs in E. exact E.
Qed.

(** The line buffer is closed by the [finally] callback, or at the
    end of the input, and not otherwise. *)
Lemma chain_closes (events : list Event) :
  exists bp,
    prompt (run kubectl events (chainStart env ks w0 tty)) = Some bp
    /\ Readline.closed (BetterPrompt.readlineInterface bp)
       = match task (run kubectl events (chainStart env ks w0 tty)) with
         | Settled _ => true
         | _ => ended events
         end.
Proof.
  destruct (start_is_standing events) as (_ & bp & Hp & _ & H).
  exists bp. split; [exact Hp|].
  destruct (task (run kubectl events (chainStart env ks w0 tty))); cbv zeta in H; intuition.
Qed.

(** What the chain has made of the world: nothing before the patch
    callback, and then what the patch callback makes of it. *)
Lemma chain_world (events : list Event) :
  let p := run kubectl events (chainStart env ks w0 tty) in
  let patched (outcome : Result unit) : Prop :=
    exists pairs,
      patch kubectl (namespace env) (secretName env) (skipEncode env) pairs w0
      = (outcome, world p) in
  match task p with
  | Finally outcome => patched outcome
  | Settled outcome => patched outcome
  | _ => world p = w0
  end.
Proof.
  cbv zeta.
  destruct (start_is_standing events) as (_ & bp & Hp & _ & H).
  destruct (task (run kubectl events (chainStart env ks w0 tty))); cbv zeta in H.
  - apply H.
  - apply H.
  - apply H.
  - destruct H as (_ & _ & pairs & _ & _ & E). exists pairs; exact E.
  - destruct H as (_ & pairs & rest & _ & _ & E). exists pairs; exact E.
Qed.

(** *** The prompts of the chain *)

Lemma onLine_prompted (line : string) (p : Process) :
  prompted tty ks p -> prompted tty ks (onLine line p).
Proof.
  intros (bp & Hp & HL & Ho & Hw & Hk). unfold onLine. rewrite Hp.
  destruct (Readline.closed (BetterPrompt.readlineInterface bp)).
  { exists bp. repeat split; assumption. }
  unfold BetterPrompt.handleLine.
  destruct (BetterPrompt.resolve bp) as [t|].
  - destruct (task p) as [pairs keys|t' key pairs keys|key value pairs keys|o|o] eqn:T;
      try (eexists; split; [reflexivity|]; simpl; rewrite ?T; repeat split; assumption).
    destruct (t =? t')%nat;
      eexists; (split; [reflexivity|]); simpl; repeat split; assumption.
  - eexists. split; [reflexivity|]. simpl. repeat split; assumption.
Qed.

Lemma onJob_prompted (p : Process) :
  prompted tty ks p -> prompted tty ks (onJob kubectl p).
Proof.
  intros (bp & Hp & HL & Ho & Hw & Hk). unfold onJob. rewrite Hp.
  destruct (task p) as [pairs keys|t' key pairs keys|key value pairs keys|o|o] eqn:T.
  - destruct keys as [|key keys].
    + destruct (patch _ _ _ _ _ _) as [outcome w'].
      exists bp. simpl. repeat split; trivial.
      rewrite Hw. simpl. rewrite app_nil_r in Hk. rewrite Hk. reflexivity.
    + unfold BetterPrompt.getNextLine. rewrite HL.
      assert (R : forall q,
                 Readline.output
                   (Readline.prompt (Readline.setPrompt q (BetterPrompt.readlineInterface bp)))
                 = tty
                 /\ Readline.displayed
                      (Readline.prompt
                         (Readline.setPrompt q (BetterPrompt.readlineInterface bp)))
                    = (if tty
                       then (map (query (skipEncode (closure p))) (map fst pairs) ++ [q])%list
                       else [])).
      { intros q. unfold Readline.prompt, Readline.setPrompt. simpl.
        simpl in Hw. rewrite Ho. destruct tty; simpl; rewrite ?Ho, ?Hw; auto. }
      destruct (BetterPrompt.linesQueue bp) as [|l q];
        (eexists; split; [reflexivity|]; simpl;
         destruct (R (query (skipEncode (closure p)) key)) as [R1 R2];
         repeat split; trivial;
         rewrite R2, map_app; reflexivity).
  - exists bp. rewrite T. repeat split; assumption.
  - exists bp. simpl. repeat split; trivial.
    + rewrite Hw. simpl. rewrite !map_app. reflexivity.
    + rewrite map_app, <- app_assoc. exact Hk.
  - eexists. split; [reflexivity|]. simpl. repeat split; trivial.
  - exists bp. rewrite T. repeat split; assumption.
Qed.

Lemma onEnd_prompted (p : Process) :
  prompted tty ks p -> prompted tty ks (onEnd p).
Proof.
  intros (bp & Hp & HL & Ho & Hw & Hk). unfold onEnd. rewrite Hp.
  eexists. split; [reflexivity|]. simpl. repeat split; assumption.
Qed.

Lemma run_prompted (events : list Event) (p : Process) :
  prompted tty ks p -> prompted tty ks (run kubectl events p).
Proof.
  revert p; induction events as [|[line| |] events IH]; intros p H; simpl; trivial.
  - apply IH. apply onLine_prompted. exact H.
  - apply IH. apply onJob_prompted. exact H.
  - apply IH. apply onEnd_prompted. exact H.
Qed.

Lemma start_prompted : prompted tty ks (chainStart env ks w0 tty).
Proof.
  eexists. split; [reflexivity|]. simpl. repeat split. destruct tty; reflexivity.
Qed.

Lemma run_keeps_closure (events : list Event) (p : Process) :
  closure (run kubectl events p) = closure p.
Proof.
  revert p; induction events as [|[line| |] events IH]; intros p; simpl; trivial.
  3: { rewrite IH. unfold onEnd. destruct (prompt p) as [bp|]; trivial. }
  - rewrite IH. unfold onLine. destruct (prompt p) as [bp|]; trivial.
    destruct (Readline.closed _); trivial.
    destruct (BetterPrompt.handleLine line bp) as [[[t v]|] bp']; trivial.
    destruct (task p); trivial. destruct (t =? w)%nat; trivial.
  - rewrite IH. unfold onJob.
    destruct (task p) as [pairs [|key keys]| | | |]; trivial.
    + destruct (patch _ _ _ _ _ _); trivial.
    + destruct (prompt p) as [bp|]; trivial.
      destruct (BetterPrompt.getNextLine _ _ bp) as [[m|v|t] bp']; trivial.
Qed.

End Chain.

(** *** How [setSecret] and [createSecret] start *)

Lemma setSecret_starts (tty : bool) (namespace : option string)
  (secretName : string) (key : string) (keys : list string) (skipEncode : bool)
  (w : World) :
  setSecret kubectl tty namespace secretName (key :: keys) skipEncode w
  = chainStart (mkClosure namespace secretName skipEncode) (key :: keys) w tty.
Proof. reflexivity. Qed.

Lemma setSecret_lists_keys (tty : bool) (namespace : option string)
  (secretName : string) (skipEncode : bool) (w : World) :
  let r := kubectl (invocations w) (keyArgs namespace secretName) in
  let env := mkClosure namespace secretName skipEncode in
  (succeeds r
   /\ setSecret kubectl tty namespace secretName [] skipEncode w
      = chainStart env (allLines (stdout r))
          (mkWorld (invocations w ++ [keyArgs namespace secretName]) (out w) (err w)) tty)
  \/ (exists errs,
        setSecret kubectl tty namespace secretName [] skipEncode w
        = mkProcess env
            (mkWorld (invocations w ++ [keyArgs namespace secretName]) (out w)
                     (err w ++ errs))
            None (Settled (Throw (ExitError 1)))).
Proof.
  cbv zeta. unfold setSecret. cbn [length Nat.eqb]. unfold bind.
  fold (keyArgs namespace secretName).
  destruct (ReadingMore.runKubectlOrExit_cases kubectl (keyArgs namespace secretName) None w)
    as [[Hs E]|(c & _ & E)].
  - left. split; [exact Hs|]. rewrite E. reflexivity.
  - right. eexists. rewrite E. reflexivity.
Qed.

Lemma createSecret_cases (tty : bool) (namespace : option string)
  (secretName : string) (keys : list string) (encodeValues : bool) (w : World) :
  let r := kubectl (invocations w) (createArgs namespace secretName) in
  let env := mkClosure namespace secretName encodeValues in
  let w1 := mkWorld (invocations w ++ [createArgs namespace secretName]) (out w) (err w) in
  (succeeds r
   /\ createSecret kubectl tty namespace secretName keys encodeValues w
      = match keys with
        | [] => mkProcess env w1 None (Settled (Ok tt))
        | _ :: _ => setSecret kubectl tty namespace secretName keys encodeValues w1
        end)
  \/ (exists errs,
        createSecret kubectl tty namespace secretName keys encodeValues w
        = mkProcess env
            (mkWorld (invocations w ++ [createArgs namespace secretName]) (out w)
                     (err w ++ errs))
            None (Settled (Throw (ExitError 1)))).
Proof.
  cbv zeta. unfold createSecret. fold (createArgs namespace secretName).
  destruct (ReadingMore.runKubectlOrExit_cases kubectl (createArgs namespace secretName)
              None w) as [[Hs E]|(c & _ & E)].
  - left. split; [exact Hs|]. rewrite E. destruct keys; reflexivity.
  - right. eexists. rewrite E. reflexivity.
Qed.

(** *** How the script ends *)

Lemma idle_ends_well (events : list Event) (p : Process) (outcome : Result unit) :
  prompt p = None -> task p = Settled outcome ->
  outcome = Ok tt \/ outcome = Throw (ExitError 1) ->
  endsWell (run kubectl events p).
Proof.
  intros Hp T Ho. rewrite (Writing.settled_is_idle kubectl events p outcome Hp T).
  unfold endsWell, Cli.ending. rewrite T.
  destruct Ho as [->| ->]; auto.
Qed.

Lemma chain_ends_well (env : Closure) (ks : list string) (w : World) (tty : bool)
  (events : list Event) :
  endsWell (run kubectl events (chainStart env ks w tty)).
Proof.
  pose proof (chain_world env ks w tty events) as H. cbv zeta in H.
  unfold endsWell, Cli.ending.
  destruct (task (run kubectl events (chainStart env ks w tty))); auto.
  destruct H as [pairs E].
  destruct (patch_cases (namespace env) (secretName env) (skipEncode env) pairs w)
    as [[_ E']|[errs E']]; rewrite E' in E; inversion E; auto.
Qed.

Lemma setSecret_ends_well (tty : bool) (namespace : option string)
  (secretName : string) (keys : list string) (skipEncode : bool) (w : World)
  (events : list Event) :
  endsWell (run kubectl events
              (setSecret kubectl tty namespace secretName keys skipEncode w)).
Proof.
  destruct keys as [|key keys].
  - destruct (setSecret_lists_keys tty namespace secretName skipEncode w)
      as [[_ E]|[errs E]]; rewrite E.
    + apply chain_ends_well.
    + apply (idle_ends_well events _ (Throw (ExitError 1))); auto.
  - rewrite setSecret_starts. apply chain_ends_well.
Qed.

Lemma createSecret_ends_well (tty : bool) (namespace : option string)
  (secretName : string) (keys : list string) (encodeValues : bool) (w : World)
  (events : list Event) :
  endsWell (run kubectl events
              (createSecret kubectl tty namespace secretName keys encodeValues w)).
Proof.
  destruct (createSecret_cases tty namespace secretName keys encodeValues w)
    as [[_ E]|[errs E]]; rewrite E.
  - destruct keys as [|key keys].
    + apply (idle_ends_well events _ (Ok tt)); auto.
    + apply setSecret_ends_well.
  - apply (idle_ends_well events _ (Throw (ExitError 1))); auto.
Qed.

End Kubectl.

(** *** The object that is sent *)

Lemma secretData_from (skipEncode : bool) (pairs : Pairs) (data : JSON.Object) :
  Forall (fun kv => String.eqb (fst kv) "__proto__" = false) pairs ->
  fold_left
    (fun data kv =>
       let value := if negb skipEncode then encodeValue (snd kv) else snd kv in
       JSON.assign (fst kv) value data)
    pairs data
  = fold_left (fun m kv => Map_set (fst kv) (snd kv) m)
      (map (fun kv => (fst kv, sent skipEncode (snd kv))) pairs) data.
Proof.
  intros H. revert data.
  induction H as [|kv pairs Hkv _ IH]; intros data; cbn [fold_left map].
  - reflexivity.
  - rewrite <- IH. f_equal. unfold JSON.assign.
    destruct (String.eqb (fst kv) "__proto__") eqn:E; [congruence | reflexivity].
Qed.

Lemma indexed_ordinary (o : JSON.Object) :
  Forall (fun kv => JSON.arrayIndex (fst kv) = None) o ->
  JSON.indexed o = [] /\ JSON.named o = o.
Proof.
  induction 1 as [|[k v] o Hk _ [IH1 IH2]]; simpl; [auto|].
  simpl in Hk. unfold JSON.named in *. simpl. rewrite Hk, IH1, IH2. auto.
Qed.

Lemma ordinary_parts (key : string) :
  ordinary key = true ->
  String.eqb key "__proto__" = false /\ JSON.arrayIndex key = None.
Proof.
  unfold ordinary. intros H. apply andb_true_iff in H. destruct H as [H1 H2].
  apply negb_true_iff in H1. split; [exact H1|].
  destruct (JSON.arrayIndex key); [discriminate|reflexivity].
Qed.

Lemma secretData_skips_proto (skipEncode : bool) (pairs : Pairs) (data : JSON.Object) :
  fold_left
    (fun data kv =>
       let value := if negb skipEncode then encodeValue (snd kv) else snd kv in
       JSON.assign (fst kv) value data)
    pairs data
  = fold_left
      (fun data kv =>
         let value := if negb skipEncode then encodeValue (snd kv) else snd kv in
         JSON.assign (fst kv) value data)
      (filter (fun kv => negb (String.eqb (fst kv) "__proto__")) pairs) data.
Proof.
  revert data; induction pairs as [|kv pairs IH]; intros data; [reflexivity|].
  cbn [fold_left filter].
  destruct (String.eqb (fst kv) "__proto__") eqn:E; cbn [negb fold_left].
  - match goal with
    | |- context [JSON.assign (fst kv) ?v data] =>
        replace (JSON.assign (fst kv) v data) with data
          by (unfold JSON.assign; rewrite E; reflexivity)
    end.
    apply IH.
  - apply IH.
Qed.

Lemma Map_get_assign (k key value : string) (data : JSON.Object) :
  String.eqb key k = false ->
  Map_get k (JSON.assign key value data) = Map_get k data.
Proof.
  intros N. unfold JSON.assign. destruct (String.eqb key "__proto__"); [reflexivity|].
  rewrite Reading.Map_get_set, N. reflexivity.
Qed.

Lemma Map_get_later_pairs (skipEncode : bool) (k : string) (pairs : Pairs)
  (data : JSON.Object) :
  Forall (fun kv => String.eqb (fst kv) k = false) pairs ->
  Map_get k
    (fold_left
       (fun data kv =>
          let value := if negb skipEncode then encodeValue (snd kv) else snd kv in
          JSON.assign (fst kv) value data)
       pairs data)
  = Map_get k data.
Proof.
  intros H. revert data.
  induction H as [|kv pairs Hkv _ IH]; intros data; cbn [fold_left].
  - reflexivity.
  - rewrite IH. apply Map_get_assign. exact Hkv.
Qed.

(** [X13] [setSecret] on given keys, with or without encoding, for
    every interleaving of arriving lines and callbacks: once a line
    has arrived for every key, two callbacks per key and two more
    settle the chain, and whenever the chain is settled the world is
    what the patch callback makes of the starting world, for the
    keys paired in order with the first lines that arrived; later
    lines are not used. *)
Theorem set_pairs_keys_with_lines_in_order
  (kubectl : list (list string) -> list string -> SpawnResult)
  (tty : bool) (namespace : option string) (secretName : string)
  (key : string) (keys : list string) (skipEncode : bool)
  (w : World) (events : list Event) :
  let ks := key :: keys in
  let start := setSecret kubectl tty namespace secretName ks skipEncode w in
  let pairs := combine ks (firstn (length ks) (lines events)) in
  length ks <= length (lines events) ->
  (forall outcome,
     task (run kubectl events start) = Settled outcome ->
     patch kubectl namespace secretName skipEncode pairs w
     = (outcome, world (run kubectl events start)))
  /\ (exists outcome,
        task (run kubectl (events ++ repeat Job (2 * length ks + 2)) start)
        = Settled outcome
        /\ patch kubectl namespace secretName skipEncode pairs w
           = (outcome,
              world (run kubectl (events ++ repeat Job (2 * length ks + 2)) start))).
Proof.
  cbv zeta. intros Hlen. rewrite setSecret_starts. split.
  - intros outcome T.
    exact (chain_settled kubectl (mkClosure namespace secretName skipEncode) (key :: keys)
             w tty events outcome T).
  - exact (chain_collects kubectl (mkClosure namespace secretName skipEncode) (key :: keys)
             w tty events Hlen).
Qed.

Lemma set_pairs_keys_with_lines_in_order_witness :
  exists outcome,
    task (run (answering EmptyString)
              ([Line "x"; Job; Job; Job; Line "y"; Line "z"] ++ repeat Job 6)
              (setSecret (answering EmptyString) true (Some "prod") "db" ["u"; "p"] true
                         initially))
    = Settled outcome
    /\ patch (answering EmptyString) (Some "prod") "db" true [("u", "x"); ("p", "y")]
             initially
       = (outcome,
          world (run (answering EmptyString)
                     ([Line "x"; Job; Job; Job; Line "y"; Line "z"] ++ repeat Job 6)
                     (setSecret (answering EmptyString) true (Some "prod") "db" ["u"; "p"]
                                true initially))).
Proof.
  apply (set_pairs_keys_with_lines_in_order (answering EmptyString) true (Some "prod") "db"
           "u" ["p"] true initially [Line "x"; Job; Job; Job; Line "y"; Line "z"]).
  simpl. lia.
Defined.

(** [X14] [setSecret] without keys first asks the tool for the keys
    of the secret.  When that invocation fails, [ExitError(1)] is
    thrown before a line buffer is constructed: the tool has been
    invoked once, nothing is written to the standard output, no line
    is read and no callback is due, whatever arrives. *)
Theorem set_without_keys_stops_when_listing_fails
  (kubectl : list (list string) -> list string -> SpawnResult)
  (tty : bool) (namespace : option string) (secretName : string)
  (skipEncode : bool) (w : World) (events : list Event) :
  let p := setSecret kubectl tty namespace secretName [] skipEncode w in
  ~ succeeds (kubectl (invocations w) (keyArgs namespace secretName)) ->
  task p = Settled (Throw (ExitError 1))
  /\ prompt p = None
  /\ invocations (world p) = (invocations w ++ [keyArgs namespace secretName])%list
  /\ out (world p) = out w
  /\ run kubectl events p = p.
Proof.
  intros p Hf. unfold p.
  destruct (setSecret_lists_keys kubectl tty namespace secretName skipEncode w)
    as [[Hs _]|[errs E]]; [contradiction|].
  rewrite E. repeat split.
  apply (Writing.settled_is_idle kubectl events _ (Throw (ExitError 1))); reflexivity.
Qed.

Lemma set_without_keys_stops_when_listing_fails_witness :
  let gone : list (list string) -> list string -> SpawnResult :=
    fun _ _ => mkSpawnResult None (Some 1%Z) EmptyString "not found" in
  let p := setSecret gone true None "db" [] false initially in
  task p = Settled (Throw (ExitError 1))
  /\ prompt p = None
  /\ invocations (world p) = [keyArgs None "db"]
  /\ out (world p) = []
  /\ run gone [Line "x"; Job; Job] p = p.
Proof.
  apply (set_without_keys_stops_when_listing_fails
           (fun _ _ => mkSpawnResult None (Some 1%Z) EmptyString "not found")
           true None "db" false initially [Line "x"; Job; Job]).
  intros [_ H]. discriminate H.
Defined.

(** [X15] [setSecret] without keys, when the listing succeeds, asks
    for every key of the secret, in the order of the listing: once a
    line has arrived for every listed key the chain settles, and the
    world is then what the patch callback makes of the world after
    the listing, for the listed keys paired in order with the first
    lines. *)
Theorem set_without_keys_asks_for_every_key
  (kubectl : list (list string) -> list string -> SpawnResult)
  (tty : bool) (namespace : option string) (secretName : string)
  (skipEncode : bool) (w : World) (events : list Event) :
  let r := kubectl (invocations w) (keyArgs namespace secretName) in
  let ks := allLines (stdout r) in
  let w1 := mkWorld (invocations w ++ [keyArgs namespace secretName]) (out w) (err w) in
  let start := setSecret kubectl tty namespace secretName [] skipEncode w in
  succeeds r ->
  length ks <= length (lines events) ->
  exists outcome,
    task (run kubectl (events ++ repeat Job (2 * length ks + 2)) start) = Settled outcome
    /\ patch kubectl namespace secretName skipEncode
             (combine ks (firstn (length ks) (lines events))) w1
       = (outcome,
          world (run kubectl (events ++ repeat Job (2 * length ks + 2)) start)).
Proof.
  intros r ks w1 start Hs Hlen. unfold start.
  destruct (setSecret_lists_keys kubectl tty namespace secretName skipEncode w)
    as [[_ E]|[errs E]].
  - rewrite E.
    exact (chain_collects kubectl (mkClosure namespace secretName skipEncode) ks w1 tty
             events Hlen).
  - exfalso.
    destruct (ReadingMore.runKubectlOrExit_cases kubectl (keyArgs namespace secretName)
                None w) as [[_ E']|(c & [Hc|[[e Hc]|(Hc & Hn & _)]] & _)].
    + unfold setSecret in E. cbn [length Nat.eqb] in E. unfold bind in E.
      fold (keyArgs namespace secretName) in E. rewrite E' in E. discriminate E.
    + destruct Hs as [He _]. fold r in Hc. congruence.
    + destruct Hs as [He _]. fold r in Hc. congruence.
    + destruct Hs as [_ Hst]. fold r in Hn. contradiction.
Qed.

Lemma set_without_keys_asks_for_every_key_witness :
  exists outcome,
    task (run (answering ("user" ++ nl ++ "pass" ++ nl))
              ([Job; Line "root"; Line "hunter2"] ++ repeat Job 6)
              (setSecret (answering ("user" ++ nl ++ "pass" ++ nl)) false None "db" []
                         false initially))
    = Settled outcome
    /\ patch (answering ("user" ++ nl ++ "pass" ++ nl)) None "db" false
             [("user", "root"); ("pass", "hunter2")]
             (mkWorld [keyArgs None "db"] [] [])
       = (outcome,
          world (run (answering ("user" ++ nl ++ "pass" ++ nl))
                     ([Job; Line "root"; Line "hunter2"] ++ repeat Job 6)
                     (setSecret (answering ("user" ++ nl ++ "pass" ++ nl)) false None "db"
                                [] false initially))).
Proof.
  apply (set_without_keys_asks_for_every_key (answering ("user" ++ nl ++ "pass" ++ nl))
           false None "db" false initially [Job; Line "root"; Line "hunter2"]).
  - split; reflexivity.
  - simpl. lia.
Defined.

Lemma line_buffer_closes_with_the_chain
  (kubectl : list (list string) -> list string -> SpawnResult)
  (tty : bool) (namespace : option string) (secretName : string)
  (key : string) (keys : list string) (skipEncode : bool)
  (w : World) (events : list Event) :
  let p := run kubectl events
             (setSecret kubectl tty namespace secretName (key :: keys) skipEncode w) in
  exists bp,
    prompt p = Some bp
    /\ Readline.closed (BetterPrompt.readlineInterface bp)
       = match task p with
         | Settled _ => true
         | _ => ended events
         end.
Proof.
  cbv zeta. rewrite setSecret_starts. apply chain_closes.
Qed.

(** [X16] The line buffer of [setSecret] is closed by the [finally]
    callback, or by the readline interface itself when the standard
    input ends, and not otherwise: at every point of every schedule
    the interface is closed exactly when the chain is settled or the
    input has ended.  So the interface may be closed while the chain
    is not settled, and the chain then goes on with the lines that
    were queued before. *)
Theorem line_buffer_is_closed_by_finally_or_at_end_of_input
  (kubectl : list (list string) -> list string -> SpawnResult)
  (tty : bool) (namespace : option string) (secretName : string)
  (key : string) (keys : list string) (skipEncode : bool)
  (w : World) (events : list Event) :
  let p := run kubectl events
             (setSecret kubectl tty namespace secretName (key :: keys) skipEncode w) in
  exists bp,
    prompt p = Some bp
    /\ Readline.closed (BetterPrompt.readlineInterface bp)
       = match task p with
         | Settled _ => true
         | _ => ended events
         end.
Proof.
  cbv zeta. rewrite setSecret_starts. apply chain_closes.
Qed.

(** [X17] [setSecret] touches the world in its last callback only,
    and confirms only a patch that succeeded.  Before that callback
    the world is the starting world.  After it, either the outcome is
    success, the tool was invoked once, with a patch, and the one
    line written to the standard output is the confirmation; or the
    outcome is [ExitError(1)], the tool was invoked once, with a
    patch, and nothing was written to the standard output.  No other
    outcome exists: the chain never ends on a rejected request. *)
Theorem set_confirms_only_a_successful_patch
  (kubectl : list (list string) -> list string -> SpawnResult)
  (tty : bool) (namespace : option string) (secretName : string)
  (key : string) (keys : list string) (skipEncode : bool)
  (w : World) (events : list Event) :
  let p := run kubectl events
             (setSecret kubectl tty namespace secretName (key :: keys) skipEncode w) in
  let patched (outcome : Result unit) : Prop :=
    exists pairs,
      invocations (world p)
      = (invocations w ++ [patchArgs namespace secretName skipEncode pairs])%list
      /\ ((outcome = Ok tt
           /\ out (world p) = (out w ++ [confirmation secretName])%list
           /\ err (world p) = err w)
          \/ (outcome = Throw (ExitError 1) /\ out (world p) = out w)) in
  match task p with
  | Finally outcome => patched outcome
  | Settled outcome => patched outcome
  | _ => world p = w
  end.
Proof.
  cbv zeta. rewrite setSecret_starts.
  pose proof (chain_world kubectl (mkClosure namespace secretName skipEncode)
                (key :: keys) w tty events) as H.
  cbv zeta in H. cbn [Commands.namespace Commands.secretName Commands.skipEncode] in H.
  destruct (task (run kubectl events _)); trivial;
    destruct H as [pairs E]; exists pairs;
    destruct (patch_cases kubectl namespace secretName skipEncode pairs w)
      as [[_ E']|[errs E']]; rewrite E' in E; inversion E; simpl; auto.
Qed.

(** [X18] The prompts of [setSecret] follow the keys: at every point
    of every schedule, the prompts that the readline interface has
    put on display for a terminal are one for each key asked so far,
    in the order of the keys, each reading [New encoded value for],
    when encoding is skipped, or [New unencoded value for], then the
    key and a colon; all keys have been asked once the patch callback
    has run.  When the input is not a terminal nothing is displayed.
    This is about the prompts displayed, not about the bytes a
    terminal receives for them. *)
Theorem prompts_follow_the_keys
  (kubectl : list (list string) -> list string -> SpawnResult)
  (tty : bool) (namespace : option string) (secretName : string)
  (key : string) (keys : list string) (skipEncode : bool)
  (w : World) (events : list Event) :
  let p := run kubectl events
             (setSecret kubectl tty namespace secretName (key :: keys) skipEncode w) in
  let wording (k : string) : string :=
    (if skipEncode then "New encoded value for " else "New unencoded value for ")
      ++ k ++ ": " in
  exists bp,
    prompt p = Some bp
    /\ Readline.displayed (BetterPrompt.readlineInterface bp)
       = if tty then map wording (asked (key :: keys) (task p)) else [].
Proof.
  cbv zeta. rewrite setSecret_starts.
  set (env := mkClosure namespace secretName skipEncode).
  destruct (run_prompted kubectl (key :: keys) tty events _
              (start_prompted env (key :: keys) w tty))
    as (bp & Hp & _ & _ & Hw & _).
  exists bp. split; [exact Hp|].
  rewrite Hw, run_keeps_closure. destruct tty; [|reflexivity].
  apply map_ext. intros k. unfold query. cbn [env Commands.skipEncode].
  destruct skipEncode; reflexivity.
Qed.

(** [X19] The object that is sent.  For keys that are distinct and
    ordinary (not [__proto__], not array indices) the data of the
    patch holds exactly the collected pairs, in the order of the
    keys, each value base64-encoded, or as typed when encoding is
    skipped; the payload is the JSON text of that object. *)
Theorem payload_holds_the_pairs_in_key_order (skipEncode : bool) (pairs : Pairs) :
  Forall (fun kv => ordinary (fst kv) = true) pairs ->
  NoDup (map fst pairs) ->
  JSON.ownEntries (secretData skipEncode pairs)
  = map (fun kv => (fst kv, sent skipEncode (snd kv))) pairs
  /\ JSON.stringify (secretData skipEncode pairs)
     = "{" ++ JSON.quote "data" ++ ":"
           ++ JSON.stringifyObject
                (map (fun kv => (fst kv, JSON.quote (sent skipEncode (snd kv)))) pairs)
           ++ "}".
Proof.
  intros Ho Hn.
  assert (D : secretData skipEncode pairs
              = map (fun kv => (fst kv, sent skipEncode (snd kv))) pairs).
  { unfold secretData. rewrite secretData_from.
    - apply Parsing.Map_new_distinct. rewrite map_map. exact Hn.
    - eapply Forall_impl; [|exact Ho]. intros kv H. apply ordinary_parts; exact H. }
  assert (E : JSON.ownEntries (secretData skipEncode pairs)
              = map (fun kv => (fst kv, sent skipEncode (snd kv))) pairs).
  { rewrite D. unfold JSON.ownEntries.
    destruct (indexed_ordinary (map (fun kv => (fst kv, sent skipEncode (snd kv))) pairs))
      as [I N].
    - apply Forall_map. eapply Forall_impl; [|exact Ho].
      intros kv H. apply ordinary_parts; exact H.
    - rewrite I, N. reflexivity. }
  split; [exact E|].
  unfold JSON.stringify. rewrite E, map_map. reflexivity.
Qed.

Lemma payload_holds_the_pairs_in_key_order_witness :
  JSON.ownEntries (secretData false [("user", "root"); ("pass", "hunter2")])
  = [("user", "cm9vdA=="); ("pass", "aHVudGVyMg==")]
  /\ JSON.ownEntries (secretData true [("user", "cm9vdA=="); ("pass", "aHVudGVyMg==")])
     = [("user", "cm9vdA=="); ("pass", "aHVudGVyMg==")].
Proof.
  split.
  - apply (payload_holds_the_pairs_in_key_order false [("user", "root"); ("pass", "hunter2")]).
    + repeat constructor.
    + repeat constructor; simpl; intuition discriminate.
  - apply (payload_holds_the_pairs_in_key_order true
             [("user", "cm9vdA=="); ("pass", "aHVudGVyMg==")]).
    + repeat constructor.
    + repeat constructor; simpl; intuition discriminate.
Defined.

(** [X20] A key named [__proto__] is never sent: the assignment to
    it leaves the object as it is, so that the data of the patch is
    the data of the other pairs, although a value was asked for and
    read. *)
Theorem proto_key_is_never_sent (skipEncode : bool) (pairs : Pairs) :
  secretData skipEncode pairs
  = secretData skipEncode
      (filter (fun kv => negb (String.eqb (fst kv) "__proto__")) pairs).
Proof.
  unfold secretData. apply secretData_skips_proto.
Qed.

(** [X21] When a key is given more than once, the value read last is
    the one that is sent for it: after the pairs are stored, a key
    other than [__proto__] has the value of its last pair. *)
Theorem last_value_of_a_key_is_sent
  (skipEncode : bool) (before after : Pairs) (key value : string) :
  String.eqb key "__proto__" = false ->
  Forall (fun kv => String.eqb (fst kv) key = false) after ->
  Map_get key (secretData skipEncode (before ++ (key, value) :: after)%list)
  = Some (sent skipEncode value).
Proof.
  intros Hp Ha. unfold secretData. rewrite fold_left_app. cbn [fold_left].
  rewrite Map_get_later_pairs by exact Ha.
  unfold JSON.assign. cbn [fst snd]. rewrite Hp.
  rewrite Reading.Map_get_set, String.eqb_refl. reflexivity.
Qed.

Lemma last_value_of_a_key_is_sent_witness :
  Map_get "a" (secretData false [("a", "1"); ("b", "2"); ("a", "3"); ("c", "4")])
  = Some "Mw==".
Proof.
  apply (last_value_of_a_key_is_sent false [("a", "1"); ("b", "2")] [("c", "4")] "a" "3").
  - reflexivity.
  - repeat constructor.
Defined.

Lemma closed_settled_is_idle
  (kubectl : list (list string) -> list string -> SpawnResult)
  (events : list Event) (p : Process) (bp : BetterPrompt.t nat) (outcome : Result unit) :
  prompt p = Some bp ->
  Readline.closed (BetterPrompt.readlineInterface bp) = true ->
  task p = Settled outcome ->
  run kubectl events p = p.
Proof.
  intros Hp Hc T. induction events as [|[line| |] events IH]; simpl; trivial.
  - unfold onLine. rewrite Hp, Hc. exact IH.
  - unfold onJob. rewrite T. exact IH.
  - unfold onEnd. rewrite Hp. cbv zeta. rewrite (Writing.close_closed _ Hc).
    replace (mkProcess _ _ _ _) with p; [exact IH|].
    destruct p as [c w' pr t]. simpl in *. subst pr. destruct bp; reflexivity.
Qed.

(** [X27] A settled chain is final: once [setSecret] has settled,
    nothing that arrives afterwards changes the process, so that the
    tool is not invoked again, nothing more is written, and lines
    that arrive late are not read. *)
Theorem settled_chain_is_final
  (kubectl : list (list string) -> list string -> SpawnResult)
  (tty : bool) (namespace : option string) (secretName : string)
  (key : string) (keys : list string) (skipEncode : bool)
  (w : World) (events more : list Event) (outcome : Result unit) :
  let start := setSecret kubectl tty namespace secretName (key :: keys) skipEncode w in
  task (run kubectl events start) = Settled outcome ->
  run kubectl (events ++ more) start = run kubectl events start.
Proof.
  cbv zeta. intros T. rewrite Writing.run_app.
  destruct (line_buffer_closes_with_the_chain kubectl tty namespace secretName key keys
              skipEncode w events) as (bp & Hp & Hc).
  rewrite T in Hc.
  exact (closed_settled_is_idle kubectl more _ bp outcome Hp Hc T).
Qed.

Lemma settled_chain_is_final_witness :
  let start := setSecret (answering EmptyString) false None "db" ["user"] false initially in
  run (answering EmptyString)
      ([Line "root"; Job; Job; Job; Job] ++ [Line "late"; Job; Job; Line "later"]) start
  = run (answering EmptyString) [Line "root"; Job; Job; Job; Job] start.
Proof.
  apply (settled_chain_is_final (answering EmptyString) false None "db" "user" [] false
           initially [Line "root"; Job; Job; Job; Job]
           [Line "late"; Job; Job; Line "later"] (Ok tt)).
  reflexivity.
Defined.

End WritingMore.

(* ================================================================= *)
(** * More on creating a secret, and on the script *)

Module ScriptMore.

Import JS Commands Statements Observations.
Local Open Scope string_scope.

(** [X22] When the create invocation fails, [createSecret] throws
    [ExitError(1)] and does nothing else, whatever keys were given:
    the tool has been invoked once, no line buffer is constructed, no
    line is read and no patch follows. *)
Theorem failed_create_stops_everything
  (kubectl : list (list string) -> list string -> SpawnResult)
  (tty : bool) (namespace : option string) (secretName : string)
  (keys : list string) (encodeValues : bool) (w : World) (events : list Event) :
  let p := createSecret kubectl tty namespace secretName keys encodeValues w in
  ~ succeeds (kubectl (invocations w) (createArgs namespace secretName)) ->
  task p = Settled (Throw (ExitError 1))
  /\ prompt p = None
  /\ invocations (world p) = (invocations w ++ [createArgs namespace secretName])%list
  /\ out (world p) = out w
  /\ run kubectl events p = p.
Proof.
  intros p Hf. unfold p.
  destruct (WritingMore.createSecret_cases kubectl tty namespace secretName keys
              encodeValues w) as [[Hs _]|[errs E]]; [contradiction|].
  rewrite E. repeat split.
  apply (Writing.settled_is_idle kubectl events _ (Throw (ExitError 1))); reflexivity.
Qed.

Lemma failed_create_stops_everything_witness :
  let exists_already : list (list string) -> list string -> SpawnResult :=
    fun _ _ => mkSpawnResult None (Some 1%Z) EmptyString "already exists" in
  let p := createSecret exists_already true None "db" ["user"; "pass"] false initially in
  task p = Settled (Throw (ExitError 1))
  /\ prompt p = None
  /\ invocations (world p) = [createArgs None "db"]
  /\ out (world p) = []
  /\ run exists_already [Line "root"; Job; Job; Job] p = p.
Proof.
  apply (failed_create_stops_everything
           (fun _ _ => mkSpawnResult None (Some 1%Z) EmptyString "already exists")
           true None "db" ["user"; "pass"] false initially [Line "root"; Job; Job; Job]).
  intros [_ H]. discriminate H.
Defined.

(** [X23] [createSecret] with keys, when the create succeeds, is the
    create followed by [setSecret] on the same keys: once a line has
    arrived for every key the chain settles, and the tool has then
    been invoked exactly twice, first to create the secret and then
    to patch it with the keys paired in order with the first lines.
    This holds whether or not the patch succeeds: a failed patch
    leaves the secret created. *)
Theorem create_with_keys_creates_then_patches
  (kubectl : list (list string) -> list string -> SpawnResult)
  (tty : bool) (namespace : option string) (secretName : string)
  (key : string) (keys : list string) (encodeValues : bool)
  (w : World) (events : list Event) :
  let ks := key :: keys in
  let start := createSecret kubectl tty namespace secretName ks encodeValues w in
  let finish := run kubectl (events ++ repeat Job (2 * length ks + 2)) start in
  succeeds (kubectl (invocations w) (createArgs namespace secretName)) ->
  length ks <= length (lines events) ->
  (exists outcome, task finish = Settled outcome)
  /\ invocations (world finish)
     = (invocations w
        ++ [createArgs namespace secretName;
            patchArgs namespace secretName encodeValues
              (combine ks (firstn (length ks) (lines events)))])%list.
Proof.
  cbv zeta. intros Hs Hlen.
  destruct (WritingMore.createSecret_cases kubectl tty namespace secretName (key :: keys)
              encodeValues w) as [[_ E]|[errs E]].
  - rewrite E, WritingMore.setSecret_starts.
    destruct (WritingMore.chain_collects kubectl
                (mkClosure namespace secretName encodeValues) (key :: keys)
                (mkWorld (invocations w ++ [createArgs namespace secretName]) (out w) (err w))
                tty events Hlen) as (outcome & T & P).
    split; [exists outcome; exact T|].
    rewrite (Writing.patched_world kubectl _ _ _ _ _ _ _ P).
    simpl. rewrite <- app_assoc. reflexivity.
  - exfalso.
    destruct (ReadingMore.runKubectlOrExit_cases kubectl (createArgs namespace secretName)
                None w) as [[_ E']|(c & [Hc|[[e Hc]|(Hc & Hn & _)]] & _)].
    + unfold createSecret in E. fold (createArgs namespace secretName) in E.
      rewrite E' in E. discriminate E.
    + destruct Hs as [He _]. congruence.
    + destruct Hs as [He _]. congruence.
    + destruct Hs as [_ Hst]. contradiction.
Qed.

Lemma create_with_keys_creates_then_patches_witness :
  let finish :=
    run (answering EmptyString) ([Job; Line "root"; Line "hunter2"] ++ repeat Job 6)
        (createSecret (answering EmptyString) false None "db" ["user"; "pass"] false
                      initially) in
  (exists outcome, task finish = Settled outcome)
  /\ invocations (world finish)
     = [createArgs None "db";
        patchArgs None "db" false [("user", "root"); ("pass", "hunter2")]].
Proof.
  apply (create_with_keys_creates_then_patches (answering EmptyString) false None "db"
           "user" ["pass"] false initially [Job; Line "root"; Line "hunter2"]).
  - split; reflexivity.
  - simpl. lia.
Defined.

(** [X24] When the credential check fails, the script stops there,
    whatever the command: the tool has been invoked once, with
    [version]; the command error and then the credentials message
    are written to the standard error, nothing to the standard
    output; no command is dispatched, no line is read, and the
    script exits with code 1. *)
Theorem failed_credential_check_exits_with_1
  (kubectl : list (list string) -> list string -> SpawnResult)
  (tty : bool) (args : Cli.Args) (w : World) (events : list Event) :
  let p := Cli.main kubectl tty args w in
  ~ succeeds (kubectl (invocations w) ["version"]) ->
  Cli.ending p = Some (Cli.Exited 1)
  /\ prompt p = None
  /\ invocations (world p) = (invocations w ++ [["version"]])%list
  /\ out (world p) = out w
  /\ (exists commandError,
        err (world p) = (err w ++ [commandError; credentialsLine])%list)
  /\ run kubectl events p = p.
Proof.
  intros p Hf. unfold p, Cli.main.
  destruct (ReadingMore.runKubectlOrExit_cases kubectl ["version"]
              (Some Cli.credentialsMessage) w) as [[Hs _]|(c & _ & E)]; [contradiction|].
  rewrite E. repeat split.
  - exists c. reflexivity.
  - apply (Writing.settled_is_idle kubectl events _ (Throw (ExitError 1))); reflexivity.
Qed.

Lemma failed_credential_check_exits_with_1_witness :
  let absent : list (list string) -> list string -> SpawnResult :=
    fun _ _ => mkSpawnResult (Some ENOENT) None EmptyString EmptyString in
  let p := Cli.main absent true (Cli.mkArgs "set" None "db" ["user"] false false false)
             initially in
  Cli.ending p = Some (Cli.Exited 1)
  /\ prompt p = None
  /\ invocations (world p) = [["version"]]
  /\ out (world p) = []
  /\ (exists commandError, err (world p) = [commandError; credentialsLine])
  /\ run absent [Line "root"; Job] p = p.
Proof.
  apply (failed_credential_check_exits_with_1
           (fun _ _ => mkSpawnResult (Some ENOENT) None EmptyString EmptyString)
           true (Cli.mkArgs "set" None "db" ["user"] false false false) initially
           [Line "root"; Job]).
  intros [H _]. discriminate H.
Defined.

(** [X25] For the three commands the script never ends on an
    uncaught error.  Whatever the tool answers, whatever keys and
    flags are given and however lines and callbacks interleave, at
    every point the script is still running, has completed, or has
    exited with code 1. *)
Theorem script_completes_or_exits_with_1
  (kubectl : list (list string) -> list string -> SpawnResult)
  (tty : bool) (args : Cli.Args) (w : World) (events : list Event) :
  Cli.command args = "get" \/ Cli.command args = "set" \/ Cli.command args = "create" ->
  endsWell (run kubectl events (Cli.main kubectl tty args w)).
Proof.
  intros Hcmd. unfold Cli.main.
  destruct (ReadingMore.runKubectlOrExit_cases kubectl ["version"]
              (Some Cli.credentialsMessage) w) as [[_ E]|(c & _ & E)]; rewrite E.
  2: { apply (WritingMore.idle_ends_well kubectl events _ (Throw (ExitError 1))); auto. }
  destruct Hcmd as [C|[C|C]]; rewrite C.
  - change (String.eqb "get" "get") with true. cbv iota.
    pose proof (ReadingMore.getSecret_outcome kubectl (Cli.namespace args)
                  (Cli.name args) (Cli.key args) (Cli.decode args) (Cli.quiet args)
                  (mkWorld (invocations w ++ [["version"]]) (out w) (err w))) as [_ H].
    destruct (getSecret kubectl _ _ _ _ _ _) as [outcome w''].
    cbn [fst snd] in H.
    apply (WritingMore.idle_ends_well kubectl events _ outcome); trivial.
    destruct H as [H|[H _]]; auto.
  - change (String.eqb "set" "get") with false.
    change (String.eqb "set" "set") with true. cbv iota.
    apply WritingMore.setSecret_ends_well.
  - change (String.eqb "create" "get") with false.
    change (String.eqb "create" "set") with false.
    change (String.eqb "create" "create") with true. cbv iota.
    apply WritingMore.createSecret_ends_well.
Qed.

Lemma script_completes_or_exits_with_1_witness :
  endsWell (run (answering ("k:" ++ nl)) [Line "x"; Job]
                (Cli.main (answering ("k:" ++ nl)) false
                          (Cli.mkArgs "get" None "s" [] false false false) initially))
  /\ Cli.ending (Cli.main (answering ("k:" ++ nl)) false
                          (Cli.mkArgs "get" None "s" [] false false false) initially)
     = Some (Cli.Exited 1).
Proof.
  split; [|reflexivity].
  apply (script_completes_or_exits_with_1 (answering ("k:" ++ nl)) false
           (Cli.mkArgs "get" None "s" [] false false false) initially [Line "x"; Job]).
  left; reflexivity.
Defined.

End ScriptMore.

(* ================================================================= *)
(** * The message of the argument parser *)

Module ParserMore.

Import Commands Statements Parser.
Local Open Scope string_scope.

Lemma prefix_app (p s : string) : String.prefix p (p ++ s) = true.
Proof.
  induction p as [|c p IH]; simpl.
  - destruct s; reflexivity.
  - destruct (ascii_dec c c) as [_|N]; [exact IH | contradiction].
Qed.

Lemma prefix_split (p s : string) :
  String.prefix p s = true -> exists post, s = p ++ post.
Proof.
  revert s; induction p as [|c p IH]; intros s H.
  - exists s. reflexivity.
  - destruct s as [|d s]; simpl in H; [discriminate|].
    destruct (ascii_dec c d) as [->|N]; [|discriminate].
    destruct (IH s H) as [post ->]. exists post. reflexivity.
Qed.

Lemma indexOfString_unfold (p s : string) :
  indexOfString p s =
  if String.prefix p s then 0%Z
  else match s with
       | EmptyString => (-1)%Z
       | String _ s' =>
           let i := indexOfString p s' in
           if (i <? 0)%Z then (-1)%Z else (i + 1)%Z
       end.
Proof. destruct s; reflexivity. Qed.

Lemma indexOfString_range (p s : string) : (-1 <= indexOfString p s)%Z.
Proof.
  induction s as [|c s IH]; rewrite indexOfString_unfold;
    destruct (String.prefix p _); try lia.
  cbv zeta. destruct (indexOfString p s <? 0)%Z eqn:L; [lia|].
  apply Z.ltb_ge in L. lia.
Qed.

(** A position found is the start of an occurrence. *)
Lemma indexOfString_found (p s : string) :
  (0 <= indexOfString p s)%Z ->
  exists pre post,
    s = pre ++ p ++ post /\ Z.of_nat (String.length pre) = indexOfString p s.
Proof.
  induction s as [|c s IH]; rewrite indexOfString_unfold.
  - destruct (String.prefix p EmptyString) eqn:P; [|lia].
    intros _. destruct (prefix_split _ _ P) as [post E].
    exists EmptyString, post. split; [exact E | reflexivity].
  - destruct (String.prefix p (String c s)) eqn:P.
    + intros _. destruct (prefix_split _ _ P) as [post E].
      exists EmptyString, post. split; [exact E | reflexivity].
    + cbv zeta. destruct (indexOfString p s <? 0)%Z eqn:L; [lia|].
      apply Z.ltb_ge in L. intros _.
      destruct (IH L) as (pre & post & E & Hl).
      exists (String c pre), post. split.
      * simpl. rewrite <- E. reflexivity.
      * simpl String.length. lia.
Qed.

(** No occurrence starts before the position found, and there is
    none at all when none is found. *)
Lemma indexOfString_first (p s pre post : string) :
  s = pre ++ p ++ post ->
  (0 <= indexOfString p s <= Z.of_nat (String.length pre))%Z.
Proof.
  revert pre; induction s as [|c s IH]; intros pre E; rewrite indexOfString_unfold.
  - destruct pre; simpl in E.
    + rewrite E, prefix_app. simpl. lia.
    + discriminate.
  - destruct pre as [|d pre]; simpl in E.
    + rewrite E, prefix_app. simpl. lia.
    + injection E as Hc Hs. destruct (String.prefix p (String c s)); [simpl; lia|].
      cbv zeta. specialize (IH pre Hs).
      destruct (indexOfString p s <? 0)%Z eqn:L; [apply Z.ltb_lt in L; lia|].
      simpl String.length. lia.
Qed.

Lemma substitution_plain (matched before after replacement : string) :
  occurs "$" replacement = false ->
  substitution matched before after replacement = replacement.
Proof.
  induction replacement as [|c r IH]; simpl; intros H; [reflexivity|].
  apply orb_false_iff in H. destruct H as [Hc Hr].
  rewrite Hc, (IH Hr). reflexivity.
Qed.

Lemma substringFrom_rest (a b : string) :
  JS.substringFrom (Z.of_nat (String.length a)) (a ++ b) = b.
Proof.
  unfold JS.substringFrom, JS.substring, JS.clamp. rewrite Parsing.length_append.
  set (k := String.length a). set (v := String.length b).
  replace (Z.min (Z.min (Z.max (Z.of_nat k) 0) (Z.of_nat (k + v)))
                 (Z.min (Z.max (Z.of_nat (k + v)) 0) (Z.of_nat (k + v))))
    with (Z.of_nat k) by lia.
  replace (Z.max (Z.min (Z.max (Z.of_nat k) 0) (Z.of_nat (k + v)))
                 (Z.min (Z.max (Z.of_nat (k + v)) 0) (Z.of_nat (k + v)))
           - Z.of_nat k)%Z
    with (Z.of_nat v) by lia.
  rewrite !Nat2Z.id. apply Parsing.substring_suffix.
Qed.

(** Replacing in a text that holds the pattern: what stands before
    the first occurrence and after it is kept. *)
Lemma replace_found (p r s : string) :
  occurs "$" r = false ->
  (0 <= indexOfString p s)%Z ->
  exists pre post,
    s = pre ++ p ++ post
    /\ Z.of_nat (String.length pre) = indexOfString p s
    /\ replace p r s = pre ++ r ++ post.
Proof.
  intros Hr Hi. destruct (indexOfString_found p s Hi) as (pre & post & E & Hl).
  exists pre, post. split; [exact E|]. split; [exact Hl|].
  unfold replace.
  destruct (indexOfString p s <? 0)%Z eqn:L; [apply Z.ltb_lt in L; lia|].
  rewrite substitution_plain by exact Hr.
  rewrite <- Hl.
  assert (B : JS.substring 0 (Z.of_nat (String.length pre)) s = pre).
  { rewrite E. apply Parsing.substring_key. }
  assert (A : JS.substringFrom (Z.of_nat (String.length pre) + Z.of_nat (String.length p)) s
              = post).
  { rewrite E, <- Parsing.append_assoc, <- Nat2Z.inj_add, <- Parsing.length_append.
    apply substringFrom_rest. }
  rewrite B, A. reflexivity.
Qed.

(** [X26] The argument parser passes the exit status on unchanged,
    and rewrites only messages that hold the phrase [too few
    arguments]: such a message has the first occurrence of the phrase
    replaced by the parser's own message, the text before and after
    it being kept; an undefined or empty message, or one without the
    phrase, is passed on as it is.  This is for a replacement message
    without a dollar sign, as both messages of the script are. *)
Theorem exit_rewrites_only_too_few_arguments
  (replacementMessage : string) (status : Z) (message : string) :
  occurs "$" replacementMessage = false ->
  exit replacementMessage status None = (status, None)
  /\ (((forall pre post, message <> pre ++ toReplace ++ post)
       /\ exit replacementMessage status (Some message) = (status, Some message))
      \/ (exists pre post,
            message = pre ++ toReplace ++ post
            /\ (forall pre' post',
                  message = pre' ++ toReplace ++ post' ->
                  String.length pre <= String.length pre')
            /\ exit replacementMessage status (Some message)
               = (status, Some (pre ++ replacementMessage ++ post)))).
Proof.
  intros Hr. split; [reflexivity|].
  unfold exit.
  destruct (0 <=? indexOfString toReplace message)%Z eqn:I.
  - apply Z.leb_le in I. right.
    destruct (replace_found toReplace replacementMessage message Hr I)
      as (pre & post & E & Hl & R).
    exists pre, post. split; [exact E|]. split.
    + intros pre' post' E'.
      pose proof (indexOfString_first toReplace message pre' post' E'). lia.
    + assert (T : truthy (Some message) = true).
      { rewrite E. destruct pre; reflexivity. }
      rewrite T, R. reflexivity.
  - apply Z.leb_gt in I. left. split.
    + intros pre post E.
      pose proof (indexOfString_first toReplace message pre post E). lia.
    + rewrite andb_false_r. reflexivity.
Qed.

Lemma exit_rewrites_only_too_few_arguments_witness :
  occurs "$" missingCommand = false
  /\ occurs "$" missingName = false
  /\ exit missingName 2 (Some "usage: sekr8s get [-h] name") =
     (2%Z, Some "usage: sekr8s get [-h] name")
  /\ exists pre post,
       "error: too few arguments" = pre ++ toReplace ++ post
       /\ (forall pre' post',
             "error: too few arguments" = pre' ++ toReplace ++ post' ->
             String.length pre <= String.length pre')
       /\ exit missingCommand 2 (Some "error: too few arguments")
          = (2%Z, Some (pre ++ missingCommand ++ post)).
Proof.
  split; [reflexivity|]. split; [reflexivity|]. split; [reflexivity|].
  destruct (proj2 (exit_rewrites_only_too_few_arguments missingCommand 2
                     "error: too few arguments" eq_refl)) as [[N _]|H].
  - exfalso. apply (N "error: " EmptyString). reflexivity.
  - exact H.
Defined.

End ParserMore.
